(** * heic-converter: a model of [src/main.js] and its resource lifecycle

    The program is a single browser script.  Its logic is the batch loop
    [processFiles], the two conversion paths, the thumbnail arithmetic and
    the bookkeeping of object URLs.  The browser (blob URL store, image
    decoder, canvas encoder) and the [heic-to] package are collaborators:
    they appear here as a [Platform] record of functions; the theorems
    are stated for an arbitrary platform, and the runs that show a defect
    are on a concrete one. *)

From Stdlib Require Import Ascii String NArith ZArith QArith Qround Qabs Qpower Lia Lqa.
From stdpp Require Import base option list gmap strings pretty.

(** ** JavaScript strings

    A JS string is a sequence of UTF-16 code units.  File names and media
    types are modelled by [string], whose characters are the code units
    below 256 (ASCII and the Latin-1 supplement); on this range
    [String.prototype.toLowerCase] acts unit by unit. *)

Module JsString.

(** [toLowerCase] on one code unit: A-Z, and the Latin-1 capitals
    U+00C0..U+00DE except the multiplication sign U+00D7. *)
Definition lower_unit (c : ascii) : ascii :=
  let n := N_of_ascii c in
  if (((65 <=? n) && (n <=? 90)) ||
      ((192 <=? n) && (n <=? 222) && negb (n =? 215)))%N
  then ascii_of_N (n + 32)
  else c.

Fixpoint toLowerCase (s : string) : string :=
  match s with
  | EmptyString => EmptyString
  | String c r => String (lower_unit c) (toLowerCase r)
  end.

(** [s.startsWith(p)] *)
Definition startsWith (s p : string) : bool := String.prefix p s.

(** [s.endsWith(p)]: compare the last [p.length] units of [s] with [p]. *)
Definition endsWith (s p : string) : bool :=
  let len := String.length s in
  let k := String.length p in
  if (k <=? len)%nat
  then if string_dec (substring (len - k) k s) p then true else false
  else false.

(** [s.replace(/\.[^.]+$/, "")]: the leftmost position where a dot is
    followed by one or more non-dot units up to the end of the string is
    cut off; without such a position the string is returned as it is. *)
Fixpoint no_dot (s : string) : bool :=
  match s with
  | EmptyString => true
  | String c r => if Ascii.eqb c "."%char then false else no_dot r
  end.

Definition nonempty (s : string) : bool :=
  match s with EmptyString => false | _ => true end.

Fixpoint strip_extension (s : string) : string :=
  match s with
  | EmptyString => EmptyString
  | String c r =>
      if Ascii.eqb c "."%char && nonempty r && no_dot r
      then EmptyString
      else String c (strip_extension r)
  end.

End JsString.

(** ** JavaScript numbers

    A Number is a binary64 value.  The finite ones are modelled by the
    rational they denote and every arithmetic result goes through the
    engine's rounding function [fl : Q -> Q] (a field of the platform
    below); the non-finite results of a division by zero are kept apart.
    Signed zeros are not distinguished: every operand in the program is a
    pixel count. *)

Inductive Number :=
| Finite (q : Q)
| PosInf
| NegInf
| NaN.

Module Num.
Section Arith.
Variable fl : Q -> Q.

Definition of_N (n : N) : Number := Finite (inject_Z (Z.of_N n)).

Definition sign (q : Q) : comparison := (q ?= 0)%Q.

(** [a / b] *)
Definition div (a b : Number) : Number :=
  match a, b with
  | NaN, _ | _, NaN => NaN
  | Finite x, Finite y =>
      match sign y with
      | Eq => match sign x with Eq => NaN | Gt => PosInf | Lt => NegInf end
      | _ => Finite (fl (x / y))
      end
  | Finite _, (PosInf | NegInf) => Finite 0
  | (PosInf | NegInf), (PosInf | NegInf) => NaN
  | PosInf, Finite y => match sign y with Lt => NegInf | _ => PosInf end
  | NegInf, Finite y => match sign y with Lt => PosInf | _ => NegInf end
  end.

(** [a * b] *)
Definition mul (a b : Number) : Number :=
  match a, b with
  | NaN, _ | _, NaN => NaN
  | Finite x, Finite y => Finite (fl (x * y))
  | Finite x, PosInf | PosInf, Finite x =>
      match sign x with Eq => NaN | Gt => PosInf | Lt => NegInf end
  | Finite x, NegInf | NegInf, Finite x =>
      match sign x with Eq => NaN | Gt => NegInf | Lt => PosInf end
  | PosInf, PosInf | NegInf, NegInf => PosInf
  | PosInf, NegInf | NegInf, PosInf => NegInf
  end.

(** [Math.min(a, b)]: NaN if either argument is NaN. *)
Definition min (a b : Number) : Number :=
  match a, b with
  | NaN, _ | _, NaN => NaN
  | NegInf, _ | _, NegInf => NegInf
  | PosInf, x | x, PosInf => x
  | Finite x, Finite y => if Qle_bool x y then Finite x else Finite y
  end.

(** [Math.round(a)]: the integer nearest to [a], ties towards
    +Infinity; the result is exact. *)
Definition round (a : Number) : Number :=
  match a with
  | Finite x => Finite (inject_Z (Qfloor (x + (1 # 2))))
  | _ => a
  end.

(** Conversion of a Number to a WebIDL [unsigned long] (ToUint32):
    non-finite values give 0, finite ones are truncated towards zero
    and reduced modulo 2^32. *)
Definition to_unsigned_long (a : Number) : N :=
  match a with
  | Finite x => Z.to_N (Z.quot (Qnum x) (Z.pos (Qden x)) mod 2 ^ 32)
  | _ => 0%N
  end.

End Arith.
End Num.

(** Setter of a reflected [unsigned long] attribute with a default
    ([canvas.width], default 300; [canvas.height], default 150): a value
    above 2^31 - 1 is replaced by the default. *)
Definition reflect_unsigned_long (default v : N) : N :=
  if (v <=? 2147483647)%N then v else default.

(** Rounding to the nearest binary64 value, ties to even, for the finite
    range (the exponent is not bounded: the dimensions of an image are far
    from overflow and underflow). *)
Module Binary64.
Local Open Scope Q_scope.

(** The exponent [e] of a positive number: [2^e <= x < 2^(e+1)]. *)
Definition binade (x : Q) : Z :=
  let k := (Z.log2 (Qnum x) - Z.log2 (Z.pos (Qden x)))%Z in
  if Qle_bool (2 ^ k) x then k else (k - 1)%Z.

(** The nearest integer, ties to the even one. *)
Definition nearest_even (t : Q) : Z :=
  let f := Qfloor t in
  match (t - inject_Z f ?= 1 # 2)%Q with
  | Lt => f
  | Gt => (f + 1)%Z
  | Eq => if Z.even f then f else (f + 1)%Z
  end.

(** A positive number keeps 53 significant bits. *)
Definition round_positive (x : Q) : Q :=
  let u := (2 ^ (binade x - 52))%Q in
  inject_Z (nearest_even (x / u)) * u.

Definition nearest (x : Q) : Q :=
  match (x ?= 0)%Q with
  | Eq => 0
  | Gt => round_positive x
  | Lt => - round_positive (- x)
  end.

End Binary64.

(** ** Data model *)

(** An object URL ([blob:...]); the browser never issues the same one
    twice, so a URL is identified by its serial number. *)
Abbreviation URL := N (only parsing).

Record Blob := { blob_type : string; blob_bytes : list N }.

(** A [File] is a [Blob] with a name. *)
Record File := { name : string; type : string; contents : list N }.

Definition blob_of_file (f : File) : Blob :=
  {| blob_type := type f; blob_bytes := contents f |}.

(** A decoded [<img>]: its natural size and the blob it was decoded from. *)
Record Image := { naturalWidth : N; naturalHeight : N; image_source : Blob }.

(** What a canvas shows.  Assigning [width] or [height] clears it;
    [drawImage] paints an image or another canvas, at a destination size
    when one is given. *)
Inductive Picture :=
| Blank
| DrawnImage (img : Image) (dest : option (Number * Number))
| DrawnCanvas (w h : N) (src : Picture) (dest : option (Number * Number)).

Record Canvas := { width : N; height : N; picture : Picture }.

(** Values that the program throws or that a promise rejects with: an
    [Error] object (also a DOMException), a bare string, [undefined] or
    [null]. *)
Inductive JsValue :=
| ErrorObject (ename message : string)
| ThrownString (s : string)
| Undefined
| Null.

Definition new_Error (msg : string) : JsValue := ErrorObject "Error" msg.

(** The [TypeError] of reading a property of [undefined] or [null]; its
    message is the engine's, here V8's. *)
Definition TypeError_reading (what property : string) : JsValue :=
  ErrorObject "TypeError"
    ("Cannot read properties of " +:+ what +:+ " (reading '" +:+ property +:+ "')").

Inductive Result (A : Type) :=
| Ok (a : A)
| Throw (e : JsValue).
Arguments Ok {A} a.
Arguments Throw {A} e.

(** The collaborators of the script. *)
Record Platform := {
  (** rounding of an exact arithmetic result to a Number *)
  fl : Q -> Q;
  (** [isHeic(file)] of heic-to: resolves to a boolean or rejects *)
  isHeic : File -> Result bool;
  (** [heicTo({blob, type, quality})] of heic-to: resolves to a blob or
      rejects, with any value *)
  heicTo : File -> string -> Q -> Result Blob;
  (** loading a blob into an [<img>]: [Some] fires [onload], [None]
      fires [onerror] *)
  decodeImage : Blob -> option Image;
  (** argument of the [canvas.toBlob(callback, type, quality)] callback;
      [None] is [null] *)
  toBlob : Canvas -> string -> Q -> option Blob;
  (** [canvas.toDataURL(type, quality)] *)
  toDataURL : Canvas -> string -> Q -> Result string
}.

(** Children of [#output]. *)
Inductive OutputNode :=
| OutputItem (thumb : option (string * string)) (label : string)
             (href : URL) (download : string)
| OutputLog (text : string).

Inductive ConsoleEntry :=
| ConsoleLog (msg : string)
| ConsoleWarn (msg : string) (e : JsValue)
| ConsoleError (e : JsValue).

(** The state of the page.  [blob_store], [next_url], [revocations],
    [downloads] and [timers] belong to the browser; the others are the
    script's globals and DOM elements. *)
Record State := {
  blob_store : gmap N Blob;          (* live object URLs *)
  next_url : URL;                    (* serial number of the next URL *)
  revocations : list URL;            (* calls of URL.revokeObjectURL *)
  downloads : list (URL * option Blob); (* activations of a download link *)
  timers : list URL;                 (* pending setTimeout callbacks *)
  objectUrls : list URL;             (* the Set, in insertion order *)
  canvas : Canvas;
  output : list OutputNode;
  status : string;
  console : list ConsoleEntry
}.

Definition initial_state : State :=
  {| blob_store := ∅; next_url := 0%N; revocations := []; downloads := [];
     timers := []; objectUrls := [];
     canvas := {| width := 300; height := 150; picture := Blank |};
     output := []; status := ""; console := [] |}.

Definition set_blob_store (f : gmap N Blob -> gmap N Blob) (s : State) :=
  {| blob_store := f (blob_store s); next_url := next_url s;
     revocations := revocations s; downloads := downloads s;
     timers := timers s; objectUrls := objectUrls s; canvas := canvas s;
     output := output s; status := status s; console := console s |}.
Definition set_next_url (f : N -> N) (s : State) :=
  {| blob_store := blob_store s; next_url := f (next_url s);
     revocations := revocations s; downloads := downloads s;
     timers := timers s; objectUrls := objectUrls s; canvas := canvas s;
     output := output s; status := status s; console := console s |}.
Definition set_revocations (f : list N -> list N) (s : State) :=
  {| blob_store := blob_store s; next_url := next_url s;
     revocations := f (revocations s); downloads := downloads s;
     timers := timers s; objectUrls := objectUrls s; canvas := canvas s;
     output := output s; status := status s; console := console s |}.
Definition set_downloads
    (f : list (N * option Blob) -> list (N * option Blob)) (s : State) :=
  {| blob_store := blob_store s; next_url := next_url s;
     revocations := revocations s; downloads := f (downloads s);
     timers := timers s; objectUrls := objectUrls s; canvas := canvas s;
     output := output s; status := status s; console := console s |}.
Definition set_timers (f : list N -> list N) (s : State) :=
  {| blob_store := blob_store s; next_url := next_url s;
     revocations := revocations s; downloads := downloads s;
     timers := f (timers s); objectUrls := objectUrls s; canvas := canvas s;
     output := output s; status := status s; console := console s |}.
Definition set_objectUrls (f : list N -> list N) (s : State) :=
  {| blob_store := blob_store s; next_url := next_url s;
     revocations := revocations s; downloads := downloads s;
     timers := timers s; objectUrls := f (objectUrls s); canvas := canvas s;
     output := output s; status := status s; console := console s |}.
Definition set_canvas (f : Canvas -> Canvas) (s : State) :=
  {| blob_store := blob_store s; next_url := next_url s;
     revocations := revocations s; downloads := downloads s;
     timers := timers s; objectUrls := objectUrls s; canvas := f (canvas s);
     output := output s; status := status s; console := console s |}.
Definition set_output (f : list OutputNode -> list OutputNode) (s : State) :=
  {| blob_store := blob_store s; next_url := next_url s;
     revocations := revocations s; downloads := downloads s;
     timers := timers s; objectUrls := objectUrls s; canvas := canvas s;
     output := f (output s); status := status s; console := console s |}.
Definition set_status (f : string -> string) (s : State) :=
  {| blob_store := blob_store s; next_url := next_url s;
     revocations := revocations s; downloads := downloads s;
     timers := timers s; objectUrls := objectUrls s; canvas := canvas s;
     output := output s; status := f (status s); console := console s |}.
Definition set_console (f : list ConsoleEntry -> list ConsoleEntry) (s : State) :=
  {| blob_store := blob_store s; next_url := next_url s;
     revocations := revocations s; downloads := downloads s;
     timers := timers s; objectUrls := objectUrls s; canvas := canvas s;
     output := output s; status := status s; console := f (console s) |}.

(** ** Computations of the script

    A computation reads and updates the page state and ends with a value
    or with a thrown value.  The script is made of [async] functions: at
    an [await] -- of a promise of the platform (the classifier, the HEIC
    decoder, the load of an image, the encoder of [canvas.toBlob]) or of
    the promise of an [async] function of the script -- the computation
    is suspended, other handlers of the page may run, and the computation
    resumes in the state they leave.  Between two such points a
    computation runs without interruption. *)

Inductive Step (A : Type) : Type :=
| Finished (r : Result A) (s : State)
| Suspended (s : State) (resume : State -> Step A).
Arguments Finished {A} r s.
Arguments Suspended {A} s resume.

Definition M (A : Type) : Type := State -> Step A.

Definition ret {A} (a : A) : M A := fun s => Finished (Ok a) s.

Definition throw {A} (e : JsValue) : M A := fun s => Finished (Throw e) s.

Fixpoint and_then {A B} (x : Step A) (k : A -> M B) : Step B :=
  match x with
  | Finished (Ok a) s => k a s
  | Finished (Throw e) s => Finished (Throw e) s
  | Suspended s resume => Suspended s (fun s' => and_then (resume s') k)
  end.

Definition bind {A B} (m : M A) (k : A -> M B) : M B :=
  fun s => and_then (m s) k.

Fixpoint or_catch {A} (x : Step A) (handler : JsValue -> M A) : Step A :=
  match x with
  | Finished (Ok a) s => Finished (Ok a) s
  | Finished (Throw e) s => handler e s
  | Suspended s resume => Suspended s (fun s' => or_catch (resume s') handler)
  end.

(** [try { body } catch (e) { handler e }] *)
Definition try_catch {A} (body : M A) (handler : JsValue -> M A) : M A :=
  fun s => or_catch (body s) handler.

Fixpoint and_finally {A} (x : Step A) (fin : M unit) : Step A :=
  match x with
  | Finished r s => and_then (fin s) (fun _ s' => Finished r s')
  | Suspended s resume => Suspended s (fun s' => and_finally (resume s') fin)
  end.

(** [try { body } finally { fin }]: [fin] runs on both exits; the
    completion of [body] is kept unless [fin] itself throws. *)
Definition try_finally {A} (body : M A) (fin : M unit) : M A :=
  fun s => and_finally (body s) fin.

Definition modify (f : State -> State) : M unit := fun s => Finished (Ok tt) (f s).

Definition gets {A} (f : State -> A) : M A := fun s => Finished (Ok (f s)) s.

(** A call of the platform that completes with [r]: the value it
    returns or throws, or what the promise it returns is settled with. *)
Definition settle {A} (r : Result A) : M A := fun s => Finished r s.

Fixpoint and_await {A} (x : Step A) : Step A :=
  match x with
  | Finished r s => Suspended s (fun s' => Finished r s')
  | Suspended s resume => Suspended s (fun s' => and_await (resume s'))
  end.

(** [await m], for a call [m] that returns a promise: [m] runs up to the
    settlement of its promise, the caller is suspended, and it resumes
    with the value or the thrown value in a later job. *)
Definition await {A} (m : M A) : M A := fun s => and_await (m s).

(** A computation that runs alone: nothing else happens while it is
    suspended. *)
Fixpoint complete {A} (x : Step A) : Result A * State :=
  match x with
  | Finished r s => (r, s)
  | Suspended s resume => complete (resume s)
  end.

Definition alone {A} (m : M A) (s : State) : Result A * State := complete (m s).

(** The number of suspensions of a computation that runs alone. *)
Fixpoint awaits {A} (x : Step A) : nat :=
  match x with
  | Finished _ _ => 0
  | Suspended s resume => S (awaits (resume s))
  end.

Declare Scope js_scope.
Delimit Scope js_scope with js.
Notation "x <- m ;; k" := (bind m (fun x => k))
  (at level 100, m at next level, right associativity) : js_scope.
Notation "m ;; k" := (bind m (fun _ => k))
  (at level 100, right associativity) : js_scope.
Local Open Scope js_scope.

Fixpoint for_of {A} (l : list A) (body : A -> M unit) : M unit :=
  match l with
  | [] => ret tt
  | x :: r => body x ;; for_of r body
  end.

(** A JS [Set] of URLs keeps its members in insertion order. *)
Module JsSet.
Definition add (u : N) (l : list N) : list N :=
  if decide (u ∈ l) then l else l ++ [u].
Definition delete (u : N) (l : list N) : list N :=
  filter (fun x => x ≠ u) l.
Definition clear (l : list N) : list N := [].
End JsSet.

(** [URL.createObjectURL(blob)]: a URL that was never issued before now
    resolves to [blob]. *)
Definition createObjectURL (b : Blob) : M URL :=
  fun s =>
    let u := next_url s in
    Finished (Ok u) (set_next_url N.succ (set_blob_store (insert u b) s)).

(** [URL.revokeObjectURL(url)]: no error when [url] is not live. *)
Definition revokeObjectURL (u : URL) : M unit :=
  modify (fun s =>
    set_revocations (fun l => l ++ [u]) (set_blob_store (delete u) s)).

Definition truthy (s : string) : bool := JsString.nonempty s.

(** [`${err.message || err}`]: the property access [err.message] throws
    on [undefined] and on [null]. *)
Definition error_text (e : JsValue) : Result string :=
  match e with
  | ErrorObject n m =>
      Ok (if truthy m then m
          else (* Error.prototype.toString with an empty message *) n)
  | ThrownString s => Ok s
  | Undefined => Throw (TypeError_reading "undefined" "message")
  | Null => Throw (TypeError_reading "null" "message")
  end.

Section Script.
Variable P : Platform.

(* main.js 40-43 *)
Definition setStatus (msg : string) : M unit :=
  modify (fun s =>
    set_console (fun c => c ++ [ConsoleLog msg])
      (set_status (fun _ => msg) s)).

(* main.js 250-255 *)
Definition appendMessage (text : string) : M unit :=
  modify (set_output (fun o => o ++ [OutputLog text])).

(** What the load of [url] into an [<img>] ends with: the URL is
    resolved when [img.src] is assigned. *)
Definition load_result (url : URL) (s : State) : Result Image :=
  match blob_store s !! url with
  | Some b =>
      match decodeImage P b with
      | Some img => Ok img
      | None => Throw (new_Error "Failed to load image")
      end
  | None => Throw (new_Error "Failed to load image")
  end.

(* main.js 179-186 *)
Definition loadImage (url : URL) : M Image :=
  fun s => settle (load_result url s) s.

(* main.js 189-203 *)
Definition canvasToJpegBlob (c : Canvas) (quality : Q) : M Blob :=
  settle
    match toBlob P c "image/jpeg" quality with
    | None => Throw (new_Error "Failed to create JPEG blob")
    | Some blob => Ok blob
    end.

(* main.js 206-247; the click listener of the link is [click] below *)
Definition addDownloadLink (originalName : string) (blob : Blob)
    (thumbDataUrl : option string) : M unit :=
  url <- createObjectURL blob ;;
  modify (set_objectUrls (JsSet.add url)) ;;
  let baseName := JsString.strip_extension originalName in
  let thumb :=
    match thumbDataUrl with
    | Some d => if truthy d then Some (d, baseName) else None
    | None => None
    end in
  modify (set_output (fun o =>
    o ++ [OutputItem thumb (baseName +:+ ".jpg") url (baseName +:+ ".jpg")])).

(** The scale policy of both thumbnail entry points (main.js 266-268
    and 287-289): [Math.min(maxWidth / width, 1)], then the rounded
    products. *)
Definition thumb_scale (maxWidth w : N) : Number :=
  Num.min (Num.div (fl P) (Num.of_N maxWidth) (Num.of_N w)) (Finite 1).

Definition thumb_side (side : N) (scale : Number) : Number :=
  Num.round (Num.mul (fl P) (Num.of_N side) scale).

(** The canvas that [createThumbnailDataUrl] creates and draws on
    (main.js 266-275). *)
Definition thumbCanvas (sourceCanvas : Canvas) (maxWidth : N) : Canvas :=
  let scale := thumb_scale maxWidth (width sourceCanvas) in
  let thumbWidth := thumb_side (width sourceCanvas) scale in
  let thumbHeight := thumb_side (height sourceCanvas) scale in
  {| width := reflect_unsigned_long 300 (Num.to_unsigned_long thumbWidth);
     height := reflect_unsigned_long 150 (Num.to_unsigned_long thumbHeight);
     picture := DrawnCanvas (width sourceCanvas) (height sourceCanvas)
                  (picture sourceCanvas) (Some (thumbWidth, thumbHeight)) |}.

(* main.js 259-278 *)
Definition createThumbnailDataUrl (sourceCanvas : Canvas) (maxWidth : N)
    : M (option string) :=
  if ((width sourceCanvas =? 0) || (height sourceCanvas =? 0))%N
  then ret None
  else
    d <- settle (toDataURL P (thumbCanvas sourceCanvas maxWidth)
                   "image/jpeg" (7 # 10)) ;;
    ret (Some d).

(** The canvas that [createThumbnailFromBlob] creates and draws on
    (main.js 287-296). *)
Definition tempCanvas (img : Image) (maxWidth : N) : Canvas :=
  let scale := thumb_scale maxWidth (naturalWidth img) in
  let w := thumb_side (naturalWidth img) scale in
  let h := thumb_side (naturalHeight img) scale in
  {| width := reflect_unsigned_long 300 (Num.to_unsigned_long w);
     height := reflect_unsigned_long 150 (Num.to_unsigned_long h);
     picture := DrawnImage img (Some (w, h)) |}.

(* main.js 281-302 *)
Definition createThumbnailFromBlob (blob : Blob) (maxWidth : N) : M string :=
  url <- createObjectURL blob ;;
  try_finally
    (img <- await (loadImage url) ;;
     settle (toDataURL P (tempCanvas img maxWidth) "image/jpeg" (7 # 10)))
    (revokeObjectURL url).

(* main.js 133-148 *)
Definition convertHeicFileToJpeg (file : File) : M unit :=
  appendMessage ("(HEIC) Converting " +:+ name file +:+ "...") ;;
  jpegBlob <- await (settle (heicTo P file "image/jpeg" (9 # 10))) ;;
  thumbDataUrl <- await (createThumbnailFromBlob jpegBlob 240) ;;
  addDownloadLink (name file) jpegBlob (Some thumbDataUrl).

(** [canvas.width = w; canvas.height = h; ctx.drawImage(img, 0, 0)] *)
Definition draw_on_canvas (img : Image) (c : Canvas) : Canvas :=
  {| width := reflect_unsigned_long 300 (naturalWidth img);
     height := reflect_unsigned_long 150 (naturalHeight img);
     picture := DrawnImage img None |}.

(* main.js 150-166 *)
Definition convertImageFileToJpeg (file : File) : M unit :=
  appendMessage ("(Standard image) Reading " +:+ name file +:+ "...") ;;
  url <- createObjectURL (blob_of_file file) ;;
  img <- await (loadImage url) ;;
  revokeObjectURL url ;;
  modify (set_canvas (draw_on_canvas img)) ;;
  c <- gets canvas ;;
  thumbDataUrl <- createThumbnailDataUrl c 240 ;;
  jpegBlob <- await (canvasToJpegBlob c (9 # 10)) ;;
  addDownloadLink (name file) jpegBlob thumbDataUrl.

(* main.js 169-176 *)
Definition safeIsHeic (file : File) : M bool :=
  try_catch
    (await (settle (isHeic P file)))
    (fun e =>
       modify (set_console (fun c =>
         c ++ [ConsoleWarn "isHeic failed, treating as non-HEIC" e])) ;;
       ret false).

(** The callback of [files.filter] (main.js 96-99). *)
Definition supported (file : File) : bool :=
  JsString.startsWith (type file) "image/"
  || JsString.endsWith (JsString.toLowerCase (name file)) ".heic"
  || JsString.endsWith (JsString.toLowerCase (name file)) ".heif".

(** [objectUrls.forEach(url => URL.revokeObjectURL(url));
    objectUrls.clear()] (main.js 110-111 and 306-307). *)
Definition revokeAll : M unit :=
  urls <- gets objectUrls ;;
  for_of urls revokeObjectURL ;;
  modify (set_objectUrls JsSet.clear).

(** The body of the [for] loop (main.js 115-125). *)
Definition convert_file (file : File) : M unit :=
  heic <- await (safeIsHeic file) ;;
  if heic : bool then await (convertHeicFileToJpeg file)
  else await (convertImageFileToJpeg file).

Definition process_file (file : File) : M unit :=
  try_catch
    (convert_file file)
    (fun err =>
       modify (set_console (fun c => c ++ [ConsoleError err])) ;;
       reason <- settle (error_text err) ;;
       appendMessage ("Error converting " +:+ name file +:+ ": " +:+ reason)).

(* main.js 88-129 *)
Definition processFiles (files : list File) : M unit :=
  match files with
  | [] => setStatus "No files selected."
  | _ =>
      let files := List.filter supported files in
      match files with
      | [] => setStatus "No supported image files found."
      | _ =>
          setStatus ("Processing " +:+ pretty (length files) +:+ " file(s)...") ;;
          revokeAll ;;
          modify (set_output (fun _ => [])) ;;
          for_of files process_file ;;
          setStatus "Done."
      end
  end.

End Script.

(** ** The page as an event machine

    The script runs in the handlers of the page's events.  A handler runs
    until it returns or reaches an [await]; a suspended batch resumes when
    the promise it awaits settles, in the state the page has then.  Any
    number of batches can be suspended at a time.  The machine takes its
    events in any order; the browser allows fewer orders (a batch that
    waits for an [async] function of the script resumes before the next
    event of the user), so a state that the page can reach is a state of
    the machine. *)

Inductive Event :=
| SelectFiles (files : list File)  (* "change" on the input, or "drop" *)
| ClickDownload (i : nat)          (* click on the link of child [i] of #output *)
| TimerFires (k : nat)             (* pending timeout [k] elapses *)
| BeforeUnload
| Settles (j : nat).               (* the promise awaited by batch [j] settles *)

Record Page := {
  page : State;
  suspended : list (State -> Step unit)   (* the batches at an [await] *)
}.

Definition initial_page : Page := {| page := initial_state; suspended := [] |}.

(** [n] settlements in a row of promises that the oldest suspended batch
    awaits. *)
Definition settles (n : nat) : list Event := repeat (Settles 0) n.

Section Machine.
Variable P : Platform.

(** The timeout callback of a download link (main.js 238-241). *)
Definition revoke_later (url : URL) : M unit :=
  revokeObjectURL url ;;
  modify (set_objectUrls (JsSet.delete url)).

(** A click on a download link: its listener schedules the timeout
    (main.js 236-242), then the browser follows [href]. *)
Definition click (i : nat) : M unit :=
  out <- gets output ;;
  match out !! i with
  | Some (OutputItem _ _ href _) =>
      modify (set_timers (fun t => t ++ [href])) ;;
      modify (fun s =>
        set_downloads (fun d => d ++ [(href, blob_store s !! href)]) s)
  | _ => ret tt
  end.

Definition fire (k : nat) : M unit :=
  t <- gets timers ;;
  match t !! k with
  | Some url =>
      modify (set_timers (fun t => take k t ++ drop (S k) t)) ;;
      revoke_later url
  | None => ret tt
  end.

Definition handle (e : Event) : M unit :=
  match e with
  | SelectFiles files => processFiles P files
  | ClickDownload i => click i
  | TimerFires k => fire k
  | BeforeUnload => revokeAll      (* main.js 305-308 *)
  | Settles _ => ret tt
  end.

(** The page after a handler has run up to its first [await]. *)
Definition enter (x : Step unit) (waiting : list (State -> Step unit)) : Page :=
  match x with
  | Finished _ s => {| page := s; suspended := waiting |}
  | Suspended s resume => {| page := s; suspended := waiting ++ [resume] |}
  end.

(** The page after suspended batch [j] has run up to its next [await]. *)
Definition resume_batch (j : nat) (pg : Page) : Page :=
  match suspended pg !! j with
  | Some resume =>
      match resume (page pg) with
      | Finished _ s => {| page := s; suspended := delete j (suspended pg) |}
      | Suspended s resume' =>
          {| page := s; suspended := <[j := resume']> (suspended pg) |}
      end
  | None => pg
  end.

Definition step (pg : Page) (e : Event) : Page :=
  match e with
  | Settles j => resume_batch j pg
  | _ => enter (handle e (page pg)) (suspended pg)
  end.

Definition run (events : list Event) : Page :=
  fold_left step events initial_page.

(** The state after a batch that runs alone. *)
Definition after_batch (files : list File) (s : State) : State :=
  snd (alone (processFiles P files) s).

End Machine.

(** * Notions used in the statements *)

(** ** Names with a HEIC or HEIF extension *)







(** ** The tracker set and the blob URL store *)

(** The object URLs that the links of [#output] point to. *)
Definition hrefs (out : list OutputNode) : list N :=
  flat_map (fun n => match n with OutputItem _ _ h _ => [h] | OutputLog _ => [] end) out.

(** The lifecycle invariant of the page.  A tracked URL is live and was
    never revoked; every URL the browser has seen is older than the next
    one it will issue; every link on the page points to a URL that is
    tracked or has been revoked. *)
Record Inv (s : State) : Prop := {
  inv_live : forall u, u ∈ objectUrls s -> is_Some (blob_store s !! u);
  inv_unrevoked : forall u, u ∈ objectUrls s -> u ∉ revocations s;
  inv_store_old : forall u, is_Some (blob_store s !! u) -> (u < next_url s)%N;
  inv_revoked_old : forall u, u ∈ revocations s -> (u < next_url s)%N;
  inv_timers_old : forall u, u ∈ timers s -> (u < next_url s)%N;
  inv_links : forall u, u ∈ hrefs (output s) ->
                u ∈ objectUrls s \/ u ∈ revocations s;
  inv_nodup : NoDup (objectUrls s);
  inv_revoked_dead : forall u, u ∈ revocations s -> blob_store s !! u = None
}.

(** The state after [URL.revokeObjectURL(u)]. *)
Definition revoked (u : N) (s : State) : State :=
  set_revocations (fun l => l ++ [u]) (set_blob_store (delete u) s).

(** The state after [revokeAll]. *)
Definition revoked_all (s : State) : State :=
  set_objectUrls JsSet.clear
    (fold_left (fun s u => revoked u s) (objectUrls s) s).

(** The state after [setStatus(msg)]. *)
Definition with_status (msg : string) (s : State) : State :=
  set_console (fun c => c ++ [ConsoleLog msg]) (set_status (fun _ => msg) s).

(** ** What one file does to the page

    The state changes of the conversion paths, named after what they do. *)

(** after [URL.createObjectURL(b)] *)
Definition issued (b : Blob) (s : State) : State :=
  set_next_url N.succ (set_blob_store (insert (next_url s) b) s).

(** after an object URL for [b] was created and revoked again *)
Definition transient (b : Blob) (s : State) : State :=
  revoked (next_url s) (issued b s).

(** after [appendMessage(t)] *)
Definition logged (t : string) (s : State) : State :=
  set_output (fun o => o ++ [OutputLog t]) s.

(** after [addDownloadLink(originalName, blob, thumbDataUrl)] *)
Definition linked (originalName : string) (blob : Blob)
    (thumbDataUrl : option string) (s : State) : State :=
  let url := next_url s in
  let baseName := JsString.strip_extension originalName in
  let thumb :=
    match thumbDataUrl with
    | Some d => if truthy d then Some (d, baseName) else None
    | None => None
    end in
  set_output (fun o =>
      o ++ [OutputItem thumb (baseName +:+ ".jpg") url (baseName +:+ ".jpg")])
    (set_objectUrls (JsSet.add url) (issued blob s)).

(** The three ways the HEIC path ends. *)
Inductive heic_outcome (P : Platform) (f : File) (s : State) : Result unit * State -> Prop :=
| heic_decoder_rejects e :
    heicTo P f "image/jpeg" (9 # 10) = Throw e ->
    heic_outcome P f s (Throw e, logged ("(HEIC) Converting " +:+ name f +:+ "...") s)
| heic_thumbnail_fails jpeg e :
    heicTo P f "image/jpeg" (9 # 10) = Ok jpeg ->
    heic_outcome P f s
      (Throw e,
       transient jpeg (logged ("(HEIC) Converting " +:+ name f +:+ "...") s))
| heic_converted jpeg d :
    heicTo P f "image/jpeg" (9 # 10) = Ok jpeg ->
    heic_outcome P f s
      (Ok tt,
       linked (name f) jpeg (Some d)
         (transient jpeg (logged ("(HEIC) Converting " +:+ name f +:+ "...") s))).

(** The three ways the standard path ends: the image does not load; it
    loads and the thumbnail or the JPEG encoding fails; it converts. *)
Inductive standard_outcome (P : Platform) (f : File) (s : State) : Result unit * State -> Prop :=
| standard_load_fails :
    decodeImage P (blob_of_file f) = None ->
    standard_outcome P f s
      (Throw (new_Error "Failed to load image"),
       issued (blob_of_file f)
         (logged ("(Standard image) Reading " +:+ name f +:+ "...") s))
| standard_encode_fails img e :
    decodeImage P (blob_of_file f) = Some img ->
    standard_outcome P f s
      (Throw e,
       set_canvas (draw_on_canvas img)
         (transient (blob_of_file f)
            (logged ("(Standard image) Reading " +:+ name f +:+ "...") s)))
| standard_converted img jpeg t :
    decodeImage P (blob_of_file f) = Some img ->
    standard_outcome P f s
      (Ok tt,
       linked (name f) jpeg t
         (set_canvas (draw_on_canvas img)
            (transient (blob_of_file f)
               (logged ("(Standard image) Reading " +:+ name f +:+ "...") s)))).

(** after the [console.warn] of [safeIsHeic] *)
Definition warned (e : JsValue) (s : State) : State :=
  set_console (fun c => c ++ [ConsoleWarn "isHeic failed, treating as non-HEIC" e]) s.

(** after the [console.error] of the [catch] block of the loop *)
Definition caught (err : JsValue) (s : State) : State :=
  set_console (fun c => c ++ [ConsoleError err]) s.

(** after the [catch] block of the loop, when it has appended its line *)
Definition reported (f : File) (reason : string) (err : JsValue) (s : State) : State :=
  logged ("Error converting " +:+ name f +:+ ": " +:+ reason) (caught err s).

(** A value that the [catch] block of the loop can put into its line. *)
Definition reportable (e : JsValue) : Prop := exists reason, error_text e = Ok reason.

(** The values that a conversion path can throw on a platform: the two
    errors of the script, and what the HEIC decoder rejects with or
    [toDataURL] throws. *)
Definition thrown_by (P : Platform) (e : JsValue) : Prop :=
  e = new_Error "Failed to load image"
  \/ e = new_Error "Failed to create JPEG blob"
  \/ (exists f t q, heicTo P f t q = Throw e)
  \/ (exists c t q, toDataURL P c t q = Throw e).

(** A platform on which no conversion path throws [undefined] or
    [null]. *)
Definition reports_failures (P : Platform) : Prop :=
  forall e, thrown_by P e -> reportable e.

(** The state in which a file's conversion path starts: the state
    before the file, or that state after the warning of [safeIsHeic]. *)
Inductive routed (P : Platform) (f : File) (s : State) : State -> Prop :=
| routed_classified b : isHeic P f = Ok b -> routed P f s s
| routed_unclassified e : isHeic P f = Throw e -> routed P f s (warned e s).

(** ** Handlers that interleave

    What every handler guarantees of each of its uninterrupted runs, and
    what a suspended batch relies on for the state in which it resumes:
    URLs are issued in increasing order, and a URL enters the tracker set
    only when it is new. *)
Record guarantee (s s' : State) : Prop := {
  g_next : (next_url s <= next_url s')%N;
  g_tracked : forall v, v ∈ objectUrls s' ->
                v ∈ objectUrls s \/ (next_url s <= v)%N
}.

(** [safe Q s0 x]: the computation [x], whose current run started in
    state [s0], keeps the invariant and the guarantee at each of its
    suspensions and at its end, where [Q] holds, provided that it resumes
    in states that other handlers have left within the invariant and the
    guarantee. *)
Fixpoint safe {A} (Q : Result A -> State -> Prop) (s0 : State) (x : Step A) : Prop :=
  match x with
  | Finished r s => Inv s /\ guarantee s0 s /\ Q r s
  | Suspended s resume =>
      Inv s /\ guarantee s0 s /\
      forall s', Inv s' -> guarantee s s' -> safe Q s' (resume s')
  end.

Definition anything {A} : Result A -> State -> Prop := fun _ _ => True.

(** A suspended batch that is safe to resume in the states reachable
    from the page state [s]. *)
Definition safe_batch (s : State) (resume : State -> Step unit) : Prop :=
  exists s1, guarantee s1 s /\
    forall s', Inv s' -> guarantee s1 s' -> safe anything s' (resume s').

(** A URL that is older than the next one and not tracked; it stays so,
    whatever other handlers do. *)
Definition untracked (u : N) (s : State) : Prop :=
  (u < next_url s)%N /\ u ∉ objectUrls s.

(** The part of [processFiles] that runs before the first [await] of a
    batch with a supported file: set the status, revoke all, clear the
    output. *)
Definition batch_started (n : nat) (s : State) : State :=
  set_output (fun _ => [])
    (revoked_all (with_status ("Processing " +:+ pretty n +:+ " file(s)...") s)).

Record PageInv (pg : Page) : Prop := {
  page_inv : Inv (page pg);
  batches_safe : Forall (safe_batch (page pg)) (suspended pg)
}.


(** ** What a computation appends

    What one uninterrupted run does to [#output] and to the tracker set:
    it appends the nodes [l], and it registers the handles of the rows
    among them and no other. *)
Definition run_appends (s0 s : State) (l : list OutputNode) : Prop :=
  output s = output s0 ++ l
  /\ objectUrls s = fold_left (fun t u => JsSet.add u t) (hrefs l) (objectUrls s0).

(** [produces Q made s0 x]: the computation [x], whose current run
    started in state [s0] and whose earlier runs have appended the nodes
    [made], only appends in each of its runs, in whatever states it
    resumes; it ends, and [Q] holds of its result, of its last state and
    of all the nodes it has appended. *)
Fixpoint produces {A} (Q : Result A -> State -> list OutputNode -> Prop)
    (made : list OutputNode) (s0 : State) (x : Step A) : Prop :=
  match x with
  | Finished r s => exists l, run_appends s0 s l /\ Q r s (made ++ l)
  | Suspended s resume =>
      exists l, run_appends s0 s l /\
        forall s', produces Q (made ++ l) s' (resume s')
  end.

(** [always Q x]: in whatever states [x] resumes, it ends, with a result
    and in a state of which [Q] holds. *)
Fixpoint always {A} (Q : Result A -> State -> Prop) (x : Step A) : Prop :=
  match x with
  | Finished r s => Q r s
  | Suspended _ resume => forall s', always Q (resume s')
  end.

(** What a conversion path has appended for a file when it ends: the
    progress line [t], and the file's row when the path returns; what it
    throws is a value that a path can throw on the platform. *)
Definition path_made (P : Platform) (f : File) (t : string) (r : Result unit)
    (blk : list OutputNode) : Prop :=
  match r with
  | Ok _ =>
      exists thumb href,
        blk = [OutputLog t;
               OutputItem thumb (JsString.strip_extension (name f) +:+ ".jpg")
                 href (JsString.strip_extension (name f) +:+ ".jpg")]
  | Throw e => blk = [OutputLog t] /\ thrown_by P e
  end.

(** ** A concrete platform and batch

    A platform on which [.heic] names classify as HEIC, the classifier
    fails on [mystery.jpg], an empty blob does not decode and every other
    blob decodes to a 4032 x 3024 image.  A canvas without pixels has no
    blob ([toBlob] gives [null]) and the data URL [data:,], as in HTML.
    Numbers are rounded by [Binary64.nearest]. *)
Module Demo.

Definition platform : Platform := {|
  fl := Binary64.nearest;
  isHeic := fun f =>
    if JsString.endsWith (JsString.toLowerCase (name f)) ".heic" then Ok true
    else if String.eqb (name f) "mystery.jpg"
         then Throw (ThrownString "not a file")
         else Ok false;
  heicTo := fun f _ _ =>
    match contents f with
    | [] => Throw (ThrownString "HEIF image not found")
    | _ => Ok {| blob_type := "image/jpeg"; blob_bytes := contents f |}
    end;
  decodeImage := fun b =>
    match blob_bytes b with
    | [] => None
    | _ => Some {| naturalWidth := 4032; naturalHeight := 3024;
                   image_source := b |}
    end;
  toBlob := fun c _ _ =>
    if ((width c =? 0) || (height c =? 0))%N then None
    else Some {| blob_type := "image/jpeg"; blob_bytes := [width c; height c] |};
  toDataURL := fun c _ _ =>
    if ((width c =? 0) || (height c =? 0))%N then Ok "data:,"
    else Ok ("data:image/jpeg;" +:+ pretty (width c) +:+ "x" +:+ pretty (height c))
|}.

Definition photo : File :=
  {| name := "photo.HEIC"; type := ""; contents := [1%N] |}.
Definition logo : File :=
  {| name := "logo.png"; type := "image/png"; contents := [2%N] |}.
Definition notes : File :=
  {| name := "notes.txt"; type := "text/plain"; contents := [3%N] |}.
Definition broken : File :=
  {| name := "broken.png"; type := "image/png"; contents := [] |}.
Definition mystery : File :=
  {| name := "mystery.jpg"; type := "image/jpeg"; contents := [7%N] |}.

End Demo.

(** ** Download handles *)


(** ** Rows and failure lines *)

Definition is_row (n : OutputNode) : bool :=
  match n with OutputItem _ _ _ _ => true | OutputLog _ => false end.

(** The failure lines are the log lines written by the [catch] block. *)
Definition is_failure_line (n : OutputNode) : bool :=
  match n with
  | OutputLog t => JsString.startsWith t "Error converting "
  | OutputItem _ _ _ _ => false
  end.

Definition rows (out : list OutputNode) : nat := length (List.filter is_row out).

Definition failure_lines (out : list OutputNode) : nat :=
  length (List.filter is_failure_line out).

(** The first line that a conversion path writes for a file. *)
Definition progress_line (f : File) (t : string) : Prop :=
  t = "(HEIC) Converting " +:+ name f +:+ "..."
  \/ t = "(Standard image) Reading " +:+ name f +:+ "...".

(** What one supported file adds to [#output]: its progress line, then
    its row or its failure line. *)
Inductive file_block (f : File) : list OutputNode -> Prop :=
| block_row t thumb href :
    progress_line f t ->
    file_block f
      [OutputLog t;
       OutputItem thumb (JsString.strip_extension (name f) +:+ ".jpg") href
         (JsString.strip_extension (name f) +:+ ".jpg")]
| block_failure t reason :
    progress_line f t ->
    file_block f
      [OutputLog t;
       OutputLog ("Error converting " +:+ name f +:+ ": " +:+ reason)].

(** What the loop body has appended for a file when it ends: the file's
    block when it returns; the progress line alone when the [catch] block
    throws, which it does on a thrown value without text. *)
Definition body_made (P : Platform) (f : File) (r : Result unit)
    (blk : list OutputNode) : Prop :=
  match r with
  | Ok _ => file_block f blk
  | Throw raised =>
      exists t e,
        progress_line f t /\ blk = [OutputLog t]
        /\ thrown_by P e /\ error_text e = Throw raised
  end.


(** ** Binary64 arithmetic *)

(** The standard model of binary64 arithmetic, as far as the thumbnail
    arithmetic needs it: rounding to nearest is monotone, leaves the
    integers up to 2^53 alone, and on the normal range changes a value by
    at most the unit roundoff 2^-53, relatively. *)
Record binary64_rounding (fl : Q -> Q) : Prop := {
  fl_monotone : forall x y, (x <= y)%Q -> (fl x <= fl y)%Q;
  fl_integer : forall z, (Z.abs z <= 2 ^ 53)%Z -> (fl (inject_Z z) == inject_Z z)%Q;
  fl_relative : forall x,
    ((1 # 2 ^ 1022) <= Qabs x)%Q -> (Qabs x <= inject_Z (2 ^ 1023))%Q ->
    (Qabs (fl x - x) <= (1 # 2 ^ 53) * Qabs x)%Q
}.

(** ** Platforms with faults

    [Faulty.platform]: the HEIC decoder answers with a JPEG that the
    browser cannot load, and [canvas.toBlob] gives [null].
    [Faulty.sizeless]: every image loads with a natural width of 0 (an
    SVG image without a size of its own).
    [Faulty.rejecting]: the promise of the HEIC decoder rejects with
    [undefined]. *)
Module Faulty.

Definition platform : Platform := {|
  fl := Binary64.nearest;
  isHeic := isHeic Demo.platform;
  heicTo := fun _ _ _ => Ok {| blob_type := "image/jpeg"; blob_bytes := [] |};
  decodeImage := decodeImage Demo.platform;
  toBlob := fun _ _ _ => None;
  toDataURL := toDataURL Demo.platform
|}.

Definition sizeless : Platform := {|
  fl := Binary64.nearest;
  isHeic := isHeic Demo.platform;
  heicTo := heicTo Demo.platform;
  decodeImage := fun b =>
    Some {| naturalWidth := 0; naturalHeight := 600; image_source := b |};
  toBlob := toBlob Demo.platform;
  toDataURL := toDataURL Demo.platform
|}.

Definition rejecting : Platform := {|
  fl := Binary64.nearest;
  isHeic := isHeic Demo.platform;
  heicTo := fun _ _ _ => Throw Undefined;
  decodeImage := decodeImage Demo.platform;
  toBlob := toBlob Demo.platform;
  toDataURL := toDataURL Demo.platform
|}.

End Faulty.

(** ** The links of the page

    Every download link of the page points to a tracked handle. *)
Definition links_tracked (s : State) : Prop :=
  forall u, u ∈ hrefs (output s) -> u ∈ objectUrls s.

(** ** The listeners of the file input and of the drop zone

    The callers of [processFiles] (main.js 46-85).  The drop zone is the
    element [<div id="dropZone" class="drop-zone">] of the page. *)

(** [element.classList], a [DOMTokenList]: an ordered set of tokens. *)
Module ClassList.
Definition add (c : string) (l : list string) : list string :=
  if decide (c ∈ l) then l else l ++ [c].
Definition remove (c : string) (l : list string) : list string :=
  filter (fun x => x ≠ c) l.
End ClassList.

(** What a listener has done to its event: [e.preventDefault()] and
    [e.stopPropagation()]. *)
Record EventFlags := { defaultPrevented : bool; propagationStopped : bool }.

Definition untouched : EventFlags :=
  {| defaultPrevented := false; propagationStopped := false |}.
Definition cancelled : EventFlags :=
  {| defaultPrevented := true; propagationStopped := true |}.

Inductive DomEvent :=
| OnChange (files : option (list File))   (* "change"; [event.target.files] *)
| OnDragEnter
| OnDragOver
| OnDragLeave (inside : bool)             (* [dropZone.contains(e.relatedTarget)] *)
| OnDragEnd
| OnDrop (dataTransfer : option (option (list File)))
                                          (* [e.dataTransfer] and its [files] *)
| OnPage (e : Event).                     (* a click, a timeout, teardown, a promise *)

Record Document := {
  doc_page : Page;
  dropZone_classList : list string
}.

Definition initial_document : Document :=
  {| doc_page := initial_page; dropZone_classList := ["drop-zone"] |}.

Definition set_classList (f : list string -> list string) (d : Document) : Document :=
  {| doc_page := doc_page d; dropZone_classList := f (dropZone_classList d) |}.

(** [Array.from(files || [])] *)
Definition files_or_none (files : option (list File)) : list File :=
  match files with Some l => l | None => [] end.

Section Listeners.
Variable P : Platform.

(** The call [processFiles(files)] of a listener: the listener does not
    wait for the promise, the batch runs up to its first [await]. *)
Definition start_batch (files : list File) (d : Document) : Document :=
  {| doc_page := step P (doc_page d) (SelectFiles files);
     dropZone_classList := dropZone_classList d |}.

(* main.js 46-49 *)
Definition on_change (files : option (list File)) (d : Document)
    : EventFlags * Document :=
  (untouched, start_batch (files_or_none files) d).

(* main.js 52-58: one listener for "dragenter" and "dragover" *)
Definition on_dragenter_dragover (d : Document) : EventFlags * Document :=
  (cancelled, set_classList (ClassList.add "drag-over") d).

(* main.js 60-67 *)
Definition on_dragleave (inside : bool) (d : Document) : EventFlags * Document :=
  if negb inside
  then (cancelled, set_classList (ClassList.remove "drag-over") d)
  else (untouched, d).

(* main.js 69-73 *)
Definition on_dragend (d : Document) : EventFlags * Document :=
  (cancelled, set_classList (ClassList.remove "drag-over") d).

(* main.js 75-85 *)
Definition on_drop (dataTransfer : option (option (list File))) (d : Document)
    : EventFlags * Document :=
  let d := set_classList (ClassList.remove "drag-over") d in
  match dataTransfer with
  | None => (cancelled, d)
  | Some files => (cancelled, start_batch (files_or_none files) d)
  end.

Definition dispatch (d : Document) (e : DomEvent) : EventFlags * Document :=
  match e with
  | OnChange files => on_change files d
  | OnDragEnter | OnDragOver => on_dragenter_dragover d
  | OnDragLeave inside => on_dragleave inside d
  | OnDragEnd => on_dragend d
  | OnDrop dataTransfer => on_drop dataTransfer d
  | OnPage e =>
      (untouched,
       {| doc_page := step P (doc_page d) e;
          dropZone_classList := dropZone_classList d |})
  end.

Definition browse (events : list DomEvent) : Document :=
  fold_left (fun d e => snd (dispatch d e)) events initial_document.

End Listeners.

(** The events of the page that a DOM event amounts to: a change of the
    file input and a drop with a [dataTransfer] start a batch. *)
Definition page_events (e : DomEvent) : list Event :=
  match e with
  | OnChange files => [SelectFiles (files_or_none files)]
  | OnDrop (Some files) => [SelectFiles (files_or_none files)]
  | OnDrop None | OnDragEnter | OnDragOver | OnDragLeave _ | OnDragEnd => []
  | OnPage e => [e]
  end.

(** The drop zone is highlighted. *)
Definition highlighted (d : Document) : bool :=
  bool_decide ("drag-over" ∈ dropZone_classList d).

(** ** Revocations are for ever

    [each_run R s0 x]: every run of [x] between two suspensions, the
    current one having started in [s0], takes the page from a state to an
    [R]-related state, in whatever states [x] resumes. *)
Fixpoint each_run (R : State -> State -> Prop) {A} (s0 : State) (x : Step A) : Prop :=
  match x with
  | Finished _ s => R s0 s
  | Suspended s resume => R s0 s /\ forall s', each_run R s' (resume s')
  end.

(** The calls of [URL.revokeObjectURL] so far are not forgotten. *)
Definition keeps_revocations (s s' : State) : Prop :=
  revocations s `prefix_of` revocations s'.

(** * Lemmas and theorems *)

(** ** Strings *)

Example lower_HEIC : JsString.toLowerCase "IMG_01.HeIc" = "img_01.heic".
Proof. reflexivity. Qed.

Example ends_heic : JsString.endsWith "img_01.heic" ".heic" = true.
Proof. reflexivity. Qed.

Example ends_short : JsString.endsWith "eic" ".heic" = false.
Proof. reflexivity. Qed.

Example strip_two_dots : JsString.strip_extension "a.tar.gz" = "a.tar".
Proof. reflexivity. Qed.

Example strip_trailing_dot : JsString.strip_extension "photo." = "photo.".
Proof. reflexivity. Qed.

Example strip_hidden : JsString.strip_extension ".heic" = "".
Proof. reflexivity. Qed.

Section StringFacts.
Import JsString.

Lemma startsWith_spec (s p : string) :
  startsWith s p = true <-> exists rest, s = p +:+ rest.
Proof.
  unfold startsWith. revert s.
  induction p as [|c p IH]; intros s; simpl.
  - split; [intros _; now exists s | intros _; destruct s; reflexivity].
  - destruct s as [|d s].
    + split; [discriminate | intros [rest H]; discriminate].
    + simpl. destruct (ascii_dec c d) as [->|Hne].
      * rewrite IH. split; intros [rest H]; exists rest.
        -- now rewrite H.
        -- now injection H.
      * split; [discriminate |].
        intros [rest H]. injection H as H1 _. congruence.
Qed.



Lemma length_append (a b : string) :
  String.length (a +:+ b) = (String.length a + String.length b)%nat.
Proof. induction a; simpl; auto. Qed.







End StringFacts.

(** ** The input filter *)






(** ** Computations that run alone *)

Lemma complete_and_then {A B} (x : Step A) (k : A -> M B) :
  complete (and_then x k) =
  match complete x with
  | (Ok a, s) => complete (k a s)
  | (Throw e, s) => (Throw e, s)
  end.
Proof. induction x as [[a|e] s | s resume IH]; simpl; auto. Qed.

Lemma alone_bind {A B} (m : M A) (k : A -> M B) (s : State) :
  alone (bind m k) s =
  match alone m s with
  | (Ok a, s') => alone (k a) s'
  | (Throw e, s') => (Throw e, s')
  end.
Proof. apply complete_and_then. Qed.

Lemma alone_try_catch {A} (body : M A) (handler : JsValue -> M A) (s : State) :
  alone (try_catch body handler) s =
  match alone body s with
  | (Ok a, s') => (Ok a, s')
  | (Throw e, s') => alone (handler e) s'
  end.
Proof.
  unfold alone, try_catch.
  induction (body s) as [[a|e] s0 | s0 resume IH]; simpl; auto.
Qed.

Lemma alone_try_finally {A} (body : M A) (fin : M unit) (s : State) :
  alone (try_finally body fin) s =
  match alone body s with
  | (r, s') =>
      match alone fin s' with
      | (Ok _, s'') => (r, s'')
      | (Throw e, s'') => (Throw e, s'')
      end
  end.
Proof.
  unfold alone, try_finally.
  induction (body s) as [r s0 | s0 resume IH]; simpl; auto.
  rewrite complete_and_then. destruct (complete (fin s0)) as [[[]|e] s1]; reflexivity.
Qed.

Lemma alone_await {A} (m : M A) (s : State) : alone (await m) s = alone m s.
Proof.
  unfold alone, await.
  induction (m s) as [r s0 | s0 resume IH]; simpl; auto.
Qed.

Lemma alone_settle {A} (r : Result A) (s : State) : alone (settle r) s = (r, s).
Proof. reflexivity. Qed.

(** On a page without suspended batches, a batch whose promises settle
    before any other event runs alone. *)
Lemma settles_complete (P : Platform) (x : Step unit) :
  fold_left (step P) (settles (awaits x)) (enter x []) =
  {| page := snd (complete x); suspended := [] |}.
Proof.
  induction x as [r s | s resume IH]; [reflexivity|].
  cbn [awaits complete]. unfold settles. cbn [repeat fold_left step].
  fold (settles (awaits (resume s))). rewrite <- (IH s).
  replace (resume_batch 0 (enter (Suspended s resume) []))
    with (enter (resume s) []); [reflexivity|].
  unfold resume_batch. simpl. destruct (resume s); reflexivity.
Qed.

Lemma batch_alone_on_the_page (P : Platform) (files : list File) (s : State) :
  fold_left (step P)
    (SelectFiles files :: settles (awaits (processFiles P files s)))
    {| page := s; suspended := [] |} =
  {| page := after_batch P files s; suspended := [] |}.
Proof.
  apply (settles_complete P (processFiles P files s)).
Qed.

(** ** The lifecycle invariant and its basic steps *)

Lemma hrefs_app (a b : list OutputNode) : hrefs (a ++ b) = hrefs a ++ hrefs b.
Proof. unfold hrefs. apply flat_map_app. Qed.

Lemma elem_of_hrefs (out : list OutputNode) (u : N) :
  u ∈ hrefs out <-> exists t l d, OutputItem t l u d ∈ out.
Proof.
  induction out as [|n out IH]; simpl.
  - split; [intros H; inversion H | intros (t & l & d & H); inversion H].
  - rewrite elem_of_app, IH. split.
    + intros [H | (t & l & d & H)].
      * destruct n as [t l h d|]; simpl in H.
        -- apply list_elem_of_singleton in H as ->.
           exists t, l, d. constructor.
        -- inversion H.
      * exists t, l, d. now constructor.
    + intros (t & l & d & H). apply elem_of_cons in H as [<- | H].
      * left. simpl. constructor.
      * right. eauto.
Qed.

Lemma inv_tracked_old (s : State) (u : N) :
  Inv s -> u ∈ objectUrls s -> (u < next_url s)%N.
Proof. intros H Hu. apply (inv_store_old s H), (inv_live s H), Hu. Qed.

Lemma inv_next_untracked (s : State) : Inv s -> next_url s ∉ objectUrls s.
Proof. intros H Hu. apply (inv_tracked_old s _ H) in Hu. lia. Qed.

Lemma inv_next_unrevoked (s : State) : Inv s -> next_url s ∉ revocations s.
Proof. intros H Hu. apply (inv_revoked_old s H) in Hu. lia. Qed.

Lemma Inv_initial : Inv initial_state.
Proof.
  constructor; simpl; intros; try match goal with
    | H : _ ∈ [] |- _ => inversion H
    | H : is_Some (∅ !! _) |- _ => rewrite lookup_empty in H; destruct H; discriminate
    end.
  constructor.
Qed.

Lemma Inv_set_console f s : Inv s -> Inv (set_console f s).
Proof. intros []; constructor; auto. Qed.

Lemma Inv_set_status f s : Inv s -> Inv (set_status f s).
Proof. intros []; constructor; auto. Qed.

Lemma Inv_set_canvas f s : Inv s -> Inv (set_canvas f s).
Proof. intros []; constructor; auto. Qed.

Lemma Inv_set_downloads f s : Inv s -> Inv (set_downloads f s).
Proof. intros []; constructor; auto. Qed.

Lemma Inv_log t s : Inv s -> Inv (set_output (fun o => o ++ [OutputLog t]) s).
Proof.
  intros []; constructor; auto; simpl.
  intros u. rewrite hrefs_app. simpl. rewrite app_nil_r. auto.
Qed.

Lemma Inv_clear_output s : Inv s -> Inv (set_output (fun _ => []) s).
Proof.
  intros []; constructor; auto; simpl. intros u H. inversion H.
Qed.

Lemma Inv_issue b s :
  Inv s -> Inv (set_next_url N.succ (set_blob_store (insert (next_url s) b) s)).
Proof.
  intros H. pose proof H as []. constructor; simpl; auto.
  - intros u Hu. rewrite lookup_insert_ne; auto.
    intros <-. now apply (inv_next_untracked s).
  - intros u Hu. destruct (decide (next_url s = u)) as [<-|Hne]; [lia|].
    rewrite lookup_insert_ne in Hu; auto.
    apply inv_store_old0 in Hu. lia.
  - intros u Hu. apply inv_revoked_old0 in Hu. lia.
  - intros u Hu. apply inv_timers_old0 in Hu. lia.
  - intros u Hu. rewrite lookup_insert_ne; auto.
    intros <-. now apply (inv_next_unrevoked s).
Qed.

Lemma Inv_revoke u s :
  Inv s -> u ∉ objectUrls s -> (u < next_url s)%N ->
  Inv (set_revocations (fun l => l ++ [u]) (set_blob_store (delete u) s)).
Proof.
  intros [] Hu Hold. constructor; simpl; auto.
  - intros v Hv. rewrite lookup_delete_ne; auto. congruence.
  - intros v Hv. rewrite elem_of_app, list_elem_of_singleton.
    intros [H | ->]; [now apply (inv_unrevoked0 v) | contradiction].
  - intros v Hv. apply inv_store_old0.
    destruct (decide (u = v)) as [<-|Hne].
    + rewrite lookup_delete_eq in Hv. destruct Hv; discriminate.
    + now rewrite lookup_delete_ne in Hv.
  - intros v. rewrite elem_of_app, list_elem_of_singleton.
    intros [H | ->]; auto.
  - intros v Hv. rewrite elem_of_app. destruct (inv_links0 v Hv); auto.
  - intros v. rewrite elem_of_app, list_elem_of_singleton.
    intros [H | ->]; [|apply lookup_delete_eq].
    destruct (decide (u = v)) as [<-|Hne]; [apply lookup_delete_eq|].
    rewrite lookup_delete_ne; auto.
Qed.

Lemma Inv_register u s :
  Inv s -> is_Some (blob_store s !! u) -> u ∉ revocations s ->
  Inv (set_objectUrls (JsSet.add u) s).
Proof.
  intros [] Hlive Hrev. unfold JsSet.add.
  constructor; simpl; auto; destruct (decide (u ∈ objectUrls s)); auto.
  - intros v. rewrite elem_of_app, list_elem_of_singleton.
    intros [H | ->]; auto.
  - intros v. rewrite elem_of_app, list_elem_of_singleton.
    intros [H | ->]; auto.
  - intros v Hv. rewrite elem_of_app. destruct (inv_links0 v Hv); auto.
  - apply NoDup_app. repeat split; auto.
    + intros v Hv Hv'. apply list_elem_of_singleton in Hv' as ->. contradiction.
    + apply NoDup_singleton.
Qed.

Lemma Inv_item t l u d s :
  Inv s -> u ∈ objectUrls s ->
  Inv (set_output (fun o => o ++ [OutputItem t l u d]) s).
Proof.
  intros [] Hu. constructor; simpl; auto.
  intros v. rewrite hrefs_app, elem_of_app. simpl.
  rewrite list_elem_of_singleton. intros [H | ->]; auto.
Qed.

Lemma elem_of_JsSet_delete (u v : N) (l : list N) :
  v ∈ JsSet.delete u l <-> v ∈ l /\ v ≠ u.
Proof. unfold JsSet.delete. rewrite list_elem_of_filter. tauto. Qed.

(** The timeout callback: revoke, then forget. *)
Lemma Inv_revoke_later u s :
  Inv s -> (u < next_url s)%N ->
  Inv (set_objectUrls (JsSet.delete u)
         (set_revocations (fun l => l ++ [u]) (set_blob_store (delete u) s))).
Proof.
  intros [] Hold. constructor; simpl; auto.
  - intros v Hv. apply elem_of_JsSet_delete in Hv as [Hv Hne].
    rewrite lookup_delete_ne; auto.
  - intros v Hv. apply elem_of_JsSet_delete in Hv as [Hv Hne].
    rewrite elem_of_app, list_elem_of_singleton.
    intros [H | ->]; [now apply (inv_unrevoked0 v) | contradiction].
  - intros v Hv. apply inv_store_old0.
    destruct (decide (u = v)) as [<-|Hne].
    + rewrite lookup_delete_eq in Hv. destruct Hv; discriminate.
    + now rewrite lookup_delete_ne in Hv.
  - intros v. rewrite elem_of_app, list_elem_of_singleton.
    intros [H | ->]; auto.
  - intros v Hv. rewrite elem_of_app, list_elem_of_singleton, elem_of_JsSet_delete.
    destruct (decide (v = u)) as [->|Hne]; [auto|].
    destruct (inv_links0 v Hv); auto.
  - unfold JsSet.delete. now apply NoDup_filter.
  - intros v. rewrite elem_of_app, list_elem_of_singleton.
    intros [H | ->]; [|apply lookup_delete_eq].
    destruct (decide (u = v)) as [<-|Hne]; [apply lookup_delete_eq|].
    rewrite lookup_delete_ne; auto.
Qed.

Lemma Inv_set_timers f s :
  Inv s -> (forall u, u ∈ f (timers s) -> (u < next_url s)%N) ->
  Inv (set_timers f s).
Proof. intros [] Hf. constructor; auto. Qed.

Lemma for_of_revoke (l : list N) (s : State) :
  for_of l revokeObjectURL s =
  Finished (Ok tt) (fold_left (fun s u => revoked u s) l s).
Proof.
  revert s. induction l as [|u l IH]; intros s; [reflexivity|].
  simpl. unfold bind, revokeObjectURL at 1, modify. simpl. apply IH.
Qed.

Lemma revoked_all_fields (l : list N) (s : State) :
  let s' := fold_left (fun s u => revoked u s) l s in
  objectUrls s' = objectUrls s /\ next_url s' = next_url s
  /\ revocations s' = revocations s ++ l
  /\ timers s' = timers s /\ output s' = output s
  /\ downloads s' = downloads s /\ status s' = status s
  /\ console s' = console s /\ canvas s' = canvas s
  /\ forall v, blob_store s' !! v =
               if decide (v ∈ l) then None else blob_store s !! v.
Proof.
  revert s. induction l as [|u l IH]; intros s; simpl.
  - rewrite app_nil_r. repeat split; auto.
  - destruct (IH (revoked u s)) as (H1 & H2 & H3 & H4 & H5 & H6 & H7 & H8 & H9 & H10).
    simpl in *. rewrite H1, H2, H3, H4, H5, H6, H7, H8, H9.
    repeat split; auto.
    + now rewrite <- app_assoc.
    + intros v. rewrite H10.
      destruct (decide (v ∈ l)) as [Hl|Hl].
      * rewrite decide_True; [reflexivity | now constructor].
      * destruct (decide (v = u)) as [->|Hne].
        -- rewrite decide_True; [apply lookup_delete_eq | constructor].
        -- rewrite decide_False, lookup_delete_ne; auto.
           intros H. apply elem_of_cons in H as [? | ?]; contradiction.
Qed.

Lemma revokeAll_eq (s : State) : revokeAll s = Finished (Ok tt) (revoked_all s).
Proof.
  unfold revokeAll, bind, gets. simpl. rewrite for_of_revoke. reflexivity.
Qed.

Lemma Inv_revoked_all (s : State) : Inv s -> Inv (revoked_all s).
Proof.
  intros H. pose proof H as []. unfold revoked_all.
  destruct (revoked_all_fields (objectUrls s) s)
    as (H1 & H2 & H3 & H4 & H5 & H6 & H7 & H8 & H9 & H10).
  constructor; simpl.
  - intros u Hu. inversion Hu.
  - intros u Hu. inversion Hu.
  - intros u Hu. rewrite H10 in Hu. rewrite H2.
    destruct (decide (u ∈ objectUrls s)); [destruct Hu; discriminate | auto].
  - intros u. rewrite H3, H2, elem_of_app.
    intros [Hu | Hu]; [auto | now apply (inv_tracked_old s)].
  - intros u. rewrite H4, H2. auto.
  - intros u. rewrite H5, H3, elem_of_app. intros Hu.
    destruct (inv_links0 u Hu); auto.
  - constructor.
  - intros u. rewrite H3, H10, elem_of_app. intros [Hu | Hu].
    + destruct (decide (u ∈ objectUrls s)); auto.
    + now rewrite decide_True.
Qed.

(** ** What one file does to the page *)

Lemma addDownloadLink_eq (n : string) (b : Blob) (t : option string) (s : State) :
  addDownloadLink n b t s = Finished (Ok tt) (linked n b t s).
Proof. reflexivity. Qed.

Lemma lookup_issued (b : Blob) (s : State) :
  blob_store (issued b s) !! next_url s = Some b.
Proof. simpl. apply lookup_insert_eq. Qed.

Section FileEffects.
Variable P : Platform.

Lemma load_result_issued (b : Blob) (s : State) :
  load_result P (next_url s) (issued b s) =
  match decodeImage P b with
  | Some img => Ok img
  | None => Throw (new_Error "Failed to load image")
  end.
Proof. unfold load_result. now rewrite lookup_issued. Qed.

Lemma alone_loadImage (url : N) (s : State) :
  alone (loadImage P url) s = (load_result P url s, s).
Proof. reflexivity. Qed.

Lemma alone_createObjectURL (b : Blob) (s : State) :
  alone (createObjectURL b) s = (Ok (next_url s), issued b s).
Proof. reflexivity. Qed.

Lemma alone_appendMessage (t : string) (s : State) :
  alone (appendMessage t) s = (Ok tt, logged t s).
Proof. reflexivity. Qed.

Lemma alone_addDownloadLink (n : string) (b : Blob) (t : option string) (s : State) :
  alone (addDownloadLink n b t) s = (Ok tt, linked n b t s).
Proof. reflexivity. Qed.

(** The blob-based thumbnail always leaves the state in which its URL
    was created and revoked; the thumbnail itself is the platform's
    encoding of [tempCanvas]. *)
Lemma createThumbnailFromBlob_eq (b : Blob) (m : N) (s : State) :
  alone (createThumbnailFromBlob P b m) s =
  (match decodeImage P b with
   | Some img => toDataURL P (tempCanvas P img m) "image/jpeg" (7 # 10)
   | None => Throw (new_Error "Failed to load image")
   end, transient b s).
Proof.
  unfold createThumbnailFromBlob.
  rewrite alone_bind, alone_createObjectURL, alone_try_finally, alone_bind,
    alone_await, alone_loadImage, load_result_issued.
  destruct (decodeImage P b) as [img|]; [|reflexivity].
  unfold alone at 1, settle. cbn [complete].
  destruct (toDataURL P _ _ _); reflexivity.
Qed.

Lemma convertHeicFileToJpeg_outcome (f : File) (s : State) :
  heic_outcome P f s (alone (convertHeicFileToJpeg P f) s).
Proof.
  unfold convertHeicFileToJpeg.
  rewrite alone_bind, alone_appendMessage, alone_bind, alone_await, alone_settle.
  destruct (heicTo P f "image/jpeg" (9 # 10)) as [jpeg|e] eqn:Hd.
  - rewrite alone_bind, alone_await, createThumbnailFromBlob_eq.
    destruct (decodeImage P jpeg) as [img|].
    + destruct (toDataURL P _ _ _) as [d|e].
      * rewrite alone_addDownloadLink. now apply heic_converted.
      * now apply heic_thumbnail_fails.
    + now apply heic_thumbnail_fails.
  - now apply heic_decoder_rejects.
Qed.

Lemma convertImageFileToJpeg_outcome (f : File) (s : State) :
  standard_outcome P f s (alone (convertImageFileToJpeg P f) s).
Proof.
  unfold convertImageFileToJpeg.
  rewrite alone_bind, alone_appendMessage.
  set (s1 := logged _ s).
  rewrite alone_bind, alone_createObjectURL, alone_bind, alone_await,
    alone_loadImage, load_result_issued.
  destruct (decodeImage P (blob_of_file f)) as [img|] eqn:Hd.
  - rewrite alone_bind. unfold alone at 1, revokeObjectURL, modify.
    cbn [complete].
    fold (revoked (next_url s1) (issued (blob_of_file f) s1)).
    fold (transient (blob_of_file f) s1).
    rewrite alone_bind. unfold alone at 1, modify. cbn [complete].
    rewrite alone_bind. unfold alone at 1, gets. cbn [complete].
    rewrite alone_bind. unfold createThumbnailDataUrl.
    destruct (_ || _)%bool.
    + unfold alone at 1, ret. cbn [complete].
      rewrite alone_bind, alone_await. unfold canvasToJpegBlob.
      rewrite alone_settle.
      destruct (toBlob P _ _ _) as [jpeg|].
      * rewrite alone_addDownloadLink.
        now apply standard_converted with (img := img).
      * now apply standard_encode_fails with (img := img).
    + rewrite alone_bind. unfold alone at 1, settle. cbn [complete].
      destruct (toDataURL P _ _ _) as [d|e].
      * unfold alone at 1, ret. cbn [complete].
        rewrite alone_bind, alone_await. unfold canvasToJpegBlob.
      rewrite alone_settle.
        destruct (toBlob P _ _ _) as [jpeg|].
        -- rewrite alone_addDownloadLink.
           now apply standard_converted with (img := img).
        -- now apply standard_encode_fails with (img := img).
      * now apply standard_encode_fails with (img := img).
  - now apply standard_load_fails.
Qed.

End FileEffects.

Section Routing.
Variable P : Platform.

Lemma safeIsHeic_eq (f : File) (s : State) :
  alone (safeIsHeic P f) s =
  match isHeic P f with
  | Ok b => (Ok b, s)
  | Throw e => (Ok false, warned e s)
  end.
Proof.
  unfold safeIsHeic. rewrite alone_try_catch, alone_await, alone_settle.
  destruct (isHeic P f); reflexivity.
Qed.

Lemma convert_file_eq (f : File) (s : State) :
  alone (convert_file P f) s =
  match isHeic P f with
  | Ok true => alone (convertHeicFileToJpeg P f) s
  | Ok false => alone (convertImageFileToJpeg P f) s
  | Throw e => alone (convertImageFileToJpeg P f) (warned e s)
  end.
Proof.
  unfold convert_file. rewrite alone_bind, alone_await, safeIsHeic_eq.
  destruct (isHeic P f) as [[|]|e]; apply alone_await.
Qed.

Lemma process_file_eq (f : File) (s : State) :
  alone (process_file P f) s =
  match alone (convert_file P f) s with
  | (Ok _, s') => (Ok tt, s')
  | (Throw err, s') =>
      match error_text err with
      | Ok reason => (Ok tt, reported f reason err s')
      | Throw raised => (Throw raised, caught err s')
      end
  end.
Proof.
  unfold process_file. rewrite alone_try_catch.
  destruct (alone (convert_file P f) s) as [[[]|err] s']; [reflexivity|].
  unfold alone, bind, modify, settle, reported, logged, caught.
  destruct (error_text err); reflexivity.
Qed.

(** The [catch] block of the loop touches the console and [#output]
    only. *)
Lemma process_file_resources (f : File) (s : State) :
  let s1 := snd (alone (convert_file P f) s) in
  let s2 := snd (alone (process_file P f) s) in
  blob_store s2 = blob_store s1
  /\ objectUrls s2 = objectUrls s1
  /\ revocations s2 = revocations s1.
Proof.
  cbv zeta. rewrite process_file_eq.
  destruct (alone (convert_file P f) s) as [[[]|err] s'];
    [|destruct (error_text err)]; repeat split.
Qed.

(** The loop stops at the first file whose [catch] block throws. *)
Lemma alone_for_of {A} (l : list A) (body : A -> M unit) (s : State) :
  alone (for_of l body) s =
  match l with
  | [] => (Ok tt, s)
  | x :: rest =>
      match alone (body x) s with
      | (Ok _, s') => alone (for_of rest body) s'
      | (Throw e, s') => (Throw e, s')
      end
  end.
Proof.
  destruct l as [|x rest]; [reflexivity|].
  cbn [for_of]. rewrite alone_bind. reflexivity.
Qed.

Lemma convert_file_outcome (f : File) (s : State) :
  exists s0, routed P f s s0 /\
    (heic_outcome P f s0 (alone (convert_file P f) s)
     \/ standard_outcome P f s0 (alone (convert_file P f) s)).
Proof.
  rewrite convert_file_eq.
  destruct (isHeic P f) as [[|]|e] eqn:Hc.
  - exists s. split; [now apply routed_classified with (b := true)|].
    left. apply convertHeicFileToJpeg_outcome.
  - exists s. split; [now apply routed_classified with (b := false)|].
    right. apply convertImageFileToJpeg_outcome.
  - exists (warned e s). split; [now apply routed_unclassified|].
    right. apply convertImageFileToJpeg_outcome.
Qed.

Lemma alone_setStatus (msg : string) (s : State) :
  alone (setStatus msg) s = (Ok tt, with_status msg s).
Proof. reflexivity. Qed.

Lemma alone_revokeAll (s : State) : alone revokeAll s = (Ok tt, revoked_all s).
Proof. unfold alone. now rewrite revokeAll_eq. Qed.

(** A batch that runs alone: the status [Done.] is set when the loop has
    gone through every kept file. *)
Lemma processFiles_eq (files : list File) (s : State) :
  alone (processFiles P files) s =
  match files with
  | [] => (Ok tt, with_status "No files selected." s)
  | _ =>
      match List.filter supported files with
      | [] => (Ok tt, with_status "No supported image files found." s)
      | kept =>
          match alone (for_of kept (process_file P))
                  (set_output (fun _ => [])
                     (revoked_all
                        (with_status
                           ("Processing " +:+ pretty (length kept) +:+ " file(s)...")
                           s)))
          with
          | (Ok _, s') => (Ok tt, with_status "Done." s')
          | (Throw e, s') => (Throw e, s')
          end
      end
  end.
Proof.
  unfold processFiles. destruct files as [|f0 files]; [reflexivity|].
  destruct (List.filter supported (f0 :: files)) as [|k kept]; [reflexivity|].
  cbv zeta.
  rewrite alone_bind, alone_setStatus, alone_bind, alone_revokeAll, alone_bind.
  unfold alone at 1, modify. cbn [complete].
  rewrite alone_bind.
  destruct (alone (for_of (k :: kept) (process_file P)) _) as [[[]|e] s']; reflexivity.
Qed.

End Routing.

(** ** The input filter on some files *)

Example mixed_case_kept :
  supported {| name := "IMG_0001.HeIf"; type := ""; contents := [] |} = true.
Proof. reflexivity. Qed.

Example text_file_dropped :
  supported {| name := "notes.txt"; type := "text/plain"; contents := [] |} = false.
Proof. reflexivity. Qed.

Example heic_in_the_middle_dropped :
  supported {| name := "a.heic.txt"; type := ""; contents := [] |} = false.
Proof. reflexivity. Qed.

(** ** The invariant under the steps of a conversion *)

Lemma elem_of_JsSet_add (u v : N) (l : list N) :
  v ∈ JsSet.add u l <-> v ∈ l \/ v = u.
Proof.
  unfold JsSet.add. destruct (decide (u ∈ l)) as [Hu|Hu].
  - split; [auto | intros [H | ->]; auto].
  - now rewrite elem_of_app, list_elem_of_singleton.
Qed.

Lemma Inv_linked (n : string) (b : Blob) (t : option string) (s : State) :
  Inv s -> Inv (linked n b t s).
Proof.
  intros H. unfold linked. apply Inv_item.
  - apply Inv_register.
    + now apply Inv_issue.
    + rewrite lookup_issued. eauto.
    + unfold issued. simpl. now apply inv_next_unrevoked.
  - apply elem_of_JsSet_add. now right.
Qed.

Lemma Inv_caught (e : JsValue) (s : State) : Inv s -> Inv (caught e s).
Proof. intros H. now apply Inv_set_console. Qed.

Lemma Inv_reported (f : File) (reason : string) (e : JsValue) (s : State) :
  Inv s -> Inv (reported f reason e s).
Proof. intros H. now apply Inv_log, Inv_caught. Qed.

(** ** The invariant at every await *)

Lemma guarantee_refl (s : State) : guarantee s s.
Proof. constructor; [lia | auto]. Qed.

Lemma guarantee_trans (s1 s2 s3 : State) :
  guarantee s1 s2 -> guarantee s2 s3 -> guarantee s1 s3.
Proof.
  intros [N1 T1] [N2 T2]. constructor; [lia|].
  intros v Hv. destruct (T2 v Hv) as [H|H]; [auto | right; lia].
Qed.

(** A step that issues no URL and adds nothing to the tracker set. *)
Lemma guarantee_shrink (s s' : State) :
  next_url s' = next_url s ->
  (forall v, v ∈ objectUrls s' -> v ∈ objectUrls s) ->
  guarantee s s'.
Proof. intros Hn Ht. constructor; [lia | auto]. Qed.

Lemma guarantee_issued (b : Blob) (s : State) : guarantee s (issued b s).
Proof. constructor; simpl; [lia | auto]. Qed.

Lemma guarantee_linked n b t (s : State) : guarantee s (linked n b t s).
Proof.
  constructor; simpl; [lia|].
  intros v Hv. apply elem_of_JsSet_add in Hv as [Hv | ->]; [auto | right; lia].
Qed.

Lemma guarantee_revoked_all (s : State) : guarantee s (revoked_all s).
Proof.
  destruct (revoked_all_fields (objectUrls s) s) as (_ & H2 & _).
  apply guarantee_shrink; unfold revoked_all; simpl; [assumption|].
  intros v Hv. inversion Hv.
Qed.

Lemma untracked_stable (u : N) (s s' : State) :
  untracked u s -> guarantee s s' -> untracked u s'.
Proof.
  intros [Hu Ht] [Hn Hg]. split; [lia|].
  intros Hv. destruct (Hg u Hv) as [H|H]; [contradiction | lia].
Qed.

Lemma untracked_issued (b : Blob) (s : State) :
  Inv s -> untracked (next_url s) (issued b s).
Proof.
  intros H. split; simpl; [lia | now apply inv_next_untracked].
Qed.

Lemma Inv_revoked (u : N) (s : State) : Inv s -> untracked u s -> Inv (revoked u s).
Proof. intros H [Hu Ht]. now apply Inv_revoke. Qed.

Lemma guarantee_revoked (u : N) (s : State) : guarantee s (revoked u s).
Proof. now apply guarantee_shrink. Qed.

(** The run that is under way may have started earlier. *)
Lemma safe_start {A} (Q : Result A -> State -> Prop) (s0 s1 : State) (x : Step A) :
  guarantee s0 s1 -> safe Q s1 x -> safe Q s0 x.
Proof.
  intros G. destruct x as [r s | s resume]; simpl.
  - intros (HI & HG & HQ). eauto using guarantee_trans.
  - intros (HI & HG & HR). eauto using guarantee_trans.
Qed.

Lemma safe_and_then {A B} (Q : Result A -> State -> Prop)
    (Q' : Result B -> State -> Prop) (s0 : State) (x : Step A) (k : A -> M B) :
  safe Q s0 x ->
  (forall a s, Inv s -> Q (Ok a) s -> safe Q' s (k a s)) ->
  (forall e s, Q (Throw e) s -> Q' (Throw e) s) ->
  safe Q' s0 (and_then x k).
Proof.
  intros Hx Hk He. revert s0 Hx.
  induction x as [[a|e] s | s resume IH]; intros s0; simpl.
  - intros (HI & HG & HQ).
    apply (safe_start Q' s0 s); [assumption | now apply Hk].
  - intros (HI & HG & HQ). split; [|split]; auto.
  - intros (HI & HG & HR). split; [|split]; auto.
Qed.

Lemma safe_or_catch {A} (Q Q' : Result A -> State -> Prop) (s0 : State)
    (x : Step A) (handler : JsValue -> M A) :
  safe Q s0 x ->
  (forall a s, Q (Ok a) s -> Q' (Ok a) s) ->
  (forall e s, Inv s -> Q (Throw e) s -> safe Q' s (handler e s)) ->
  safe Q' s0 (or_catch x handler).
Proof.
  intros Hx Hk He. revert s0 Hx.
  induction x as [[a|e] s | s resume IH]; intros s0; simpl.
  - intros (HI & HG & HQ). split; [|split]; auto.
  - intros (HI & HG & HQ).
    apply (safe_start Q' s0 s); [assumption | now apply He].
  - intros (HI & HG & HR). split; [|split]; auto.
Qed.

Lemma safe_await {A} (s0 : State) (x : Step A) :
  safe anything s0 x -> safe anything s0 (and_await x).
Proof.
  revert s0. induction x as [r s | s resume IH]; intros s0; simpl.
  - intros (HI & HG & _). split; [assumption|]. split; [assumption|].
    intros s' HI' _. split; [assumption|]. split; [apply guarantee_refl | exact I].
  - intros (HI & HG & HR). split; [|split]; auto.
Qed.

Lemma safe_finished {A} (Q : Result A -> State -> Prop) (s0 s : State) (r : Result A) :
  Inv s -> guarantee s0 s -> Q r s -> safe Q s0 (Finished r s).
Proof. intros HI HG HQ. simpl. split; [assumption|]. split; assumption. Qed.

Section BatchSafety.
Variable P : Platform.

(** The canvas-based thumbnail is computed without an [await]. *)
Lemma createThumbnailDataUrl_finishes (c : Canvas) (m : N) (s : State) :
  exists r, createThumbnailDataUrl P c m s = Finished r s.
Proof.
  unfold createThumbnailDataUrl.
  destruct ((width c =? 0) || (height c =? 0))%N; [now eexists|].
  unfold bind, settle. cbn [and_then].
  destruct (toDataURL P _ _ _); now eexists.
Qed.

Lemma createThumbnailDataUrl_throws (c : Canvas) (m : N) (s : State) (e : JsValue) :
  createThumbnailDataUrl P c m s = Finished (Throw e) s -> thrown_by P e.
Proof.
  unfold createThumbnailDataUrl.
  destruct ((width c =? 0) || (height c =? 0))%N; [discriminate|].
  unfold bind, settle. cbn [and_then].
  destruct (toDataURL P _ _ _) as [d|e'] eqn:Hd; [discriminate|].
  intros [= <-]. right; right; right. eauto.
Qed.

Lemma safe_addDownloadLink (n : string) (b : Blob) (t : option string) (s : State) :
  Inv s -> safe anything s (addDownloadLink n b t s).
Proof.
  intros HI. rewrite addDownloadLink_eq. apply safe_finished.
  - now apply Inv_linked.
  - apply guarantee_linked.
  - exact I.
Qed.

Lemma safe_convertImageFileToJpeg (f : File) (s : State) :
  Inv s -> safe anything s (convertImageFileToJpeg P f s).
Proof.
  intros HI. unfold convertImageFileToJpeg.
  cbn [bind and_then appendMessage modify createObjectURL loadImage await safe].
  set (s1 := set_output _ s).
  assert (Inv s1) as HI1 by now apply Inv_log.
  assert (guarantee s s1) as G1 by now apply guarantee_shrink.
  set (s2 := set_next_url _ _).
  assert (Inv s2) as HI2 by now apply Inv_issue.
  assert (guarantee s1 s2) as G2 by apply guarantee_issued.
  assert (untracked (next_url s1) s2) as HU by now apply untracked_issued.
  split; [assumption|]. split; [eauto using guarantee_trans|].
  intros s' HI' G'.
  pose proof (untracked_stable _ _ _ HU G') as HU'.
  destruct (load_result P (next_url s1) s2) as [img|e].
  - cbn [bind and_then revokeObjectURL modify gets].
    fold (revoked (next_url s1) s').
    set (s3 := set_canvas _ _).
    assert (Inv s3) as HI3 by now apply Inv_set_canvas, Inv_revoked.
    assert (guarantee s' s3) as G3 by now apply guarantee_shrink.
    unfold bind at 1.
    destruct (createThumbnailDataUrl_finishes (canvas s3) 240 s3) as [[t|e] ->];
      cbn [and_then].
    + unfold bind, canvasToJpegBlob, await. cbn [and_then safe].
      split; [assumption|]. split; [assumption|].
      intros s'' HI'' G''.
      destruct (toBlob P _ _ _) as [jpeg|].
      * now apply safe_addDownloadLink.
      * apply safe_finished; [assumption | apply guarantee_refl | exact I].
    + now apply safe_finished.
  - apply safe_finished; [assumption | apply guarantee_refl | exact I].
Qed.

Lemma safe_createThumbnailFromBlob (b : Blob) (m : N) (s : State) :
  Inv s -> safe anything s (createThumbnailFromBlob P b m s).
Proof.
  intros HI. unfold createThumbnailFromBlob.
  cbn [bind and_then createObjectURL try_finally and_finally loadImage await safe].
  set (s2 := set_next_url _ _).
  assert (Inv s2) as HI2 by now apply Inv_issue.
  assert (guarantee s s2) as G2 by apply guarantee_issued.
  assert (untracked (next_url s) s2) as HU by now apply untracked_issued.
  split; [assumption|]. split; [assumption|].
  intros s' HI' G'.
  pose proof (untracked_stable _ _ _ HU G') as HU'.
  assert (Inv (revoked (next_url s) s')) as HI3 by now apply Inv_revoked.
  assert (guarantee s' (revoked (next_url s) s')) as G3 by apply guarantee_revoked.
  destruct (load_result P (next_url s) s2) as [img|e];
    cbn [and_then and_finally settle revokeObjectURL modify].
  - destruct (toDataURL P _ _ _); cbn [and_finally and_then];
      now apply safe_finished.
  - now apply safe_finished.
Qed.

Lemma safe_convertHeicFileToJpeg (f : File) (s : State) :
  Inv s -> safe anything s (convertHeicFileToJpeg P f s).
Proof.
  intros HI. unfold convertHeicFileToJpeg.
  cbn [bind and_then appendMessage modify await safe].
  set (s1 := set_output _ s).
  assert (Inv s1) as HI1 by now apply Inv_log.
  assert (guarantee s s1) as G1 by now apply guarantee_shrink.
  split; [assumption|]. split; [assumption|].
  intros s' HI' G'.
  destruct (heicTo P f "image/jpeg" (9 # 10)) as [jpeg|e]; cbn [and_then].
  - unfold bind at 1. apply (safe_and_then anything anything).
    + unfold await. now apply safe_await, safe_createThumbnailFromBlob.
    + intros d s'' HI'' _. now apply safe_addDownloadLink.
    + auto.
  - apply safe_finished; [assumption | apply guarantee_refl | exact I].
Qed.

Lemma safe_safeIsHeic (f : File) (s : State) :
  Inv s -> safe anything s (safeIsHeic P f s).
Proof.
  intros HI. unfold safeIsHeic, try_catch, await, settle.
  cbn [and_await or_catch safe].
  split; [assumption|]. split; [apply guarantee_refl|].
  intros s' HI' G'.
  destruct (isHeic P f) as [b|e]; cbn [or_catch bind and_then modify ret].
  - apply safe_finished; [assumption | apply guarantee_refl | exact I].
  - apply safe_finished;
      [now apply Inv_set_console | now apply guarantee_shrink | exact I].
Qed.

Lemma safe_convert_file (f : File) (s : State) :
  Inv s -> safe anything s (convert_file P f s).
Proof.
  intros HI. unfold convert_file. unfold bind at 1.
  apply (safe_and_then anything anything).
  - unfold await. now apply safe_await, safe_safeIsHeic.
  - intros [|] s' HI' _; unfold await; apply safe_await.
    + now apply safe_convertHeicFileToJpeg.
    + now apply safe_convertImageFileToJpeg.
  - auto.
Qed.

Lemma safe_process_file (f : File) (s : State) :
  Inv s -> safe anything s (process_file P f s).
Proof.
  intros HI. unfold process_file, try_catch.
  apply (safe_or_catch anything anything).
  - now apply safe_convert_file.
  - auto.
  - intros e s' HI' _. unfold bind, modify, settle. cbn [and_then].
    destruct (error_text e) as [reason|raised]; cbn [and_then appendMessage modify].
    + apply safe_finished.
      * now apply (Inv_reported f reason e s').
      * now apply guarantee_shrink.
      * exact I.
    + apply safe_finished.
      * now apply (Inv_caught e s').
      * now apply guarantee_shrink.
      * exact I.
Qed.

Lemma safe_for_of (files : list File) (s : State) :
  Inv s -> safe anything s (for_of files (process_file P) s).
Proof.
  revert s. induction files as [|f files IH]; intros s HI.
  - apply safe_finished; [assumption | apply guarantee_refl | exact I].
  - cbn [for_of]. unfold bind.
    apply (safe_and_then anything anything).
    + now apply safe_process_file.
    + intros _ s' HI' _. now apply IH.
    + auto.
Qed.

Lemma Inv_with_status (msg : string) (s : State) : Inv s -> Inv (with_status msg s).
Proof. intros H. now apply Inv_set_console, Inv_set_status. Qed.

Lemma guarantee_with_status (msg : string) (s : State) :
  guarantee s (with_status msg s).
Proof. now apply guarantee_shrink. Qed.

Lemma Inv_batch_started (n : nat) (s : State) : Inv s -> Inv (batch_started n s).
Proof.
  intros H. now apply Inv_clear_output, Inv_revoked_all, Inv_with_status.
Qed.

Lemma guarantee_batch_started (n : nat) (s : State) :
  guarantee s (batch_started n s).
Proof.
  apply (guarantee_trans _ (with_status ("Processing " +:+ pretty n +:+ " file(s)...") s));
    [apply guarantee_with_status|].
  apply (guarantee_trans _ (revoked_all (with_status ("Processing " +:+ pretty n +:+ " file(s)...") s)));
    [apply guarantee_revoked_all|].
  now apply guarantee_shrink.
Qed.

Lemma processFiles_started (files : list File) (s : State) :
  processFiles P files s =
  match files with
  | [] => Finished (Ok tt) (with_status "No files selected." s)
  | _ =>
      match List.filter supported files with
      | [] => Finished (Ok tt) (with_status "No supported image files found." s)
      | kept =>
          and_then (for_of kept (process_file P) (batch_started (length kept) s))
            (fun _ => setStatus "Done.")
      end
  end.
Proof.
  unfold processFiles. destruct files as [|f0 files]; [reflexivity|].
  destruct (List.filter supported (f0 :: files)) as [|k kept]; [reflexivity|].
  cbv zeta. unfold bind at 1. unfold setStatus at 1, modify. cbn [and_then].
  unfold bind at 1. rewrite revokeAll_eq. cbn [and_then].
  reflexivity.
Qed.

Lemma safe_processFiles (files : list File) (s : State) :
  Inv s -> safe anything s (processFiles P files s).
Proof.
  intros HI. rewrite processFiles_started.
  destruct files as [|f0 files].
  { apply safe_finished;
      [now apply Inv_with_status | apply guarantee_with_status | exact I]. }
  destruct (List.filter supported (f0 :: files)) as [|k kept].
  { apply safe_finished;
      [now apply Inv_with_status | apply guarantee_with_status | exact I]. }
  apply (safe_and_then anything anything).
  - apply (safe_start anything s (batch_started (length (k :: kept)) s)).
    + apply guarantee_batch_started.
    + apply safe_for_of. now apply Inv_batch_started.
  - intros _ s' HI' _. apply safe_finished;
      [now apply Inv_with_status | apply guarantee_with_status | exact I].
  - auto.
Qed.

End BatchSafety.

(** ** What a batch appends, whatever runs in between *)

Lemma run_appends_nothing (s0 s : State) :
  output s = output s0 -> objectUrls s = objectUrls s0 -> run_appends s0 s [].
Proof. intros Ho Ht. split; [now rewrite app_nil_r | exact Ht]. Qed.

Lemma run_appends_trans (s0 s1 s2 : State) (l1 l2 : list OutputNode) :
  run_appends s0 s1 l1 -> run_appends s1 s2 l2 -> run_appends s0 s2 (l1 ++ l2).
Proof.
  intros [Ho1 Ht1] [Ho2 Ht2]. split.
  - now rewrite Ho2, Ho1, app_assoc.
  - now rewrite Ht2, Ht1, hrefs_app, fold_left_app.
Qed.

Lemma produces_start {A} (Q : Result A -> State -> list OutputNode -> Prop)
    (made l0 : list OutputNode) (s0 s1 : State) (x : Step A) :
  run_appends s0 s1 l0 -> produces Q (made ++ l0) s1 x -> produces Q made s0 x.
Proof.
  intros H0. destruct x as [r s | s resume]; simpl; intros (l & Hl & H);
    exists (l0 ++ l); (split; [eauto using run_appends_trans|]);
    now rewrite app_assoc.
Qed.

Lemma produces_finished {A} (Q : Result A -> State -> list OutputNode -> Prop)
    (made l : list OutputNode) (s0 s : State) (r : Result A) :
  run_appends s0 s l -> Q r s (made ++ l) -> produces Q made s0 (Finished r s).
Proof. intros Hl HQ. exists l. split; assumption. Qed.

Lemma produces_weaken {A} (Q Q' : Result A -> State -> list OutputNode -> Prop)
    (made : list OutputNode) (s0 : State) (x : Step A) :
  (forall r s m, Q r s m -> Q' r s m) ->
  produces Q made s0 x -> produces Q' made s0 x.
Proof.
  intros HQ. revert made s0.
  induction x as [r s | s resume IH]; intros made s0; simpl;
    intros (l & Hl & H); exists l; (split; [assumption|]); auto.
Qed.

Lemma produces_and_then {A B} (Q : Result A -> State -> list OutputNode -> Prop)
    (Q' : Result B -> State -> list OutputNode -> Prop)
    (made : list OutputNode) (s0 : State) (x : Step A) (k : A -> M B) :
  produces Q made s0 x ->
  (forall a s m, Q (Ok a) s m -> produces Q' m s (k a s)) ->
  (forall e s m, Q (Throw e) s m -> Q' (Throw e) s m) ->
  produces Q' made s0 (and_then x k).
Proof.
  intros Hx Hk He. revert made s0 Hx.
  induction x as [[a|e] s | s resume IH]; intros made s0; simpl;
    intros (l & Hl & H).
  - apply (produces_start Q' made l s0 s); auto.
  - exists l. auto.
  - exists l. split; [assumption|]. intros s'. apply IH, H.
Qed.

Lemma produces_or_catch {A} (Q Q' : Result A -> State -> list OutputNode -> Prop)
    (made : list OutputNode) (s0 : State) (x : Step A) (handler : JsValue -> M A) :
  produces Q made s0 x ->
  (forall a s m, Q (Ok a) s m -> Q' (Ok a) s m) ->
  (forall e s m, Q (Throw e) s m -> produces Q' m s (handler e s)) ->
  produces Q' made s0 (or_catch x handler).
Proof.
  intros Hx Hk He. revert made s0 Hx.
  induction x as [[a|e] s | s resume IH]; intros made s0; simpl;
    intros (l & Hl & H).
  - exists l. auto.
  - apply (produces_start Q' made l s0 s); auto.
  - exists l. split; [assumption|]. intros s'. apply IH, H.
Qed.

(** The result of a computation, and what it has appended, are not
    touched by what runs while its caller waits for it. *)
Lemma produces_await {A} (Q : Result A -> list OutputNode -> Prop)
    (made : list OutputNode) (s0 : State) (m : M A) :
  produces (fun r _ => Q r) made s0 (m s0) ->
  produces (fun r _ => Q r) made s0 (await m s0).
Proof.
  unfold await. generalize (m s0) as x. intros x. revert made s0.
  induction x as [r s | s resume IH]; intros made s0; simpl;
    intros (l & Hl & H); exists l; (split; [assumption|]); intros s'.
  - exists []. split; [now apply run_appends_nothing | now rewrite app_nil_r].
  - apply IH, H.
Qed.

Lemma produces_always {A} (Q : Result A -> State -> list OutputNode -> Prop)
    (made : list OutputNode) (s0 : State) (x : Step A) :
  produces Q made s0 x -> always (fun r s => exists m, Q r s m) x.
Proof.
  revert made s0. induction x as [r s | s resume IH]; intros made s0; simpl;
    intros (l & Hl & H); eauto.
Qed.

Lemma always_weaken {A} (Q Q' : Result A -> State -> Prop) (x : Step A) :
  (forall r s, Q r s -> Q' r s) -> always Q x -> always Q' x.
Proof. intros HQ. induction x as [r s | s resume IH]; simpl; auto. Qed.

(** In a run that is not interrupted, the runs of a computation follow
    one another: what they append adds up. *)
Lemma produces_complete {A} (Q : Result A -> State -> list OutputNode -> Prop)
    (made : list OutputNode) (s0 : State) (x : Step A) :
  produces Q made s0 x ->
  exists l, run_appends s0 (snd (complete x)) l
            /\ Q (fst (complete x)) (snd (complete x)) (made ++ l).
Proof.
  revert made s0. induction x as [r s | s resume IH]; intros made s0; simpl;
    intros (l & Hl & H).
  - eauto.
  - destruct (IH s _ _ (H s)) as (l' & Hl' & HQ).
    exists (l ++ l'). split; [eauto using run_appends_trans|].
    now rewrite app_assoc.
Qed.

(** In a run that is not interrupted, [always] speaks of the completion. *)
Lemma always_alone {A} (Q : Result A -> State -> Prop) (x : Step A) :
  always Q x -> Q (fst (complete x)) (snd (complete x)).
Proof. induction x as [r s | s resume IH]; simpl; auto. Qed.

Section BatchProduct.
Variable P : Platform.

Lemma produces_addDownloadLink (n : string) (b : Blob) (t : option string)
    (made : list OutputNode) (s : State) :
  produces
    (fun r _ m =>
       r = Ok tt /\
       exists thumb href,
         m = made ++ [OutputItem thumb (JsString.strip_extension n +:+ ".jpg")
                        href (JsString.strip_extension n +:+ ".jpg")])
    made s (addDownloadLink n b t s).
Proof.
  rewrite addDownloadLink_eq. eapply produces_finished.
  - unfold run_appends, linked. cbn [output objectUrls set_output set_objectUrls].
    split; reflexivity.
  - split; [reflexivity|]. eauto.
Qed.

(** The blob-based thumbnail is suspended once, at the load of the
    image; whatever state it resumes in, it revokes its URL and ends. *)
Lemma createThumbnailFromBlob_step (b : Blob) (m : N) (s : State) :
  createThumbnailFromBlob P b m s =
  Suspended (issued b s)
    (fun s' =>
       Finished
         match decodeImage P b with
         | Some img => toDataURL P (tempCanvas P img m) "image/jpeg" (7 # 10)
         | None => Throw (new_Error "Failed to load image")
         end
         (revoked (next_url s) s')).
Proof.
  unfold createThumbnailFromBlob.
  cbn [bind and_then createObjectURL try_finally and_finally loadImage await
       and_await settle].
  fold (issued b s). rewrite load_result_issued.
  destruct (decodeImage P b) as [img|]; cbn [and_then and_finally settle].
  - destruct (toDataURL P _ _ _); reflexivity.
  - reflexivity.
Qed.

Lemma produces_createThumbnailFromBlob (b : Blob) (m : N)
    (made : list OutputNode) (s : State) :
  produces
    (fun r _ made' => made' = made /\ forall e, r = Throw e -> thrown_by P e)
    made s (createThumbnailFromBlob P b m s).
Proof.
  rewrite createThumbnailFromBlob_step. simpl.
  exists []. split; [now apply run_appends_nothing|].
  intros s'. exists []. split; [now apply run_appends_nothing|].
  split; [now rewrite !app_nil_r|].
  intros e He. destruct (decodeImage P b) as [img|].
  - right; right; right. eauto.
  - injection He as <-. now left.
Qed.

Lemma produces_convertHeicFileToJpeg (f : File) (made : list OutputNode) (s : State) :
  produces
    (fun r _ m => exists blk, m = made ++ blk /\
       path_made P f ("(HEIC) Converting " +:+ name f +:+ "...") r blk)
    made s (convertHeicFileToJpeg P f s).
Proof.
  unfold convertHeicFileToJpeg.
  cbn [bind and_then appendMessage modify await and_await settle produces].
  exists [OutputLog ("(HEIC) Converting " +:+ name f +:+ "...")].
  split; [split; reflexivity|].
  intros s'.
  destruct (heicTo P f "image/jpeg" (9 # 10)) as [jpeg|e] eqn:Hj; cbn [and_then].
  - unfold bind at 1.
    apply (produces_and_then
             (fun r _ m =>
                m = made ++ [OutputLog ("(HEIC) Converting " +:+ name f +:+ "...")]
                /\ forall e, r = Throw e -> thrown_by P e)).
    + apply (produces_await
               (fun r m =>
                  m = made ++ [OutputLog ("(HEIC) Converting " +:+ name f +:+ "...")]
                  /\ forall e, r = Throw e -> thrown_by P e)).
      apply produces_createThumbnailFromBlob.
    + intros d s'' m [-> _].
      eapply produces_weaken; [|apply produces_addDownloadLink].
      intros r _ m (-> & thumb & href & ->).
      eexists. split; [symmetry; apply app_assoc|].
      simpl. eauto.
    + intros e s'' m [-> He].
      exists [OutputLog ("(HEIC) Converting " +:+ name f +:+ "...")].
      split; [reflexivity|]. split; [reflexivity | now apply He].
  - apply (produces_finished _ _ []); [now apply run_appends_nothing|].
    rewrite app_nil_r. eexists. split; [reflexivity|].
    split; [reflexivity|]. right; right; left. eauto.
Qed.

Lemma produces_convertImageFileToJpeg (f : File) (made : list OutputNode) (s : State) :
  produces
    (fun r _ m => exists blk, m = made ++ blk /\
       path_made P f ("(Standard image) Reading " +:+ name f +:+ "...") r blk)
    made s (convertImageFileToJpeg P f s).
Proof.
  unfold convertImageFileToJpeg.
  cbn [bind and_then appendMessage modify createObjectURL loadImage await
       and_await settle produces].
  exists [OutputLog ("(Standard image) Reading " +:+ name f +:+ "...")].
  split; [split; reflexivity|].
  intros s'.
  match goal with |- context [load_result P ?u ?s2] =>
    destruct (load_result P u s2) as [img|e] eqn:Hl end.
  - cbn [bind and_then revokeObjectURL modify gets].
    set (s3 := set_canvas _ _).
    assert (run_appends s' s3 []) as H3 by now apply run_appends_nothing.
    unfold bind at 1.
    destruct (createThumbnailDataUrl_finishes P (canvas s3) 240 s3) as [[t|e] Ht].
    + rewrite Ht. cbn [and_then].
      unfold bind, canvasToJpegBlob, await, settle. cbn [and_await and_then produces].
      exists []. split; [assumption|].
      intros s''. rewrite app_nil_r.
      destruct (toBlob P _ _ _) as [jpeg|].
      * eapply produces_weaken; [|apply produces_addDownloadLink].
        intros r _ m (-> & thumb & href & ->).
        eexists. split; [symmetry; apply app_assoc|].
        simpl. eauto.
      * apply (produces_finished _ _ []); [now apply run_appends_nothing|].
        rewrite app_nil_r. eexists. split; [reflexivity|].
        split; [reflexivity|]. right; now left.
    + pose proof (createThumbnailDataUrl_throws P _ _ _ _ Ht) as He.
      rewrite Ht. cbn [and_then].
      apply (produces_finished _ _ []); [assumption|].
      rewrite app_nil_r. eexists. split; [reflexivity|]. split; [reflexivity | exact He].
  - apply (produces_finished _ _ []); [now apply run_appends_nothing|].
    rewrite app_nil_r. eexists. split; [reflexivity|].
    split; [reflexivity|].
    left. revert Hl. unfold load_result.
    match goal with |- match ?x with _ => _ end = _ -> _ =>
      destruct x as [b|]; [destruct (decodeImage P b)|]; congruence end.
Qed.

(** The classifier wrapper is suspended once and never throws. *)
Lemma safeIsHeic_step (f : File) (s : State) :
  safeIsHeic P f s =
  Suspended s
    (fun s' =>
       match isHeic P f with
       | Ok b => Finished (Ok b) s'
       | Throw e => Finished (Ok false) (warned e s')
       end).
Proof.
  unfold safeIsHeic, try_catch, await, settle. cbn [and_await or_catch].
  destruct (isHeic P f); reflexivity.
Qed.

Lemma produces_safeIsHeic (f : File) (made : list OutputNode) (s : State) :
  produces (fun r _ m => (exists b, r = Ok b) /\ m = made) made s (safeIsHeic P f s).
Proof.
  rewrite safeIsHeic_step. simpl.
  exists []. split; [now apply run_appends_nothing|].
  intros s'. rewrite app_nil_r.
  destruct (isHeic P f) as [b|e];
    (apply (produces_finished _ _ []); [now apply run_appends_nothing|]);
    rewrite app_nil_r; eauto.
Qed.

Lemma produces_convert_file (f : File) (made : list OutputNode) (s : State) :
  produces
    (fun r _ m => exists t blk,
       progress_line f t /\ m = made ++ blk /\ path_made P f t r blk)
    made s (convert_file P f s).
Proof.
  unfold convert_file. unfold bind at 1.
  apply (produces_and_then (fun r _ m => (exists b, r = Ok b) /\ m = made)).
  - apply (produces_await (fun r m => (exists b, r = Ok b) /\ m = made)).
    apply produces_safeIsHeic.
  - intros [|] s' m [_ ->].
    + apply (produces_await (fun r m => exists t blk,
               progress_line f t /\ m = made ++ blk /\ path_made P f t r blk)).
      eapply produces_weaken; [|apply produces_convertHeicFileToJpeg].
      intros r _ m (blk & -> & Hb). do 2 eexists.
      split; [left; reflexivity|]. split; [reflexivity | exact Hb].
    + apply (produces_await (fun r m => exists t blk,
               progress_line f t /\ m = made ++ blk /\ path_made P f t r blk)).
      eapply produces_weaken; [|apply produces_convertImageFileToJpeg].
      intros r _ m (blk & -> & Hb). do 2 eexists.
      split; [right; reflexivity|]. split; [reflexivity | exact Hb].
  - intros e s' m [[b Hb] _]. discriminate.
Qed.

(** The loop body: it appends the file's block and returns, or the
    [catch] block throws after the progress line. *)
Lemma produces_loop_body (f : File) (made : list OutputNode) (s : State) :
  produces
    (fun r _ m => exists blk, m = made ++ blk /\ body_made P f r blk)
    made s (process_file P f s).
Proof.
  unfold process_file, try_catch.
  eapply produces_or_catch; [apply produces_convert_file | |].
  - intros [] s' m (t & blk & Ht & -> & thumb & href & ->).
    eexists. split; [reflexivity|]. now constructor.
  - intros e s' m (t & blk & Ht & -> & -> & He).
    unfold bind, modify, settle. cbn [and_then].
    destruct (error_text e) as [reason|raised] eqn:Hr;
      cbn [and_then appendMessage modify].
    + eapply produces_finished.
      * unfold run_appends. cbn [output objectUrls set_output set_console].
        split; reflexivity.
      * exists [OutputLog t;
                OutputLog ("Error converting " +:+ name f +:+ ": " +:+ reason)].
        split; [now rewrite <- app_assoc|]. now constructor.
    + apply (produces_finished _ _ []).
      * now apply run_appends_nothing.
      * rewrite app_nil_r. exists [OutputLog t]. split; [reflexivity|].
        simpl. eauto 6.
Qed.



Section Reporting.
Hypothesis reports : reports_failures P.

Lemma produces_process_file (f : File) (made : list OutputNode) (s : State) :
  produces
    (fun r _ m => r = Ok tt /\ exists blk, file_block f blk /\ m = made ++ blk)
    made s (process_file P f s).
Proof.
  eapply produces_weaken; [|apply produces_loop_body].
  intros [[]|raised] _ m (blk & -> & Hb); simpl in Hb.
  - split; [reflexivity|]. eauto.
  - destruct Hb as (t & e & _ & _ & He & Hr).
    destruct (reports e He) as [reason Hreason]. congruence.
Qed.

Lemma produces_for_of (files : list File) (made : list OutputNode) (s : State) :
  produces
    (fun r _ m => r = Ok tt /\
       exists blks, Forall2 file_block files blks /\ m = made ++ concat blks)
    made s (for_of files (process_file P) s).
Proof.
  revert made s. induction files as [|f files IH]; intros made s.
  - apply (produces_finished _ _ []); [now apply run_appends_nothing|].
    split; [reflexivity|]. exists []. split; [constructor | reflexivity].
  - cbn [for_of]. unfold bind.
    eapply produces_and_then; [apply produces_process_file | |].
    + intros _ s' m (_ & blk & Hb & ->).
      eapply produces_weaken; [|apply IH].
      intros r _ m (-> & blks & Hbs & ->).
      split; [reflexivity|]. exists (blk :: blks).
      split; [now constructor|]. simpl. now rewrite app_assoc.
    + intros e s' m [He _]. discriminate.
Qed.

(** A batch with a supported file: once the output is cleared, the
    batch appends one block for each supported file, in order, and its
    last act is to set the status to "Done.". *)
Lemma produces_processFiles (files : list File) (s : State) :
  let kept := List.filter supported files in
  kept <> [] ->
  produces
    (fun r s' m => r = Ok tt /\ status s' = "Done." /\
       exists blks, Forall2 file_block kept blks /\ m = concat blks)
    [] (batch_started (length kept) s) (processFiles P files s).
Proof.
  intros kept Hk. rewrite processFiles_started.
  destruct files as [|f0 files]; [now contradiction Hk|].
  fold kept. destruct kept as [|k kept'] eqn:E; [now contradiction Hk|].
  eapply produces_and_then; [apply produces_for_of | |].
  - intros _ s' m (_ & blks & Hb & ->).
    apply (produces_finished _ _ []).
    + now apply run_appends_nothing.
    + rewrite app_nil_r. split; [reflexivity|]. split; [reflexivity|]. eauto.
  - intros e s' m [He _]. discriminate.
Qed.

(** A batch ends normally, whatever runs while it is suspended; with a
    supported file its last status is "Done.". *)
Lemma always_processFiles (files : list File) (s : State) :
  always
    (fun r s' => r = Ok tt /\ (List.filter supported files <> [] -> status s' = "Done."))
    (processFiles P files s).
Proof.
  destruct (List.filter supported files) as [|k kept] eqn:E.
  - rewrite processFiles_started, E.
    destruct files; simpl; (split; [reflexivity | congruence]).
  - assert (List.filter supported files <> []) as Hk by congruence.
    pose proof (produces_processFiles files s Hk) as H.
    apply produces_always in H. revert H. apply always_weaken.
    intros r s' (m & -> & Hs & _). split; [reflexivity | auto].
Qed.

End Reporting.

End BatchProduct.

(** ** The files that a batch converts (C3) *)



Example filter_on_a_mixed_batch :
  let files := [Demo.notes; Demo.photo; Demo.logo] in
  let s := snd (alone (processFiles Demo.platform files) initial_state) in
  List.filter supported files = [Demo.photo; Demo.logo]
  /\ output s =
     [OutputLog "(HEIC) Converting photo.HEIC...";
      OutputItem (Some ("data:image/jpeg;240x180", "photo")) "photo.jpg" 1%N "photo.jpg";
      OutputLog "(Standard image) Reading logo.png...";
      OutputItem (Some ("data:image/jpeg;240x180", "logo")) "logo.jpg" 3%N "logo.jpg"].
Proof. vm_compute. split; reflexivity. Qed.

(** ** Download handles (C2) *)

(** The scenario of the specification: [notes.txt] is dropped,
    [photo.HEIC] takes the HEIC path, [logo.png] the standard path. *)
Example scenario_three_files :
  let s := after_batch Demo.platform [Demo.photo; Demo.logo; Demo.notes]
             initial_state in
  output s =
    [OutputLog "(HEIC) Converting photo.HEIC...";
     OutputItem (Some ("data:image/jpeg;240x180", "photo")) "photo.jpg" 1%N "photo.jpg";
     OutputLog "(Standard image) Reading logo.png...";
     OutputItem (Some ("data:image/jpeg;240x180", "logo")) "logo.jpg" 3%N "logo.jpg"]
  /\ status s = "Done." /\ objectUrls s = [1%N; 3%N]
  /\ revocations s = [0%N; 2%N].
Proof. vm_compute. repeat split. Qed.


(** A download that is activated while the next file of the batch is
    being converted: its timeout takes the handle out of the tracker set
    before the batch is done. *)
Example download_during_a_batch :
  let pg := run Demo.platform
              (SelectFiles [Demo.logo; Demo.photo] ::
               settles 4 ++                      (* logo.png has its row *)
               [ClickDownload 1; Settles 0; TimerFires 0] ++
               settles 6) in
  objectUrls (page pg) = [3%N] /\ revocations (page pg) = [0%N; 1%N; 2%N]
  /\ status (page pg) = "Done." /\ length (suspended pg) = 0%nat.
Proof. vm_compute. repeat split. Qed.

Section Lifecycle.
Variable P : Platform.

Lemma safe_batch_later (s s' : State) (resume : State -> Step unit) :
  guarantee s s' -> safe_batch s resume -> safe_batch s' resume.
Proof.
  intros G (s1 & G1 & H). exists s1.
  split; [now apply (guarantee_trans s1 s s') | assumption].
Qed.


Lemma PageInv_enter (pg : Page) (x : Step unit) :
  PageInv pg -> safe anything (page pg) x -> PageInv (enter x (suspended pg)).
Proof.
  intros [HI HB] Hx. destruct x as [r s | s resume]; simpl in Hx;
    destruct Hx as (HI' & HG & HR); constructor; simpl; try assumption.
  - eapply Forall_impl; [exact HB|].
    intros c Hc. now apply (safe_batch_later (page pg)).
  - apply Forall_app. split.
    + eapply Forall_impl; [exact HB|].
      intros c Hc. now apply (safe_batch_later (page pg)).
    + constructor; [|constructor].
      exists s. split; [apply guarantee_refl | exact HR].
Qed.

Lemma PageInv_resume (j : nat) (pg : Page) :
  PageInv pg -> PageInv (resume_batch j pg).
Proof.
  intros [HI HB]. unfold resume_batch.
  destruct (suspended pg !! j) as [resume|] eqn:Hj; [|now constructor].
  assert (safe_batch (page pg) resume) as (s1 & G1 & H)
    by (eapply Forall_lookup_1; eauto).
  specialize (H (page pg) HI G1).
  destruct (resume (page pg)) as [r s | s resume']; simpl in H;
    destruct H as (HI' & HG & HR); constructor; simpl; try assumption.
  - apply Forall_delete. eapply Forall_impl; [exact HB|].
    intros c Hc. now apply (safe_batch_later (page pg)).
  - apply Forall_insert.
    + eapply Forall_impl; [exact HB|].
      intros c Hc. now apply (safe_batch_later (page pg)).
    + exists s. split; [apply guarantee_refl | exact HR].
Qed.

Lemma click_eq (i : nat) (s : State) :
  click i s =
  Finished (Ok tt)
    match output s !! i with
    | Some (OutputItem _ _ href _) =>
        set_downloads (fun d => d ++ [(href, blob_store s !! href)])
          (set_timers (fun t => t ++ [href]) s)
    | _ => s
    end.
Proof.
  unfold click, bind, gets. cbn [and_then].
  destruct (output s !! i) as [[t l href d|]|]; reflexivity.
Qed.

Lemma fire_eq (k : nat) (s : State) :
  fire k s =
  Finished (Ok tt)
    match timers s !! k with
    | Some u =>
        set_objectUrls (JsSet.delete u)
          (revoked u (set_timers (fun t => take k t ++ drop (S k) t) s))
    | None => s
    end.
Proof.
  unfold fire, bind, gets. cbn [and_then].
  destruct (timers s !! k) as [u|]; reflexivity.
Qed.

Lemma safe_click (i : nat) (s : State) : Inv s -> safe anything s (click i s).
Proof.
  intros H. rewrite click_eq.
  destruct (output s !! i) as [[t l href d|]|] eqn:Hi;
    try (apply safe_finished; [assumption | apply guarantee_refl | exact I]).
  apply safe_finished; [| now apply guarantee_shrink | exact I].
  apply Inv_set_downloads, Inv_set_timers; auto.
  intros u. rewrite elem_of_app, list_elem_of_singleton.
  intros [Hu | ->]; [now apply (inv_timers_old s)|].
  assert (href ∈ hrefs (output s)) as Hh.
  { apply elem_of_hrefs. exists t, l, d.
    apply list_elem_of_lookup. eauto. }
  destruct (inv_links s H href Hh) as [Ht|Hr].
  - now apply inv_tracked_old.
  - now apply (inv_revoked_old s).
Qed.

Lemma safe_fire (k : nat) (s : State) : Inv s -> safe anything s (fire k s).
Proof.
  intros H. rewrite fire_eq.
  destruct (timers s !! k) as [u|] eqn:Hk;
    [|apply safe_finished; [assumption | apply guarantee_refl | exact I]].
  assert (u < next_url s)%N as Hu.
  { apply (inv_timers_old s H), list_elem_of_lookup. eauto. }
  apply safe_finished; [| | exact I].
  - apply Inv_revoke_later; [|assumption].
    apply Inv_set_timers; auto.
    intros v Hv. apply (inv_timers_old s H).
    apply elem_of_app in Hv as [Hv|Hv].
    + now apply (subseteq_take k (timers s)).
    + now apply (subseteq_drop (S k) (timers s)).
  - apply guarantee_shrink; [reflexivity|].
    intros v Hv. simpl in Hv. now apply elem_of_JsSet_delete in Hv as [Hv _].
Qed.

Lemma safe_revokeAll (s : State) : Inv s -> safe anything s (revokeAll s).
Proof.
  intros H. rewrite revokeAll_eq. apply safe_finished;
    [now apply Inv_revoked_all | apply guarantee_revoked_all | exact I].
Qed.

Lemma safe_handle (e : Event) (s : State) :
  Inv s -> safe anything s (handle P e s).
Proof.
  intros H. destruct e as [files|i|k| |j]; simpl.
  - now apply safe_processFiles.
  - now apply safe_click.
  - now apply safe_fire.
  - now apply safe_revokeAll.
  - apply safe_finished; [assumption | apply guarantee_refl | exact I].
Qed.

Lemma PageInv_step (pg : Page) (e : Event) : PageInv pg -> PageInv (step P pg e).
Proof.
  intros H. destruct e as [files|i|k| |j];
    try (apply PageInv_enter; [assumption | apply safe_handle, H]).
  now apply PageInv_resume.
Qed.

Lemma run_snoc (events : list Event) (e : Event) :
  run P (events ++ [e]) = step P (run P events) e.
Proof. unfold run. now rewrite fold_left_app. Qed.

Lemma PageInv_run (events : list Event) : PageInv (run P events).
Proof.
  induction events as [|e events IH] using rev_ind.
  - constructor; [apply Inv_initial | constructor].
  - rewrite run_snoc. now apply PageInv_step.
Qed.



End Lifecycle.



(** ** The tracker set (C8) *)

(** C8.  [revokeAll] returns without an [await] and without an error,
    and leaves the tracker set empty; after a handle is registered
    ([objectUrls.add]) and then revoked (the timeout callback:
    [URL.revokeObjectURL] and [objectUrls.delete]) the set does not
    contain it; a second [revokeAll] in a row returns normally and changes
    nothing at all. *)
Theorem tracker_set_laws (s : State) (u : N) :
  (revokeAll s = Finished (Ok tt) (revoked_all s) /\ objectUrls (revoked_all s) = [])
  /\ (u ∉ objectUrls
           (snd (alone (revoke_later u)
                   (snd (alone (modify (set_objectUrls (JsSet.add u))) s)))))
  /\ revokeAll (revoked_all s) = Finished (Ok tt) (revoked_all s).
Proof.
  split; [split|split].
  - apply revokeAll_eq.
  - reflexivity.
  - simpl. rewrite elem_of_JsSet_delete. tauto.
  - now rewrite revokeAll_eq.
Qed.

Example revokeAll_twice :
  let s := after_batch Demo.platform [Demo.photo; Demo.logo] initial_state in
  objectUrls s = [1%N; 3%N]
  /\ revocations (revoked_all s) = [0%N; 2%N; 1%N; 3%N]
  /\ revocations (revoked_all (revoked_all s)) = [0%N; 2%N; 1%N; 3%N].
Proof. vm_compute. repeat split. Qed.

(** ** Transient URLs of the two paths (C9, C1) *)

(** C9.  [createThumbnailFromBlob] creates its object URL and is
    suspended once, at the load of the image.  In whatever state it
    resumes, and whatever it ends with -- the data URL, the load error of
    the image or the error of the encoder -- its last act is to revoke
    that URL: when the call ends the URL resolves to nothing, the
    revocation is the newest one, and every other URL resolves as it did
    when the call resumed.  In a run that nothing interrupts, the call
    leaves the state in which its URL was created and revoked. *)
Theorem createThumbnailFromBlob_releases_its_url
    (P : Platform) (blob : Blob) (maxWidth : N) (s : State) :
  let url := next_url s in
  let r := match decodeImage P blob with
           | Some img => toDataURL P (tempCanvas P img maxWidth) "image/jpeg" (7 # 10)
           | None => Throw (new_Error "Failed to load image")
           end in
  createObjectURL blob s = Finished (Ok url) (issued blob s)
  /\ createThumbnailFromBlob P blob maxWidth s =
     Suspended (issued blob s) (fun s' => Finished r (revoked url s'))
  /\ (forall s',
        blob_store (revoked url s') !! url = None
        /\ revocations (revoked url s') = revocations s' ++ [url]
        /\ (forall v, v ≠ url ->
              blob_store (revoked url s') !! v = blob_store s' !! v))
  /\ alone (createThumbnailFromBlob P blob maxWidth) s = (r, transient blob s).
Proof.
  intros url r. split; [reflexivity|].
  split; [apply createThumbnailFromBlob_step|].
  split; [|apply createThumbnailFromBlob_eq].
  intros s'. split; [|split].
  - simpl. apply lookup_delete_eq.
  - reflexivity.
  - intros v Hv. simpl. now rewrite lookup_delete_ne.
Qed.

Lemma createThumbnailFromBlob_witness :
  let s := initial_state in
  let r := alone (createThumbnailFromBlob Demo.platform (blob_of_file Demo.broken) 240) s in
  fst r = Throw (new_Error "Failed to load image")
  /\ blob_store (snd r) !! 0%N = None
  /\ revocations (snd r) = [0%N].
Proof.
  pose proof (createThumbnailFromBlob_releases_its_url Demo.platform
                (blob_of_file Demo.broken) 240 initial_state)
    as (_ & _ & _ & H4).
  cbv zeta. rewrite H4. repeat split.
Defined.

(** The standard path creates its URL the same way, but revokes it in
    the statement after [await loadImage(url)]: that statement runs when
    the image loads and is skipped when the load is rejected. *)
Lemma standard_path_transient_url (P : Platform) (f : File) (s : State) :
  let url := next_url (logged ("(Standard image) Reading " +:+ name f +:+ "...") s) in
  let s' := snd (alone (convertImageFileToJpeg P f) s) in
  match decodeImage P (blob_of_file f) with
  | Some _ => blob_store s' !! url = None /\ url ∈ revocations s'
  | None => blob_store s' !! url = Some (blob_of_file f)
            /\ revocations s' = revocations s
  end.
Proof.
  intros url s'. subst url s'.
  pose proof (convertImageFileToJpeg_outcome P f s) as Ho.
  destruct Ho as [Hd | img e Hd | img jpeg t Hd]; rewrite Hd; cbn [snd].
  - split; [apply lookup_issued | reflexivity].
  - split; simpl.
    + apply lookup_delete_eq.
    + apply elem_of_app. right. constructor.
  - split; simpl.
    + rewrite lookup_insert_ne by lia. apply lookup_delete_eq.
    + apply elem_of_app. right. constructor.
Qed.

(** C1.  On a file whose image does not load, the URL that the standard
    path created is still live when the batch is done and was never
    revoked; it is not in the tracker set, so teardown does not revoke it
    either. *)
Theorem standard_path_keeps_url_after_failed_load :
  let pg := run Demo.platform (SelectFiles [Demo.broken] :: settles 4) in
  let s := page pg in
  let s' := page (step Demo.platform pg BeforeUnload) in
  length (suspended pg) = 0%nat
  /\ output s = [OutputLog "(Standard image) Reading broken.png...";
                 OutputLog "Error converting broken.png: Failed to load image"]
  /\ status s = "Done."
  /\ blob_store s !! 0%N = Some (blob_of_file Demo.broken)
  /\ revocations s = [] /\ objectUrls s = []
  /\ blob_store s' !! 0%N = Some (blob_of_file Demo.broken)
  /\ revocations s' = [].
Proof. vm_compute. repeat split. Qed.

(** ** Routing (C6) *)

(** The demonstration platform throws strings and the errors of the
    script. *)
Lemma Demo_reports_failures : reports_failures Demo.platform.
Proof.
  intros e [-> | [-> | [(f & t & q & H) | (c & t & q & H)]]].
  - now eexists.
  - now eexists.
  - simpl in H. destruct (contents f); [|discriminate].
    injection H as <-. now eexists.
  - simpl in H. destruct ((width c =? 0) || (height c =? 0))%N; discriminate.
Qed.

(** A batch that runs alone on a platform whose failures have a text. *)
Lemma processFiles_returns (P : Platform) (files : list File) (s : State) :
  reports_failures P -> fst (alone (processFiles P files) s) = Ok tt.
Proof.
  intros HP.
  apply (always_alone _ _ (always_processFiles P HP files s)).
Qed.

Lemma processFiles_status (P : Platform) (files : list File) (s : State) :
  reports_failures P ->
  status (snd (alone (processFiles P files) s)) =
  match files, List.filter supported files with
  | [], _ => "No files selected."
  | _, [] => "No supported image files found."
  | _, _ => "Done."
  end.
Proof.
  intros HP.
  pose proof (always_alone _ _ (always_processFiles P HP files s)) as [_ Hs].
  fold (alone (processFiles P files) s) in Hs.
  destruct files as [|f0 files]; [reflexivity|].
  destruct (List.filter supported (f0 :: files)) as [|k kept] eqn:Hk.
  - rewrite processFiles_eq, Hk. reflexivity.
  - apply Hs. discriminate.
Qed.

(** C6.  When the classifier fails for a file, with whatever value,
    [safeIsHeic] answers [false] after a console warning, in whatever
    state it resumes, and the loop body goes on with the standard path, in
    the state in which it resumes next: the failure of the classifier
    never reaches the [catch] block of the loop.  On a platform whose
    conversion paths throw values with a text, the loop body returns
    normally, and a batch that holds the file ends normally whatever runs
    while it is suspended, with status "Done." when the file passes the
    filter. *)
Theorem classifier_failure_means_standard_path
    (P : Platform) (f : File) (e : JsValue) (s : State) :
  isHeic P f = Throw e ->
  safeIsHeic P f s = Suspended s (fun s' => Finished (Ok false) (warned e s'))
  /\ convert_file P f s =
     Suspended s (fun s' =>
       Suspended (warned e s') (fun s'' => await (convertImageFileToJpeg P f) s''))
  /\ alone (convert_file P f) s = alone (convertImageFileToJpeg P f) (warned e s)
  /\ (reports_failures P ->
      always (fun r _ => r = Ok tt) (process_file P f s)
      /\ (forall files s0, In f files ->
            always (fun r s' => r = Ok tt /\ (supported f = true -> status s' = "Done."))
              (processFiles P files s0))).
Proof.
  intros He. split; [|split; [|split]].
  - now rewrite safeIsHeic_step, He.
  - unfold convert_file, bind, await. rewrite safeIsHeic_step, He. reflexivity.
  - now rewrite convert_file_eq, He.
  - intros HP. split.
    + pose proof (produces_process_file P HP f [] s) as H.
      apply produces_always in H. revert H. apply always_weaken.
      now intros r s' (m & -> & _).
    + intros files s0 Hin. pose proof (always_processFiles P HP files s0) as H.
      revert H. apply always_weaken.
      intros r s' [-> Hs]. split; [reflexivity|].
      intros Hsup. apply Hs. intros Hnil.
      assert (In f (List.filter supported files)) as Hf by (apply filter_In; auto).
      rewrite Hnil in Hf. contradiction.
Qed.

Lemma classifier_failure_witness :
  isHeic Demo.platform Demo.mystery = Throw (ThrownString "not a file")
  /\ alone (convert_file Demo.platform Demo.mystery) initial_state =
     alone (convertImageFileToJpeg Demo.platform Demo.mystery)
       (warned (ThrownString "not a file") initial_state)
  /\ status (snd (alone (processFiles Demo.platform [Demo.photo; Demo.mystery]) initial_state))
     = "Done.".
Proof.
  assert (isHeic Demo.platform Demo.mystery = Throw (ThrownString "not a file"))
    as He by reflexivity.
  destruct (classifier_failure_means_standard_path Demo.platform Demo.mystery
              (ThrownString "not a file") initial_state He)
    as (_ & _ & H3 & H4).
  destruct (H4 Demo_reports_failures) as [_ H5].
  split; [exact He|]. split; [exact H3|].
  assert (In Demo.mystery [Demo.photo; Demo.mystery]) as Hin by (simpl; auto).
  apply (always_alone _ _ (H5 [Demo.photo; Demo.mystery] initial_state Hin)).
  reflexivity.
Defined.

(** The value that the classifier throws is only logged: a classifier
    that throws [undefined] stops no batch. *)
Example classifier_throws_undefined :
  let P := {| fl := fl Demo.platform;
              isHeic := fun _ => Throw Undefined;
              heicTo := heicTo Demo.platform;
              decodeImage := decodeImage Demo.platform;
              toBlob := toBlob Demo.platform;
              toDataURL := toDataURL Demo.platform |} in
  let r := alone (processFiles P [Demo.logo]) initial_state in
  fst r = Ok tt /\ status (snd r) = "Done." /\ rows (output (snd r)) = 1%nat.
Proof. vm_compute. repeat split. Qed.

Example mystery_gets_a_row :
  output (after_batch Demo.platform [Demo.mystery] initial_state) =
    [OutputLog "(Standard image) Reading mystery.jpg...";
     OutputItem (Some ("data:image/jpeg;240x180", "mystery")) "mystery.jpg" 1%N
       "mystery.jpg"].
Proof. vm_compute. reflexivity. Qed.

(** ** Registration happens on success only (C10) *)

Lemma routed_tracker (P : Platform) (f : File) (s s0 : State) :
  routed P f s s0 ->
  objectUrls s0 = objectUrls s /\ output s0 = output s.
Proof. intros [b _|e _]; split; reflexivity. Qed.

(** C10.  In each of its runs between two suspensions, the conversion
    of a file registers the handles of the rows that the run appends, and
    no other ([run_appends]).  A conversion that throws has appended no
    row in any of its runs, whatever ran while it was suspended, so none
    of its runs has changed the tracker set; a conversion that returns has
    appended exactly one row.  In a run that nothing interrupts: if the
    conversion throws, the tracker set after the file -- before and after
    the [catch] block -- is the set before the file; if it returns,
    exactly one handle was added, the URL created by [addDownloadLink],
    which is live and is the [href] of the row appended last. *)
Theorem tracker_changes_only_on_success (P : Platform) (f : File) (s : State) :
  produces
    (fun r _ made =>
       match r with
       | Throw _ => hrefs made = []
       | Ok _ => exists u, hrefs made = [u]
       end)
    [] s (convert_file P f s)
  /\
  match alone (convert_file P f) s with
  | (Throw _, s') =>
      objectUrls s' = objectUrls s
      /\ objectUrls (snd (alone (process_file P f) s)) = objectUrls s
  | (Ok _, s') =>
      snd (alone (process_file P f) s) = s'
      /\ exists u thumb label download,
           objectUrls s' = JsSet.add u (objectUrls s)
           /\ is_Some (blob_store s' !! u)
           /\ last (output s') = Some (OutputItem thumb label u download)
  end.
Proof.
  split.
  { eapply produces_weaken; [|apply produces_convert_file].
    intros [[]|e] _ m (t & blk & _ & -> & Hb); simpl in Hb.
    - destruct Hb as (thumb & href & ->). now exists href.
    - destruct Hb as [-> _]. reflexivity. }
  rewrite process_file_eq.
  destruct (convert_file_outcome P f s) as (s0 & Hr & Ho).
  destruct (routed_tracker P f s s0 Hr) as [Ht _].
  destruct (alone (convert_file P f) s) as [[[]|err] s'].
  - split; [reflexivity|].
    destruct Ho as [Ho|Ho]; inversion Ho; subst; unfold linked;
      do 4 eexists; cbn [objectUrls set_output set_objectUrls];
      (split; [now rewrite <- Ht|]);
      (split; [simpl; rewrite lookup_insert_eq; eauto|]);
      simpl; apply last_snoc.
  - destruct (error_text err); cbn [snd];
      destruct Ho as [Ho|Ho]; inversion Ho; subst; split; simpl; congruence.
Qed.

Example failed_file_leaves_tracker_alone :
  let s := after_batch Demo.platform [Demo.logo] initial_state in
  objectUrls s = [1%N]
  /\ fst (alone (convert_file Demo.platform Demo.broken) s)
     = Throw (new_Error "Failed to load image")
  /\ objectUrls (snd (alone (process_file Demo.platform Demo.broken) s)) = [1%N].
Proof. vm_compute. repeat split. Qed.

(** ** One row or one failure line per supported file (C4, C5) *)

Lemma progress_line_is_no_failure (f : File) (t : string) :
  progress_line f t -> is_failure_line (OutputLog t) = false.
Proof. intros [-> | ->]; reflexivity. Qed.

Lemma file_block_counts (f : File) (blk : list OutputNode) :
  file_block f blk -> (rows blk + failure_lines blk = 1)%nat.
Proof.
  intros [t thumb href Ht | t err Ht]; unfold rows, failure_lines;
    cbn [List.filter is_row];
    change (List.filter is_failure_line (OutputLog t :: ?l))
      with (if is_failure_line (OutputLog t)
            then OutputLog t :: List.filter is_failure_line l
            else List.filter is_failure_line l);
    rewrite (progress_line_is_no_failure f t Ht).
  - reflexivity.
  - cbn [List.filter is_failure_line].
    replace (JsString.startsWith _ _) with true; [reflexivity|].
    symmetry. apply startsWith_spec. eauto.
Qed.

Lemma rows_app (a b : list OutputNode) : rows (a ++ b) = (rows a + rows b)%nat.
Proof. unfold rows. now rewrite List.filter_app, length_app. Qed.

Lemma failure_lines_app (a b : list OutputNode) :
  failure_lines (a ++ b) = (failure_lines a + failure_lines b)%nat.
Proof. unfold failure_lines. now rewrite List.filter_app, length_app. Qed.

Lemma blocks_count (files : list File) (blks : list (list OutputNode)) :
  Forall2 file_block files blks ->
  (rows (concat blks) + failure_lines (concat blks) = length files)%nat.
Proof.
  induction 1 as [|f blk files blks Hb _ IH]; [reflexivity|].
  simpl. rewrite rows_app, failure_lines_app.
  pose proof (file_block_counts f blk Hb). lia.
Qed.

Section BatchOutput.
Variable P : Platform.
Hypothesis reports : reports_failures P.

(** On a platform whose failures have a text, the loop body returns and
    the reason in the failure line is the text of the value that the
    conversion threw. *)
Lemma process_file_reports (f : File) (s : State) :
  fst (alone (process_file P f) s) = Ok tt
  /\ match alone (convert_file P f) s with
     | (Throw err, _) =>
         exists reason,
           error_text err = Ok reason
           /\ last (output (snd (alone (process_file P f) s))) =
              Some (OutputLog ("Error converting " +:+ name f +:+ ": " +:+ reason))
     | (Ok _, _) => True
     end.
Proof.
  rewrite process_file_eq.
  destruct (produces_complete _ _ _ _ (produces_convert_file P f [] s))
    as (l & _ & t & blk & _ & _ & Hb).
  unfold alone.
  destruct (complete (convert_file P f s)) as [[[]|err] s']; [now split|].
  destruct Hb as [_ He]. destruct (reports err He) as [reason Hr].
  rewrite Hr. split; [reflexivity|].
  exists reason. split; [reflexivity|].
  unfold reported, logged. simpl. apply last_snoc.
Qed.

Lemma batch_output (files : list File) (s : State) :
  match List.filter supported files with
  | [] => output (snd (alone (processFiles P files) s)) = output s
  | kept =>
      exists blks, Forall2 file_block kept blks /\
        output (snd (alone (processFiles P files) s)) = concat blks
  end.
Proof.
  destruct (List.filter supported files) as [|k kept] eqn:Hk.
  - rewrite processFiles_eq, Hk. now destruct files.
  - assert (List.filter supported files <> []) as Hne by congruence.
    destruct (produces_complete _ _ _ _ (produces_processFiles P reports files s Hne))
      as (l & [Hout _] & _ & _ & blks & Hb & Hl).
    rewrite Hk in Hb. exists blks. split; [assumption|].
    unfold alone. rewrite Hout. exact Hl.
Qed.

(** On a platform whose failures have a text, a batch appends one row or
    one failure line for each supported file, whatever runs in between. *)
Lemma rows_plus_failures_when_failures_have_text (files : list File) (s : State) :
  let out := output (snd (alone (processFiles P files) s)) in
  match List.filter supported files with
  | [] =>
      (exists msg, processFiles P files s = Finished (Ok tt) (with_status msg s))
      /\ out = output s
  | kept =>
      produces
        (fun _ _ made => (rows made + failure_lines made = length kept)%nat)
        [] (batch_started (length kept) s) (processFiles P files s)
      /\ (rows out + failure_lines out = length kept)%nat
  end.
Proof.
  intros out. subst out. pose proof (batch_output files s) as H.
  pose proof (produces_processFiles P reports files s) as Hp.
  pose proof (processFiles_started P files s) as Hs.
  destruct (List.filter supported files) as [|k kept].
  - split; [|assumption]. destruct files; eauto.
  - split.
    + assert (k :: kept <> []) as Hk by discriminate.
      specialize (Hp Hk). revert Hp. apply produces_weaken.
      intros r s' m (_ & _ & blks & Hb & ->). now apply blocks_count.
    + destruct H as (blks & Hb & ->). now apply blocks_count.
Qed.

(** On a platform whose failures have a text, the loop body and the
    batch end normally, whatever runs in between, and the last act of a
    batch with a supported file is to set the status "Done.". *)
Lemma batch_survives_when_failures_have_text (files : list File) (s : State) :
  let r := alone (processFiles P files) s in
  always
    (fun r s' =>
       r = Ok tt /\ (List.filter supported files <> [] -> status s' = "Done."))
    (processFiles P files s)
  /\ (forall f made s0,
        produces
          (fun r _ m => r = Ok tt /\ exists blk, file_block f blk /\ m = made ++ blk)
          made s0 (process_file P f s0))
  /\ fst r = Ok tt
  /\ match List.filter supported files with
     | [] => status (snd r) = match files with
                              | [] => "No files selected."
                              | _ => "No supported image files found."
                              end
     | kept =>
         status (snd r) = "Done."
         /\ exists blks, Forall2 file_block kept blks
                         /\ output (snd r) = concat blks
     end.
Proof.
  intros r. subst r. split; [now apply always_processFiles|].
  split; [intros f made s0; now apply produces_process_file|].
  split; [now apply processFiles_returns|].
  pose proof (batch_output files s) as H.
  rewrite processFiles_status by assumption.
  destruct files as [|f0 files]; [reflexivity|].
  destruct (List.filter supported (f0 :: files)) as [|k kept];
    [reflexivity|].
  split; [reflexivity | exact H].
Qed.

End BatchOutput.

Example four_supported_one_fails :
  let s := after_batch Demo.platform
             [Demo.photo; Demo.notes; Demo.broken; Demo.logo; Demo.mystery]
             initial_state in
  rows (output s) = 3%nat /\ failure_lines (output s) = 1%nat
  /\ length (output s) = 8%nat.
Proof. vm_compute. repeat split. Qed.

Example bad_file_in_the_middle :
  let s := after_batch Demo.platform [Demo.photo; Demo.broken; Demo.logo] initial_state in
  output s =
    [OutputLog "(HEIC) Converting photo.HEIC...";
     OutputItem (Some ("data:image/jpeg;240x180", "photo")) "photo.jpg" 1%N "photo.jpg";
     OutputLog "(Standard image) Reading broken.png...";
     OutputLog "Error converting broken.png: Failed to load image";
     OutputLog "(Standard image) Reading logo.png...";
     OutputItem (Some ("data:image/jpeg;240x180", "logo")) "logo.jpg" 4%N "logo.jpg"]
  /\ status s = "Done.".
Proof. vm_compute. repeat split. Qed.

(** *** A rejection with [undefined]

    The [catch] block of the loop reads [err.message] (main.js 124).
    When the value caught is [undefined] or [null] the read throws a
    [TypeError] inside the [catch] block: the loop is left, the promise of
    [processFiles] rejects, the files after the failing one are not
    converted and the status is not set to "Done.". *)

(** C5.  The batch of [photo.HEIC] and [logo.png], both supported, on a
    platform whose HEIC decoder rejects with [undefined]: the conversion
    of [photo.HEIC] throws [undefined], the [catch] block logs it to the
    console and throws a [TypeError] before it appends its line, and the
    batch ends with that error.  No failure line names [photo.HEIC],
    [logo.png] is never started, and the status stays
    "Processing 2 file(s)...".  On the page the batch is over after four
    settlements and leaves this state. *)
Theorem batch_stops_when_undefined_is_thrown :
  let files := [Demo.photo; Demo.logo] in
  let r := alone (processFiles Faulty.rejecting files) initial_state in
  let pg := run Faulty.rejecting (SelectFiles files :: settles 4) in
  List.filter supported files = files
  /\ fst (alone (convert_file Faulty.rejecting Demo.photo)
            (batch_started 2 initial_state)) = Throw Undefined
  /\ fst r = Throw (TypeError_reading "undefined" "message")
  /\ output (snd r) = [OutputLog "(HEIC) Converting photo.HEIC..."]
  /\ status (snd r) = "Processing 2 file(s)..."
  /\ console (snd r) = [ConsoleLog "Processing 2 file(s)..."; ConsoleError Undefined]
  /\ suspended pg = [] /\ page pg = snd r.
Proof. vm_compute. repeat split. Qed.

(** C4.  On the same batch two files pass the filter, and when the batch
    has ended [#output] holds one node, the progress line of
    [photo.HEIC]: no row and no failure line, on the page as in a run
    that nothing interrupts. *)
Theorem stopped_batch_has_no_row_and_no_failure_line :
  let files := [Demo.photo; Demo.logo] in
  let out := output (snd (alone (processFiles Faulty.rejecting files) initial_state)) in
  let pg := run Faulty.rejecting (SelectFiles files :: settles 4) in
  length (List.filter supported files) = 2%nat
  /\ out = [OutputLog "(HEIC) Converting photo.HEIC..."]
  /\ rows out = 0%nat /\ failure_lines out = 0%nat
  /\ suspended pg = [] /\ output (page pg) = out.
Proof. vm_compute. repeat split. Qed.

(** The same happens with [null], and at any place of the batch. *)
Example batch_stops_in_the_middle :
  let P := {| fl := fl Demo.platform;
              isHeic := isHeic Demo.platform;
              heicTo := fun _ _ _ => Throw Null;
              decodeImage := decodeImage Demo.platform;
              toBlob := toBlob Demo.platform;
              toDataURL := toDataURL Demo.platform |} in
  let r := alone (processFiles P [Demo.logo; Demo.photo; Demo.broken]) initial_state in
  fst r = Throw (TypeError_reading "null" "message")
  /\ output (snd r) =
     [OutputLog "(Standard image) Reading logo.png...";
      OutputItem (Some ("data:image/jpeg;240x180", "logo")) "logo.jpg" 1%N "logo.jpg";
      OutputLog "(HEIC) Converting photo.HEIC..."]
  /\ status (snd r) = "Processing 3 file(s)...".
Proof. vm_compute. repeat split. Qed.

(** ** Thumbnails (C7) *)

Lemma Qfloor_unique (z : Z) (x : Q) :
  (inject_Z z <= x)%Q -> (x < inject_Z (z + 1))%Q -> Qfloor x = z.
Proof.
  intros Hl Hu.
  pose proof (Qfloor_le x) as H1. pose proof (Qlt_floor x) as H2.
  assert (inject_Z (Qfloor x) < inject_Z (z + 1))%Q as A
    by (eapply Qle_lt_trans; eauto).
  assert (inject_Z z < inject_Z (Qfloor x + 1))%Q as B
    by (eapply Qle_lt_trans; eauto).
  rewrite <- Zlt_Qlt in A, B. lia.
Qed.

Section Rounding.
Variable fl : Q -> Q.
Hypothesis Hfl : binary64_rounding fl.

Lemma fl_proper (x y : Q) : (x == y)%Q -> (fl x == fl y)%Q.
Proof.
  intros H. apply Qle_antisym; apply (fl_monotone fl Hfl); rewrite H; apply Qle_refl.
Qed.

Lemma fl_zero (x : Q) : (x == 0)%Q -> (fl x == 0)%Q.
Proof.
  intros H. rewrite (fl_proper x (inject_Z 0) H).
  apply (fl_integer fl Hfl). simpl. lia.
Qed.

Lemma fl_one : (fl 1 == 1)%Q.
Proof. apply (fl_integer fl Hfl 1). simpl. lia. Qed.



End Rounding.

Section ThumbnailArithmetic.
Variable P : Platform.
Hypothesis Hfl : binary64_rounding (fl P).

Lemma sign_of_N_pos (n : N) : (0 < n)%N -> Num.sign (inject_Z (Z.of_N n)) = Gt.
Proof.
  intros Hn. unfold Num.sign. apply Qgt_alt.
  change 0%Q with (inject_Z 0). rewrite <- Zlt_Qlt. lia.
Qed.


Lemma of_N_le (a b : N) :
  (a <= b)%N -> (inject_Z (Z.of_N a) <= inject_Z (Z.of_N b))%Q.
Proof. intros H. rewrite <- Zle_Qle. lia. Qed.


(** With a positive width the scale is a finite number, at most 1: it
    is 1 when the image is no wider than [maxWidth], and the rounded
    quotient otherwise. *)
Lemma thumb_scale_positive_width (m w : N) :
  (0 < w)%N ->
  exists q, thumb_scale P m w = Finite q /\ (q <= 1)%Q /\
    if (w <=? m)%N then (q == 1)%Q
    else (q == fl P (inject_Z (Z.of_N m) / inject_Z (Z.of_N w)))%Q.
Proof.
  intros Hw. unfold thumb_scale, Num.div, Num.of_N.
  rewrite (sign_of_N_pos w Hw). unfold Num.min.
  set (M := inject_Z (Z.of_N m)). set (W := inject_Z (Z.of_N w)).
  assert (0 < W)%Q as HW.
  { subst W. change 0%Q with (inject_Z 0). rewrite <- Zlt_Qlt. lia. }
  destruct (N.leb_spec w m) as [Hle|Hlt].
  - assert (1 <= fl P (M / W))%Q as H1.
    { rewrite <- (fl_one (fl P) Hfl). apply (fl_monotone (fl P) Hfl).
      apply Qle_shift_div_l; [assumption|]. rewrite Qmult_1_l.
      now apply of_N_le. }
    destruct (Qle_bool (fl P (M / W)) 1) eqn:Hb.
    + apply Qle_bool_iff in Hb. eexists. split; [reflexivity|].
      split; [assumption | now apply Qle_antisym].
    + eexists. split; [reflexivity|]. split; [apply Qle_refl | reflexivity].
  - assert (fl P (M / W) <= 1)%Q as H1.
    { rewrite <- (fl_one (fl P) Hfl). apply (fl_monotone (fl P) Hfl).
      apply Qle_shift_div_r; [assumption|]. rewrite Qmult_1_l.
      apply of_N_le. lia. }
    apply Qle_bool_iff in H1. rewrite H1.
    eexists. split; [reflexivity|].
    split; [now apply Qle_bool_iff | reflexivity].
Qed.

Lemma round_to (x : Q) (n : N) :
  (inject_Z (Z.of_N n) - (1 # 4) <= x)%Q ->
  (x <= inject_Z (Z.of_N n) + (1 # 4))%Q ->
  Qfloor (x + (1 # 2)) = Z.of_N n.
Proof.
  intros Hl Hu. apply Qfloor_unique.
  - lra.
  - rewrite inject_Z_plus. change (inject_Z 1) with 1%Q. lra.
Qed.


End ThumbnailArithmetic.

Section Binary64Facts.
Local Open Scope Q_scope.

Lemma pow2_pos (e : Z) : 0 < 2 ^ e.
Proof. apply Qpower_0_lt. reflexivity. Qed.

Lemma pow2_le (a b : Z) : (a <= b)%Z -> 2 ^ a <= 2 ^ b.
Proof. intros H. apply Qpower_le_compat_l; [assumption | discriminate]. Qed.

Lemma pow2_lt (a b : Z) : (a < b)%Z -> 2 ^ a < 2 ^ b.
Proof. intros H. apply Qpower_lt_compat_l; [assumption | reflexivity]. Qed.

Lemma pow2_add (a b : Z) : 2 ^ (a + b) == 2 ^ a * 2 ^ b.
Proof. apply Qpower_plus. discriminate. Qed.

Lemma pow2_succ (e : Z) : 2 ^ (e + 1) == 2 * 2 ^ e.
Proof. rewrite pow2_add. change (2 ^ 1) with 2%Q. ring. Qed.

Lemma pow2_Z (a : Z) : (0 <= a)%Z -> inject_Z (2 ^ a) == 2 ^ a.
Proof. intros H. now rewrite Zpower_Qpower. Qed.

Lemma binade_spec (x : Q) :
  0 < x -> 2 ^ Binary64.binade x <= x /\ x < 2 ^ (Binary64.binade x + 1).
Proof.
  intros Hx. unfold Binary64.binade.
  destruct x as [n d]. cbn [Qnum Qden].
  assert (0 < n)%Z as Hn by (unfold Qlt in Hx; simpl in Hx; lia).
  set (a := Z.log2 n). set (b := Z.log2 (Z.pos d)).
  destruct (Z.log2_spec n Hn) as [Ha1 Ha2]. fold a in Ha1, Ha2.
  destruct (Z.log2_spec (Z.pos d)) as [Hb1 Hb2]; [lia|]. fold b in Hb1, Hb2.
  assert (0 <= a)%Z as Ha0 by apply Z.log2_nonneg.
  assert (0 <= b)%Z as Hb0 by apply Z.log2_nonneg.
  rewrite Z.pow_succ_r in Ha2, Hb2 by assumption.
  rewrite Zle_Qle, pow2_Z in Ha1, Hb1 by assumption.
  rewrite Zlt_Qlt, inject_Z_mult, pow2_Z in Ha2, Hb2 by assumption.
  set (k := (a - b)%Z).
  assert (2 ^ a == 2 ^ k * 2 ^ b) as Hk.
  { rewrite <- pow2_add. subst k. now replace (a - b + b)%Z with a by lia. }
  assert ((n # d) * inject_Z (Z.pos d) == inject_Z n) as Hnd.
  { rewrite (Qmake_Qdiv n d). field. discriminate. }
  pose proof (pow2_pos a) as Pa. pose proof (pow2_pos b) as Pb.
  pose proof (pow2_pos k) as Pk.
  set (X := n # d) in *. set (N := inject_Z n) in *.
  set (D := inject_Z (Z.pos d)) in *.
  set (A := 2 ^ a) in *. set (B := 2 ^ b) in *. set (K := 2 ^ k) in *.
  change (inject_Z 2) with 2%Q in *.
  destruct (Qle_bool K X) eqn:Hb.
  - apply Qle_bool_iff in Hb. split; [assumption|].
    rewrite pow2_succ. fold K. nra.
  - assert (X < K) as Hlt.
    { apply Qnot_le_lt. intros H. apply Qle_bool_iff in H. congruence. }
    replace (k - 1 + 1)%Z with k by lia. fold K. split; [|assumption].
    assert (2 ^ k == 2 * 2 ^ (k - 1)) as Hk1.
    { rewrite <- pow2_succ. now replace (k - 1 + 1)%Z with k by lia. }
    fold K in Hk1. pose proof (pow2_pos (k - 1)) as Pk1.
    set (K1 := 2 ^ (k - 1)) in *. nra.
Qed.

Lemma binade_unique (x : Q) (e : Z) :
  2 ^ e <= x -> x < 2 ^ (e + 1) -> Binary64.binade x = e.
Proof.
  intros Hl Hu.
  assert (0 < x) as Hx by (eapply Qlt_le_trans; [apply (pow2_pos e) | exact Hl]).
  destruct (binade_spec x Hx) as [Bl Bu].
  destruct (Z.lt_trichotomy (Binary64.binade x) e) as [H | [H | H]]; [|assumption|].
  - assert (2 ^ (Binary64.binade x + 1) <= 2 ^ e) by (apply pow2_le; lia). lra.
  - assert (2 ^ (e + 1) <= 2 ^ Binary64.binade x) by (apply pow2_le; lia). lra.
Qed.

Lemma binade_proper (x y : Q) : 0 < x -> x == y -> Binary64.binade x = Binary64.binade y.
Proof.
  intros Hx Hxy. destruct (binade_spec x Hx) as [Bl Bu].
  symmetry. apply binade_unique; rewrite <- Hxy; assumption.
Qed.

Lemma binade_mono (x y : Q) : 0 < x -> x <= y -> (Binary64.binade x <= Binary64.binade y)%Z.
Proof.
  intros Hx Hxy. assert (0 < y) as Hy by lra.
  destruct (binade_spec x Hx) as [Xl Xu].
  destruct (binade_spec y Hy) as [Yl Yu].
  destruct (Z_le_gt_dec (Binary64.binade x) (Binary64.binade y)) as [H|H]; [assumption|].
  assert (2 ^ (Binary64.binade y + 1) <= 2 ^ Binary64.binade x) by (apply pow2_le; lia). lra.
Qed.

Lemma nearest_even_cases (t : Q) :
  let f := Qfloor t in
  inject_Z f <= t /\ t < inject_Z f + 1 /\
  ((t - inject_Z f < 1 # 2 /\ Binary64.nearest_even t = f)
   \/ (1 # 2 < t - inject_Z f /\ Binary64.nearest_even t = (f + 1)%Z)
   \/ (t - inject_Z f == 1 # 2
       /\ Binary64.nearest_even t = if Z.even f then f else (f + 1)%Z)).
Proof.
  intros f. subst f. unfold Binary64.nearest_even.
  pose proof (Qfloor_le t) as H1. pose proof (Qlt_floor t) as H2.
  rewrite inject_Z_plus in H2. change (inject_Z 1) with 1%Q in H2.
  split; [assumption|]. split; [assumption|].
  destruct (t - inject_Z (Qfloor t) ?= 1 # 2) eqn:Hc.
  - apply Qeq_alt in Hc. right. right. now split.
  - apply Qlt_alt in Hc. left. now split.
  - apply Qgt_alt in Hc. right. left. now split.
Qed.

Lemma nearest_even_near (t : Q) :
  t - (1 # 2) <= inject_Z (Binary64.nearest_even t)
  /\ inject_Z (Binary64.nearest_even t) <= t + (1 # 2).
Proof.
  destruct (nearest_even_cases t) as (H1 & H2 & [[Hc ->] | [[Hc ->] | [Hc ->]]]).
  - lra.
  - rewrite inject_Z_plus. change (inject_Z 1) with 1%Q. lra.
  - destruct (Z.even (Qfloor t)).
    + lra.
    + rewrite inject_Z_plus. change (inject_Z 1) with 1%Q. lra.
Qed.

Lemma nearest_even_integer (t : Q) (k : Z) :
  t == inject_Z k -> Binary64.nearest_even t = k.
Proof.
  intros Ht.
  assert (Qfloor t = k) as Hf by (rewrite Ht; apply Qfloor_Z).
  destruct (nearest_even_cases t) as (H1 & H2 & [[Hc ->] | [[Hc ->] | [Hc ->]]]);
    rewrite Hf in *; [reflexivity | exfalso; lra ..].
Qed.

Lemma nearest_even_mono (s t : Q) :
  s <= t -> (Binary64.nearest_even s <= Binary64.nearest_even t)%Z.
Proof.
  intros Hst. pose proof (Qfloor_resp_le s t Hst) as Hf.
  destruct (nearest_even_cases s) as (S1 & S2 & HS).
  destruct (nearest_even_cases t) as (T1 & T2 & HT).
  destruct (Z.eq_dec (Qfloor s) (Qfloor t)) as [He|Hne].
  - rewrite He in *.
    destruct HS as [[Sc ->] | [[Sc ->] | [Sc ->]]];
      destruct HT as [[Tc ->] | [[Tc ->] | [Tc ->]]];
      try destruct (Z.even (Qfloor t)); try lia; exfalso; lra.
  - assert (Qfloor s + 1 <= Qfloor t)%Z as Hlt by lia.
    assert (Binary64.nearest_even s <= Qfloor s + 1)%Z.
    { destruct HS as [[Sc ->] | [[Sc ->] | [Sc ->]]];
        try destruct (Z.even (Qfloor s)); lia. }
    assert (Qfloor t <= Binary64.nearest_even t)%Z.
    { destruct HT as [[Tc ->] | [[Tc ->] | [Tc ->]]];
        try destruct (Z.even (Qfloor t)); lia. }
    lia.
Qed.

(** The significand of a positive number lies between 2^52 and 2^53. *)
Lemma significand_range (x : Q) :
  0 < x ->
  let u := 2 ^ (Binary64.binade x - 52) in
  0 < u /\ inject_Z (2 ^ 52) * u == 2 ^ Binary64.binade x
  /\ inject_Z (2 ^ 52) <= x / u /\ x / u < inject_Z (2 ^ 53).
Proof.
  intros Hx u. destruct (binade_spec x Hx) as [Bl Bu].
  assert (0 < u) as Hu by apply pow2_pos.
  assert (inject_Z (2 ^ 52) * u == 2 ^ Binary64.binade x) as H52.
  { rewrite pow2_Z by lia. subst u. rewrite <- pow2_add.
    now replace (52 + (Binary64.binade x - 52))%Z with (Binary64.binade x) by lia. }
  assert (inject_Z (2 ^ 53) * u == 2 ^ (Binary64.binade x + 1)) as H53.
  { rewrite pow2_Z by lia. subst u. rewrite <- pow2_add.
    now replace (53 + (Binary64.binade x - 52))%Z with (Binary64.binade x + 1)%Z by lia. }
  repeat split; try assumption.
  - apply Qle_shift_div_l; [assumption|]. now rewrite H52.
  - apply Qlt_shift_div_r; [assumption|]. now rewrite H53.
Qed.

Lemma round_positive_range (x : Q) :
  0 < x ->
  2 ^ Binary64.binade x <= Binary64.round_positive x /\ Binary64.round_positive x <= 2 ^ (Binary64.binade x + 1).
Proof.
  intros Hx. unfold Binary64.round_positive.
  destruct (significand_range x Hx) as (Hu & H52 & Hl & Hr).
  set (u := 2 ^ (Binary64.binade x - 52)) in *.
  assert (2 ^ (Binary64.binade x + 1) == inject_Z (2 ^ 53) * u) as H53.
  { rewrite pow2_succ, <- H52. change (2 ^ 53)%Z with (2 * 2 ^ 52)%Z.
    rewrite inject_Z_mult. change (inject_Z 2) with 2%Q. ring. }
  pose proof (nearest_even_mono _ _ Hl) as M1.
  rewrite (nearest_even_integer (inject_Z (2 ^ 52)) (2 ^ 52)) in M1 by reflexivity.
  pose proof (nearest_even_mono _ _ (Qlt_le_weak _ _ Hr)) as M2.
  rewrite (nearest_even_integer (inject_Z (2 ^ 53)) (2 ^ 53)) in M2 by reflexivity.
  rewrite Zle_Qle in M1, M2. rewrite <- H52, H53.
  split; apply Qmult_le_compat_r; lra.
Qed.

Lemma round_positive_mono (x y : Q) :
  0 < x -> x <= y -> Binary64.round_positive x <= Binary64.round_positive y.
Proof.
  intros Hx Hxy. assert (0 < y) as Hy by lra.
  pose proof (binade_mono x y Hx Hxy) as He.
  destruct (Z.eq_dec (Binary64.binade x) (Binary64.binade y)) as [Heq|Hne].
  - unfold Binary64.round_positive. rewrite Heq.
    pose proof (pow2_pos (Binary64.binade y - 52)) as Hu.
    set (u := 2 ^ (Binary64.binade y - 52)) in *.
    apply Qmult_le_compat_r; [|lra].
    rewrite <- Zle_Qle. apply nearest_even_mono.
    apply Qle_shift_div_l; [assumption|].
    assert (x / u * u == x) as -> by (field; lra). assumption.
  - destruct (round_positive_range x Hx) as [_ Xu].
    destruct (round_positive_range y Hy) as [Yl _].
    assert (2 ^ (Binary64.binade x + 1) <= 2 ^ Binary64.binade y) by (apply pow2_le; lia).
    lra.
Qed.

Lemma round_positive_pos (x : Q) : 0 < x -> 0 < Binary64.round_positive x.
Proof.
  intros Hx. destruct (round_positive_range x Hx) as [H _].
  pose proof (pow2_pos (Binary64.binade x)). lra.
Qed.

Lemma round_positive_near (x : Q) :
  0 < x ->
  x - (1 # 2 ^ 53) * x <= Binary64.round_positive x
  /\ Binary64.round_positive x <= x + (1 # 2 ^ 53) * x.
Proof.
  intros Hx. unfold Binary64.round_positive.
  destruct (significand_range x Hx) as (Hu & H52 & Hl & Hr).
  destruct (binade_spec x Hx) as [Bl _].
  set (u := 2 ^ (Binary64.binade x - 52)) in *.
  destruct (nearest_even_near (x / u)) as [N1 N2].
  assert (x / u * u == x) as Hxu by (field; lra).
  set (t := x / u) in *. set (r := inject_Z (Binary64.nearest_even t)) in *.
  change (inject_Z (2 ^ 52)) with 4503599627370496%Q in *.
  change (1 # 2 ^ 53) with (1 # 9007199254740992).
  rewrite <- H52 in Bl.
  split; nra.
Qed.

Lemma round_positive_integer_significand (x : Q) (k : Z) :
  0 < x -> x / 2 ^ (Binary64.binade x - 52) == inject_Z k -> Binary64.round_positive x == x.
Proof.
  intros Hx Hk. unfold Binary64.round_positive.
  rewrite (nearest_even_integer _ k Hk), <- Hk.
  pose proof (pow2_pos (Binary64.binade x - 52)). field. lra.
Qed.

Lemma round_binary64_pos (x : Q) :
  0 < x -> Binary64.nearest x = Binary64.round_positive x.
Proof.
  intros H. unfold Binary64.nearest.
  assert ((x ?= 0) = Gt) as -> by now apply Qgt_alt.
  reflexivity.
Qed.

Lemma round_binary64_neg (x : Q) :
  x < 0 -> Binary64.nearest x = - Binary64.round_positive (- x).
Proof.
  intros H. unfold Binary64.nearest.
  assert ((x ?= 0) = Lt) as -> by now apply Qlt_alt.
  reflexivity.
Qed.

Lemma round_binary64_zero (x : Q) : x == 0 -> Binary64.nearest x = 0.
Proof.
  intros H. unfold Binary64.nearest.
  assert ((x ?= 0) = Eq) as -> by now apply Qeq_alt.
  reflexivity.
Qed.

Lemma round_binary64_mono (x y : Q) :
  x <= y -> Binary64.nearest x <= Binary64.nearest y.
Proof.
  intros Hxy.
  destruct (Q_dec x 0) as [[Hx|Hx]|Hx]; destruct (Q_dec y 0) as [[Hy|Hy]|Hy];
    rewrite ?(round_binary64_neg x), ?(round_binary64_pos x),
      ?(round_binary64_zero x), ?(round_binary64_neg y),
      ?(round_binary64_pos y), ?(round_binary64_zero y) by assumption;
    try (exfalso; lra).
  - assert (Binary64.round_positive (- y) <= Binary64.round_positive (- x))
      by (apply round_positive_mono; lra).
    lra.
  - pose proof (round_positive_pos (- x) ltac:(lra)).
    pose proof (round_positive_pos y Hy). lra.
  - pose proof (round_positive_pos (- x) ltac:(lra)). lra.
  - apply round_positive_mono; assumption.
  - pose proof (round_positive_pos y Hy). lra.
  - lra.
Qed.

Lemma round_positive_integer (z : Z) :
  (0 < z <= 2 ^ 53)%Z -> Binary64.round_positive (inject_Z z) == inject_Z z.
Proof.
  intros [Hz0 Hz]. set (x := inject_Z z).
  assert (0 < x) as Hx by (subst x; change 0 with (inject_Z 0); now rewrite <- Zlt_Qlt).
  destruct (binade_spec x Hx) as [Bl Bu].
  assert (1 <= x) as H1 by (subst x; change 1 with (inject_Z 1); rewrite <- Zle_Qle; lia).
  assert (x <= inject_Z (2 ^ 53)) as H53 by (subst x; now rewrite <- Zle_Qle).
  assert (0 <= Binary64.binade x)%Z as He0.
  { destruct (Z_le_gt_dec 0%Z (Binary64.binade x)) as [H|H]; [assumption|].
    assert (2 ^ (Binary64.binade x + 1) <= 2 ^ 0) by (apply pow2_le; lia).
    change (2 ^ 0) with 1%Q in *. lra. }
  assert (Binary64.binade x <= 53)%Z as He53.
  { destruct (Z_le_gt_dec (Binary64.binade x) 53%Z) as [H|H]; [assumption|].
    assert (2 ^ 54 <= 2 ^ Binary64.binade x) by (apply pow2_le; lia).
    rewrite pow2_Z in H53 by lia.
    assert (2 ^ 53 < 2 ^ 54) by (apply pow2_lt; lia). lra. }
  destruct (Z.eq_dec (Binary64.binade x) 53%Z) as [E|E].
  - apply (round_positive_integer_significand x (2 ^ 52) Hx).
    rewrite E. change (2 ^ (53 - 52)) with 2%Q.
    rewrite E in Bl. rewrite <- pow2_Z in Bl by lia.
    assert (x == inject_Z (2 ^ 53)) as -> by lra.
    reflexivity.
  - apply (round_positive_integer_significand x (z * 2 ^ (52 - Binary64.binade x)) Hx).
    rewrite inject_Z_mult, pow2_Z by lia. fold x.
    assert (2 ^ (52 - Binary64.binade x) * 2 ^ (Binary64.binade x - 52) == 1) as Hinv.
    { rewrite <- pow2_add.
      now replace (52 - Binary64.binade x + (Binary64.binade x - 52))%Z with 0%Z by lia. }
    pose proof (pow2_pos (Binary64.binade x - 52)).
    pose proof (pow2_pos (52 - Binary64.binade x)).
    set (u := 2 ^ (Binary64.binade x - 52)) in *. set (v := 2 ^ (52 - Binary64.binade x)) in *.
    apply Qmult_inj_r with (z := u); [lra|].
    assert (x / u * u == x) as -> by (field; lra).
    rewrite <- Qmult_assoc, Hinv. ring.
Qed.

Lemma round_binary64_integer (z : Z) :
  (Z.abs z <= 2 ^ 53)%Z -> Binary64.nearest (inject_Z z) == inject_Z z.
Proof.
  intros Hz. destruct (Z.lt_trichotomy z 0%Z) as [H | [-> | H]].
  - rewrite round_binary64_neg
      by (change 0 with (inject_Z 0); now rewrite <- Zlt_Qlt).
    rewrite <- inject_Z_opp, round_positive_integer by lia.
    rewrite inject_Z_opp. ring.
  - reflexivity.
  - rewrite round_binary64_pos
      by (change 0 with (inject_Z 0); now rewrite <- Zlt_Qlt).
    apply round_positive_integer. lia.
Qed.

Lemma round_binary64_near (x : Q) :
  Qabs (Binary64.nearest x - x) <= (1 # 2 ^ 53) * Qabs x.
Proof.
  change (1 # 2 ^ 53) with (1 # 9007199254740992).
  destruct (Q_dec x 0) as [[Hx|Hx]|Hx].
  - rewrite round_binary64_neg by assumption.
    rewrite (Qabs_neg x) by lra.
    destruct (round_positive_near (- x)) as [Hl Hu]; [lra|].
    change (1 # 2 ^ 53) with (1 # 9007199254740992) in Hl, Hu.
    apply Qabs_Qle_condition. split; lra.
  - rewrite round_binary64_pos by assumption.
    rewrite (Qabs_pos x) by lra.
    destruct (round_positive_near x Hx) as [Hl Hu].
    change (1 # 2 ^ 53) with (1 # 9007199254740992) in Hl, Hu.
    apply Qabs_Qle_condition. split; lra.
  - rewrite round_binary64_zero by assumption.
    assert (0 - x == 0) as -> by lra.
    change (Qabs 0) with 0. pose proof (Qabs_nonneg x). lra.
Qed.

(** [Binary64.nearest] is a model of binary64 rounding. *)
Lemma round_binary64_is_a_rounding : binary64_rounding Binary64.nearest.
Proof.
  constructor.
  - apply round_binary64_mono.
  - apply round_binary64_integer.
  - intros x _ _. apply round_binary64_near.
Qed.

Example one_third : Binary64.nearest (1 # 3) == 6004799503160661 # 18014398509481984.
Proof. vm_compute. reflexivity. Qed.
Example tenth_times_three :
  Binary64.nearest (3 * Binary64.nearest (1 # 10)) == 5404319552844596 # 18014398509481984.
Proof. vm_compute. reflexivity. Qed.

End Binary64Facts.


Lemma reflect_unsigned_long_le (default v bound : N) :
  (default <= 2147483647)%N -> (v <= bound)%N ->
  (reflect_unsigned_long default v <= N.max v default)%N.
Proof.
  intros Hd Hv. unfold reflect_unsigned_long.
  destruct (N.leb_spec v 2147483647); lia.
Qed.

(** A source of width zero: [m / 0] is +Infinity, or NaN when [m] is 0
    too. *)
Lemma thumb_scale_zero_width (P : Platform) (m : N) :
  thumb_scale P m 0 = if (m =? 0)%N then NaN else Finite 1.
Proof.
  unfold thumb_scale, Num.div, Num.of_N. cbn [Z.of_N inject_Z].
  change (Num.sign (inject_Z 0)) with Eq. cbv iota.
  destruct (N.eqb_spec m 0) as [->|Hm0]; [reflexivity|].
  assert (Num.sign (inject_Z (Z.of_N m)) = Gt) as ->; [|reflexivity].
  apply Qgt_alt. change 0%Q with (inject_Z 0). rewrite <- Zlt_Qlt. lia.
Qed.




Example thumbnail_of_a_large_photo :
  let c := thumbCanvas Demo.platform
             {| width := 4032; height := 3024; picture := Blank |} 240 in
  width c = 240%N /\ height c = 180%N.
Proof. vm_compute. split; reflexivity. Qed.

Example thumbnail_of_a_small_image :
  let c := tempCanvas Demo.platform
             {| naturalWidth := 100; naturalHeight := 50;
                image_source := blob_of_file Demo.logo |} 240 in
  width c = 100%N /\ height c = 50%N.
Proof. vm_compute. split; reflexivity. Qed.

(** * More of the script *)

(** ** The name of a download *)

Lemma no_dot_append (a b : string) :
  JsString.no_dot (a +:+ b) = JsString.no_dot a && JsString.no_dot b.
Proof.
  induction a as [|c a IH]; [reflexivity|].
  change (String c a +:+ b) with (String c (a +:+ b)). cbn [JsString.no_dot].
  destruct (Ascii.eqb c "."); [reflexivity | exact IH].
Qed.

Lemma strip_extension_last (b e : string) :
  e <> "" -> JsString.no_dot e = true ->
  JsString.strip_extension (b +:+ "." +:+ e) = b.
Proof.
  intros He Hd.
  assert (JsString.nonempty e = true) as Hn
    by (destruct e; [contradiction | reflexivity]).
  induction b as [|c b IH].
  - change ("" +:+ "." +:+ e) with (String "." e). cbn [JsString.strip_extension].
    now rewrite Hn, Hd.
  - change (String c b +:+ "." +:+ e) with (String c (b +:+ "." +:+ e)).
    cbn [JsString.strip_extension]. rewrite IH.
    rewrite no_dot_append. change ("." +:+ e) with (String "." e).
    cbn [JsString.no_dot Ascii.eqb].
    replace (Ascii.eqb "." ".") with true by reflexivity.
    now rewrite !andb_false_r.
Qed.

Lemma strip_extension_no_dot (s : string) :
  JsString.no_dot s = true -> JsString.strip_extension s = s.
Proof.
  induction s as [|c s IH]; [reflexivity|].
  cbn [JsString.no_dot JsString.strip_extension].
  destruct (Ascii.eqb c "."); [discriminate|].
  intros H. cbn [andb]. now rewrite IH.
Qed.

Lemma strip_extension_trailing_dot (b : string) :
  JsString.strip_extension (b +:+ ".") = b +:+ ".".
Proof.
  induction b as [|c b IH]; [reflexivity|].
  change (String c b +:+ ".") with (String c (b +:+ ".")).
  cbn [JsString.strip_extension]. rewrite IH, no_dot_append.
  change (JsString.no_dot ".") with false. now rewrite !andb_false_r.
Qed.

Lemma last_dot (s : string) :
  JsString.no_dot s = false ->
  exists b e, s = b +:+ "." +:+ e /\ JsString.no_dot e = true.
Proof.
  induction s as [|c s IH]; [discriminate|].
  cbn [JsString.no_dot]. destruct (Ascii.eqb c ".") eqn:Hc.
  - intros _. apply Ascii.eqb_eq in Hc as ->.
    destruct (JsString.no_dot s) eqn:Hs.
    + exists "", s. auto.
    + destruct (IH eq_refl) as (b & e & -> & He). exists (String "." b), e. auto.
  - intros H. destruct (IH H) as (b & e & -> & He). exists (String c b), e. auto.
Qed.

Lemma strip_extension_fixed (s : string) :
  JsString.strip_extension s = s <->
  JsString.no_dot s = true \/ exists b, s = b +:+ ".".
Proof.
  split.
  - intros H. destruct (JsString.no_dot s) eqn:Hd; [now left | right].
    destruct (last_dot s Hd) as (b & e & -> & He).
    destruct e as [|c e]; [now exists b|].
    rewrite strip_extension_last in H by (congruence || assumption).
    apply (f_equal String.length) in H. rewrite length_append in H.
    cbn [String.length] in H.
    change ("." +:+ String c e) with (String "." (String c e)) in H.
    cbn [String.length] in H. lia.
  - intros [H | [b ->]];
      [now apply strip_extension_no_dot | apply strip_extension_trailing_dot].
Qed.

(** X1.  [addDownloadLink] names a download after the file without its
    last extension: for a name [b.e], where [e] is not empty and holds no
    dot, the row it appends has the label and the download name [b.jpg],
    and [b] as the alternative text of its thumbnail. *)
Theorem download_name_drops_the_last_extension
    (b e : string) (blob : Blob) (t : option string) (s : State) :
  e <> "" -> JsString.no_dot e = true ->
  exists s',
    addDownloadLink (b +:+ "." +:+ e) blob t s = Finished (Ok tt) s'
    /\ output s' =
       output s ++
       [OutputItem
          match t with
          | Some d => if truthy d then Some (d, b) else None
          | None => None
          end
          (b +:+ ".jpg") (next_url s) (b +:+ ".jpg")].
Proof.
  intros He Hd. eexists. split; [apply addDownloadLink_eq|].
  unfold linked.
  cbn [output set_output set_objectUrls issued set_next_url set_blob_store].
  now rewrite strip_extension_last.
Qed.

Lemma download_name_drops_the_last_extension_witness :
  exists s',
    addDownloadLink "archive.tar.gz" (blob_of_file Demo.logo) None initial_state
      = Finished (Ok tt) s'
    /\ output s' = [OutputItem None "archive.tar.jpg" 0%N "archive.tar.jpg"].
Proof.
  apply (download_name_drops_the_last_extension "archive.tar" "gz"
           (blob_of_file Demo.logo) None initial_state).
  - discriminate.
  - reflexivity.
Defined.

(** X2.  The names that [addDownloadLink] keeps whole are the names
    without a dot and the names that end with a dot: for these, and for no
    other, the base name is the name itself, and the row is labelled with
    the name followed by [.jpg]. *)
Theorem download_name_of_a_name_without_extension
    (n : string) (blob : Blob) (t : option string) (s : State) :
  (JsString.strip_extension n = n <-> JsString.no_dot n = true \/ exists b, n = b +:+ ".")
  /\ (JsString.strip_extension n = n ->
      exists s',
        addDownloadLink n blob t s = Finished (Ok tt) s'
        /\ output s' =
           output s ++
           [OutputItem
              match t with
              | Some d => if truthy d then Some (d, n) else None
              | None => None
              end
              (n +:+ ".jpg") (next_url s) (n +:+ ".jpg")]).
Proof.
  split; [apply strip_extension_fixed|].
  intros H. eexists. split; [apply addDownloadLink_eq|].
  unfold linked.
  cbn [output set_output set_objectUrls issued set_next_url set_blob_store].
  now rewrite H.
Qed.

Lemma download_name_of_a_name_without_extension_witness :
  JsString.strip_extension "photo." = "photo."
  /\ exists s',
       addDownloadLink "photo." (blob_of_file Demo.logo) None initial_state
         = Finished (Ok tt) s'
       /\ output s' = [OutputItem None "photo..jpg" 0%N "photo..jpg"].
Proof.
  destruct (download_name_of_a_name_without_extension "photo."
              (blob_of_file Demo.logo) None initial_state) as [H1 H2].
  assert (JsString.strip_extension "photo." = "photo.") as H.
  { apply H1. right. now exists "photo". }
  split; [exact H | exact (H2 H)].
Defined.

(** ** The size of a thumbnail *)

Section ThumbnailSize.
Variable P : Platform.
Hypothesis Hfl : binary64_rounding (fl P).
Local Open Scope Q_scope.





End ThumbnailSize.






Lemma thumb_side_zero (P : Platform) (q : Q) :
  binary64_rounding (fl P) ->
  thumb_side P 0 (Finite q) = Finite (inject_Z (Z.of_N 0)).
Proof.
  intros Hfl. unfold thumb_side, Num.mul, Num.round, Num.of_N.
  do 2 f_equal.
  assert (fl P (inject_Z (Z.of_N 0) * q) == 0)%Q as Hx.
  { apply (fl_zero (fl P) Hfl). change (inject_Z (Z.of_N 0)) with 0%Q. ring. }
  apply round_to; rewrite Hx; change (inject_Z (Z.of_N 0)) with 0%Q; lra.
Qed.

(** X5.  The two thumbnail entry points differ on an image without a
    width or without a height.  [createThumbnailDataUrl] returns [null]
    for it; [createThumbnailFromBlob] has no such check: it makes a canvas
    with a side of 0 and returns what [toDataURL] gives for that canvas. *)
Theorem blob_thumbnail_has_no_check_for_an_empty_image
    (P : Platform) (img : Image) (blob : Blob) (pic : Picture) (m : N) (s : State) :
  binary64_rounding (fl P) ->
  decodeImage P blob = Some img ->
  naturalWidth img = 0%N \/ ((0 < naturalWidth img)%N /\ naturalHeight img = 0%N) ->
  let c := tempCanvas P img m in
  (width c = 0%N \/ height c = 0%N)
  /\ alone (createThumbnailFromBlob P blob m) s =
     (toDataURL P c "image/jpeg" (7 # 10), transient blob s)
  /\ createThumbnailDataUrl P
       {| width := naturalWidth img; height := naturalHeight img; picture := pic |}
       m s = Finished (Ok None) s.
Proof.
  intros Hfl Hd Hz c. split; [|split].
  - subst c. unfold tempCanvas. cbn [width height].
    destruct Hz as [Hw | [Hw Hh]].
    + left. rewrite Hw, thumb_scale_zero_width.
      destruct (m =? 0)%N.
      * reflexivity.
      * rewrite (thumb_side_zero P 1 Hfl). reflexivity.
    + right. rewrite Hh.
      destruct (thumb_scale_positive_width P Hfl m _ Hw) as (q & -> & _).
      rewrite (thumb_side_zero P q Hfl). reflexivity.
  - rewrite createThumbnailFromBlob_eq, Hd. reflexivity.
  - unfold createThumbnailDataUrl. cbn [width height].
    destruct Hz as [-> | [_ ->]]; [reflexivity|].
    now rewrite orb_true_r.
Qed.

Lemma blob_thumbnail_has_no_check_for_an_empty_image_witness :
  let c := tempCanvas Faulty.sizeless
             {| naturalWidth := 0; naturalHeight := 600;
                image_source := blob_of_file Demo.logo |} 240 in
  (width c = 0%N \/ height c = 0%N)
  /\ fst (alone (createThumbnailFromBlob Faulty.sizeless (blob_of_file Demo.logo) 240)
            initial_state) = Ok "data:,".
Proof.
  destruct (blob_thumbnail_has_no_check_for_an_empty_image Faulty.sizeless
              {| naturalWidth := 0; naturalHeight := 600;
                 image_source := blob_of_file Demo.logo |}
              (blob_of_file Demo.logo) Blank 240 initial_state
              round_binary64_is_a_rounding eq_refl (or_introl eq_refl))
    as (H1 & H2 & _).
  split; [exact H1|]. rewrite H2. vm_compute. reflexivity.
Defined.

(** ** Download links on the page *)

Lemma JsSet_delete_twice (u : N) (l : list N) :
  JsSet.delete u (JsSet.delete u l) = JsSet.delete u l.
Proof.
  unfold JsSet.delete. induction l as [|x l IH]; [reflexivity|].
  rewrite (filter_cons _ x l). destruct (decide (x ≠ u)) as [Hx|Hx].
  - rewrite filter_cons, decide_True by assumption. now rewrite IH.
  - exact IH.
Qed.

Section Links.
Variable P : Platform.

Lemma step_click (pg : Page) (i : nat) :
  step P pg (ClickDownload i) =
  {| page :=
       match output (page pg) !! i with
       | Some (OutputItem _ _ href _) =>
           set_downloads (fun d => d ++ [(href, blob_store (page pg) !! href)])
             (set_timers (fun t => t ++ [href]) (page pg))
       | _ => page pg
       end;
     suspended := suspended pg |}.
Proof. cbn [step handle]. rewrite click_eq. reflexivity. Qed.

Lemma step_fire (pg : Page) (k : nat) :
  step P pg (TimerFires k) =
  {| page :=
       match timers (page pg) !! k with
       | Some u =>
           set_objectUrls (JsSet.delete u)
             (revoked u (set_timers (fun t => take k t ++ drop (S k) t) (page pg)))
       | None => page pg
       end;
     suspended := suspended pg |}.
Proof. cbn [step handle]. rewrite fire_eq. reflexivity. Qed.

Lemma step_unload (pg : Page) :
  step P pg BeforeUnload =
  {| page := revoked_all (page pg); suspended := suspended pg |}.
Proof. cbn [step handle]. rewrite revokeAll_eq. reflexivity. Qed.

Lemma Inv_run (events : list Event) : Inv (page (run P events)).
Proof. apply PageInv_run. Qed.

Lemma Inv_step (events : list Event) (e : Event) :
  Inv (page (step P (run P events) e)).
Proof. rewrite <- run_snoc. apply Inv_run. Qed.

Lemma row_href (s : State) (i : nat) thumb label (u : N) dl :
  output s !! i = Some (OutputItem thumb label u dl) -> u ∈ hrefs (output s).
Proof.
  intros Hi. apply elem_of_hrefs. exists thumb, label, dl.
  apply list_elem_of_lookup. eauto.
Qed.

Lemma clicks_eq (i n : nat) (pg : Page) thumb label (u : N) dl :
  output (page pg) !! i = Some (OutputItem thumb label u dl) ->
  fold_left (step P) (repeat (ClickDownload i) n) pg =
  {| page :=
       set_downloads (fun d => d ++ repeat (u, blob_store (page pg) !! u) n)
         (set_timers (fun t => t ++ repeat u n) (page pg));
     suspended := suspended pg |}.
Proof.
  revert pg. induction n as [|n IH]; intros pg Hi.
  - cbn [repeat fold_left]. destruct pg as [s w]. cbn [page suspended].
    f_equal. destruct s. unfold set_downloads, set_timers. simpl.
    now rewrite !app_nil_r.
  - cbn [repeat fold_left]. rewrite step_click, Hi. rewrite IH.
    + cbn [page suspended]. f_equal.
      unfold set_downloads, set_timers. simpl.
      f_equal; now rewrite <- app_assoc.
    + cbn [page]. exact Hi.
Qed.

Lemma fires_eq (u : N) (n : nat) (pg : Page) (t0 : list N) :
  timers (page pg) = t0 ++ repeat u n ->
  fold_left (step P) (repeat (TimerFires (length t0)) n) pg =
  {| page :=
       set_objectUrls (fun l => if n is O then l else JsSet.delete u l)
         (set_revocations (fun l => l ++ repeat u n)
            (set_blob_store (fun m => if n is O then m else delete u m)
               (set_timers (fun _ => t0) (page pg))));
     suspended := suspended pg |}.
Proof.
  revert pg. induction n as [|n IH]; intros pg Ht.
  - cbn [repeat fold_left]. destruct pg as [s w]. cbn [page suspended] in *.
    f_equal. destruct s. unfold set_objectUrls, set_revocations, set_blob_store,
      set_timers. simpl in *. rewrite app_nil_r in *. now subst.
  - cbn [repeat fold_left]. rewrite step_fire, Ht.
    rewrite lookup_app_r, Nat.sub_diag by lia. cbn [repeat lookup].
    change ((u :: repeat u n) !! 0%nat) with (Some u).
    rewrite IH.
    + cbn [page suspended]. f_equal.
      unfold set_objectUrls, set_revocations, set_blob_store, set_timers, revoked.
      simpl. f_equal.
      * destruct n; [reflexivity|]. apply map_eq. intros v.
        destruct (decide (v = u)) as [->|Hv].
        -- now rewrite !lookup_delete_eq.
        -- now rewrite !lookup_delete_ne.
      * now rewrite <- app_assoc.
      * destruct n; [reflexivity|]. apply JsSet_delete_twice.
    + simpl. rewrite Ht. cbn [repeat]. rewrite take_app_length.
      f_equal. rewrite cons_middle, app_assoc.
      replace (S (length t0)) with (length (t0 ++ [u]))
        by (rewrite length_app; simpl; lia).
      apply drop_app_length.
Qed.

End Links.

(** X6.  Teardown, in any state that the page can reach: the tracker set
    is empty afterwards, the rows stay, and no download link of the page
    resolves any more. *)
Theorem teardown_leaves_no_live_download_link (P : Platform) (events : list Event) :
  let s := page (run P events) in
  let s' := page (step P (run P events) BeforeUnload) in
  objectUrls s' = []
  /\ output s' = output s
  /\ (forall u, u ∈ hrefs (output s') -> blob_store s' !! u = None).
Proof.
  intros s s'. pose proof (Inv_step P events BeforeUnload) as HI. fold s' in HI.
  assert (s' = revoked_all s) as Hs by (subst s'; now rewrite step_unload).
  assert (objectUrls s' = []) as Ht by (now rewrite Hs).
  split; [exact Ht|]. split.
  - rewrite Hs. unfold revoked_all. cbn [output set_objectUrls].
    now destruct (revoked_all_fields (objectUrls s) s) as (_ & _ & _ & _ & -> & _).
  - intros u Hu. destruct (inv_links s' HI u Hu) as [H|H].
    + rewrite Ht in H. inversion H.
    + now apply (inv_revoked_dead s' HI).
Qed.

(** X7.  A click on a download link, in any state that the page can
    reach: the browser follows the link to what its handle resolves to at
    that moment, and the listener schedules one timeout and nothing else
    (no handle is revoked or forgotten by the click itself, no row
    changes).  The link resolves to a blob exactly when its handle is
    still tracked, and to nothing exactly when its handle was revoked. *)
Theorem download_link_works_while_its_handle_is_tracked
    (P : Platform) (events : list Event) (i : nat)
    (thumb : option (string * string)) (label : string) (u : N) (dl : string) :
  let pg := run P events in
  let s := page pg in
  output s !! i = Some (OutputItem thumb label u dl) ->
  let s' := page (step P pg (ClickDownload i)) in
  downloads s' = downloads s ++ [(u, blob_store s !! u)]
  /\ timers s' = timers s ++ [u]
  /\ (is_Some (blob_store s !! u) <-> u ∈ objectUrls s)
  /\ (blob_store s !! u = None <-> u ∈ revocations s)
  /\ objectUrls s' = objectUrls s
  /\ revocations s' = revocations s
  /\ output s' = output s.
Proof.
  intros pg s Hi s'. pose proof (Inv_run P events) as HI. fold pg s in HI.
  assert (s' = set_downloads (fun d => d ++ [(u, blob_store s !! u)])
                 (set_timers (fun t => t ++ [u]) s)) as ->.
  { subst s'. rewrite step_click. fold s. now rewrite Hi. }
  pose proof (row_href s i thumb label u dl Hi) as Hh.
  assert (u ∈ revocations s -> blob_store s !! u = None) as Hdead
    by apply (inv_revoked_dead s HI).
  assert (u ∈ objectUrls s -> is_Some (blob_store s !! u)) as Hlive
    by apply (inv_live s HI).
  split; [reflexivity|]. split; [reflexivity|]. split; [|split; [|auto]].
  - split; [|assumption]. intros Hs.
    destruct (inv_links s HI u Hh) as [H|H]; [assumption|].
    rewrite (Hdead H) in Hs. now destruct Hs.
  - split; [|assumption]. intros Hn.
    destruct (inv_links s HI u Hh) as [H|H]; [|assumption].
    apply Hlive in H. rewrite Hn in H. now destruct H.
Qed.

Lemma download_link_works_while_its_handle_is_tracked_witness :
  let pg := run Demo.platform (SelectFiles [Demo.logo] :: settles 5) in
  downloads (page (step Demo.platform pg (ClickDownload 1))) =
    [(1%N, Some {| blob_type := "image/jpeg"; blob_bytes := [4032%N; 3024%N] |})].
Proof.
  assert (output (page (run Demo.platform (SelectFiles [Demo.logo] :: settles 5)))
            !! 1%nat
          = Some (OutputItem (Some ("data:image/jpeg;240x180", "logo")) "logo.jpg"
                    1%N "logo.jpg")) as Hi by (vm_compute; reflexivity).
  destruct (download_link_works_while_its_handle_is_tracked Demo.platform
              (SelectFiles [Demo.logo] :: settles 5) 1 _ _ _ _ Hi) as (H & _).
  cbv zeta. rewrite H. vm_compute. reflexivity.
Defined.

(** X8.  When the timeout of a download link has fired, the row is
    still on the page but its handle is revoked and forgotten: the next
    click on the link downloads nothing. *)
Theorem download_link_is_dead_after_its_timeout
    (P : Platform) (events : list Event) (i k : nat)
    (thumb : option (string * string)) (label : string) (u : N) (dl : string) :
  let pg := run P events in
  let s := page pg in
  output s !! i = Some (OutputItem thumb label u dl) ->
  timers s !! k = Some u ->
  let pg1 := step P pg (TimerFires k) in
  let pg2 := step P pg1 (ClickDownload i) in
  output (page pg1) = output s
  /\ blob_store (page pg1) !! u = None
  /\ (u ∉ objectUrls (page pg1))
  /\ downloads (page pg2) = downloads s ++ [(u, None)].
Proof.
  intros pg s Hi Hk pg1 pg2.
  assert (page pg1 =
          set_objectUrls (JsSet.delete u)
            (revoked u (set_timers (fun t => take k t ++ drop (S k) t) s))) as H1.
  { subst pg1. rewrite step_fire. fold s. now rewrite Hk. }
  assert (output (page pg1) = output s) as Ho by (now rewrite H1).
  assert (blob_store (page pg1) !! u = None) as Hb.
  { rewrite H1. simpl. apply lookup_delete_eq. }
  split; [exact Ho|]. split; [exact Hb|]. split.
  - rewrite H1. simpl. rewrite elem_of_JsSet_delete. tauto.
  - subst pg2. rewrite step_click, Ho, Hi. cbn [page downloads set_downloads set_timers].
    rewrite Hb. now rewrite H1.
Qed.

Lemma download_link_is_dead_after_its_timeout_witness :
  let pg := run Demo.platform
              (SelectFiles [Demo.logo] :: settles 5 ++ [ClickDownload 1]) in
  downloads (page (step Demo.platform (step Demo.platform pg (TimerFires 0))
                     (ClickDownload 1)))
  = downloads (page pg) ++ [(1%N, None)].
Proof.
  assert (output (page (run Demo.platform
            (SelectFiles [Demo.logo] :: settles 5 ++ [ClickDownload 1]))) !! 1%nat
          = Some (OutputItem (Some ("data:image/jpeg;240x180", "logo")) "logo.jpg"
                    1%N "logo.jpg")) as Hi by (vm_compute; reflexivity).
  assert (timers (page (run Demo.platform
            (SelectFiles [Demo.logo] :: settles 5 ++ [ClickDownload 1]))) !! 0%nat
          = Some 1%N) as Hk by (vm_compute; reflexivity).
  exact (proj2 (proj2 (proj2
    (download_link_is_dead_after_its_timeout Demo.platform
       (SelectFiles [Demo.logo] :: settles 5 ++ [ClickDownload 1]) 1 0 _ _ _ _
       Hi Hk)))).
Defined.

(** X9.  Every click schedules a revocation of its own: [n] clicks on
    one link, followed by their [n] timeouts, revoke the handle [n]
    times; each click follows the link to what the handle resolved to
    before the first click. *)
Theorem every_click_schedules_its_own_revocation
    (P : Platform) (events : list Event) (i n : nat)
    (thumb : option (string * string)) (label : string) (u : N) (dl : string) :
  let pg := run P events in
  let s := page pg in
  output s !! i = Some (OutputItem thumb label u dl) ->
  let pg' := fold_left (step P)
               (repeat (ClickDownload i) n
                ++ repeat (TimerFires (length (timers s))) n) pg in
  revocations (page pg') = revocations s ++ repeat u n
  /\ timers (page pg') = timers s
  /\ downloads (page pg') = downloads s ++ repeat (u, blob_store s !! u) n.
Proof.
  intros pg s Hi pg'. subst pg'. rewrite fold_left_app.
  rewrite (clicks_eq P i n pg thumb label u dl Hi). fold s.
  rewrite (fires_eq P u n _ (timers s)) by reflexivity.
  cbn [page]. repeat split.
Qed.

Lemma every_click_schedules_its_own_revocation_witness :
  let pg := run Demo.platform (SelectFiles [Demo.logo] :: settles 5) in
  revocations
    (page (fold_left (step Demo.platform)
             (repeat (ClickDownload 1) 3 ++ repeat (TimerFires 0) 3) pg))
  = revocations (page pg) ++ [1%N; 1%N; 1%N].
Proof.
  assert (output (page (run Demo.platform (SelectFiles [Demo.logo] :: settles 5)))
            !! 1%nat
          = Some (OutputItem (Some ("data:image/jpeg;240x180", "logo")) "logo.jpg"
                    1%N "logo.jpg")) as Hi by (vm_compute; reflexivity).
  exact (proj1 (every_click_schedules_its_own_revocation Demo.platform
                  (SelectFiles [Demo.logo] :: settles 5) 1 3 _ _ _ _ Hi)).
Defined.

(** ** The ways a conversion fails *)

Section Failures.
Variable P : Platform.

Lemma alone_convertHeicFileToJpeg (f : File) (s : State) :
  alone (convertHeicFileToJpeg P f) s =
  let s1 := logged ("(HEIC) Converting " +:+ name f +:+ "...") s in
  match heicTo P f "image/jpeg" (9 # 10) with
  | Throw e => (Throw e, s1)
  | Ok jpeg =>
      match
        match decodeImage P jpeg with
        | Some img => toDataURL P (tempCanvas P img 240) "image/jpeg" (7 # 10)
        | None => Throw (new_Error "Failed to load image")
        end
      with
      | Throw e => (Throw e, transient jpeg s1)
      | Ok d => (Ok tt, linked (name f) jpeg (Some d) (transient jpeg s1))
      end
  end.
Proof.
  unfold convertHeicFileToJpeg. cbv zeta.
  rewrite alone_bind, alone_appendMessage, alone_bind, alone_await, alone_settle.
  destruct (heicTo P f "image/jpeg" (9 # 10)) as [jpeg|e]; [|reflexivity].
  rewrite alone_bind, alone_await, createThumbnailFromBlob_eq.
  destruct (decodeImage P jpeg) as [img|]; [|reflexivity].
  destruct (toDataURL P _ _ _); [apply alone_addDownloadLink | reflexivity].
Qed.

Lemma alone_convertImageFileToJpeg (f : File) (s : State) :
  alone (convertImageFileToJpeg P f) s =
  let s1 := logged ("(Standard image) Reading " +:+ name f +:+ "...") s in
  match decodeImage P (blob_of_file f) with
  | None => (Throw (new_Error "Failed to load image"), issued (blob_of_file f) s1)
  | Some img =>
      let s3 := set_canvas (draw_on_canvas img) (transient (blob_of_file f) s1) in
      let c := canvas s3 in
      match
        if ((width c =? 0) || (height c =? 0))%N then Ok None
        else match toDataURL P (thumbCanvas P c 240) "image/jpeg" (7 # 10) with
             | Ok d => Ok (Some d)
             | Throw e => Throw e
             end
      with
      | Throw e => (Throw e, s3)
      | Ok t =>
          match toBlob P c "image/jpeg" (9 # 10) with
          | None => (Throw (new_Error "Failed to create JPEG blob"), s3)
          | Some jpeg => (Ok tt, linked (name f) jpeg t s3)
          end
      end
  end.
Proof.
  unfold convertImageFileToJpeg. cbv zeta.
  rewrite alone_bind, alone_appendMessage.
  set (s1 := logged _ s).
  rewrite alone_bind, alone_createObjectURL, alone_bind, alone_await,
    alone_loadImage, load_result_issued.
  destruct (decodeImage P (blob_of_file f)) as [img|]; [|reflexivity].
  rewrite alone_bind. unfold alone at 1, revokeObjectURL, modify. cbn [complete].
  fold (revoked (next_url s1) (issued (blob_of_file f) s1)).
  fold (transient (blob_of_file f) s1).
  rewrite alone_bind. unfold alone at 1, modify. cbn [complete].
  set (s3 := set_canvas _ _).
  rewrite alone_bind. unfold alone at 1, gets. cbn [complete].
  rewrite alone_bind. unfold createThumbnailDataUrl.
  destruct (_ || _)%bool.
  - unfold alone at 1, ret. cbn [complete].
    rewrite alone_bind, alone_await. unfold canvasToJpegBlob. rewrite alone_settle.
    destruct (toBlob P _ _ _); [apply alone_addDownloadLink | reflexivity].
  - rewrite alone_bind. unfold alone at 1, settle. cbn [complete].
    destruct (toDataURL P _ _ _) as [d|e]; [|reflexivity].
    unfold alone at 1, ret. cbn [complete].
    rewrite alone_bind, alone_await. unfold canvasToJpegBlob. rewrite alone_settle.
    destruct (toBlob P _ _ _); [apply alone_addDownloadLink | reflexivity].
Qed.

End Failures.

Lemma store_after_transient (b : Blob) (s : State) (v : N) :
  blob_store (transient b s) !! v =
  if decide (v = next_url s) then None else blob_store s !! v.
Proof.
  unfold transient, revoked, issued. simpl.
  destruct (decide (v = next_url s)) as [->|Hv].
  - apply lookup_delete_eq.
  - now rewrite lookup_delete_ne, lookup_insert_ne.
Qed.

Lemma store_after_linked (n : string) (b : Blob) (t : option string)
    (s : State) (v : N) :
  blob_store (linked n b t s) !! v =
  if decide (v = next_url s) then Some b else blob_store s !! v.
Proof.
  unfold linked, issued. simpl.
  destruct (decide (v = next_url s)) as [->|Hv].
  - apply lookup_insert_eq.
  - now rewrite lookup_insert_ne.
Qed.

Lemma tracker_after_linked (n : string) (b : Blob) (t : option string) (s : State) :
  objectUrls (linked n b t s) = JsSet.add (next_url s) (objectUrls s).
Proof. reflexivity. Qed.

(** X10.  Except where the standard path fails to load the image, the
    conversion of a file that nothing interrupts leaves no object URL
    behind: a URL that resolves after the file either is tracked -- it is
    the handle of the new download link -- or resolved to the same blob
    before the file.  This holds for every way the file ends: the HEIC
    decoder rejects, the thumbnail fails, the encoder fails, or the file
    is converted. *)
Theorem conversion_leaks_no_url_unless_the_load_fails
    (P : Platform) (f : File) (s : State) :
  isHeic P f = Ok true \/ decodeImage P (blob_of_file f) <> None ->
  let s' := snd (alone (process_file P f) s) in
  forall v b, blob_store s' !! v = Some b ->
    v ∈ objectUrls s' \/ blob_store s !! v = Some b.
Proof.
  intros Hroute s' v b. subst s'.
  destruct (process_file_resources P f s) as (Hstore & Htracker & _).
  rewrite Hstore, Htracker, convert_file_eq.
  assert (forall s0 : State,
    blob_store s0 = blob_store s ->
    (let r := alone (convertImageFileToJpeg P f) s0 in
     decodeImage P (blob_of_file f) <> None ->
     blob_store (snd r) !! v = Some b ->
     v ∈ objectUrls (snd r) \/ blob_store s !! v = Some b)) as Hstd.
  { intros s0 Hs0 r Hd. subst r. rewrite alone_convertImageFileToJpeg. cbv zeta.
    destruct (decodeImage P (blob_of_file f)) as [img|]; [|congruence].
    match goal with |- context [if ?c then _ else _] => destruct c end;
      [|destruct (toDataURL P _ _ _)];
      try destruct (toBlob P _ _ _); cbn [snd];
      rewrite ?store_after_linked, ?tracker_after_linked;
      cbn [blob_store set_canvas next_url objectUrls];
      repeat match goal with
             | |- context [decide (v = ?u)] => destruct (decide (v = u)) as [->|?]
             end;
      try (intros _; left; apply elem_of_JsSet_add; now right);
      rewrite ?store_after_transient;
      repeat match goal with
             | |- context [decide (v = ?u)] => destruct (decide (v = u)) as [->|?]
             end;
      try discriminate; cbn [blob_store logged set_output]; rewrite ?Hs0; auto. }
  destruct (isHeic P f) as [[|]|e] eqn:Hc.
  - rewrite alone_convertHeicFileToJpeg. cbv zeta.
    destruct (heicTo P f "image/jpeg" (9 # 10)) as [jpeg|e]; [|cbn; auto].
    match goal with |- context [match ?r with Ok _ => _ | Throw _ => _ end] =>
      destruct r as [d|e] end; cbn [snd logged blob_store set_output objectUrls].
    + rewrite store_after_linked, tracker_after_linked.
      destruct (decide _) as [->|Hv].
      * intros _. left. apply elem_of_JsSet_add. now right.
      * rewrite store_after_transient. destruct (decide _); [discriminate | auto].
    + rewrite store_after_transient. destruct (decide _); [discriminate | auto].
  - assert (decodeImage P (blob_of_file f) <> None) as Hd
      by (destruct Hroute; [discriminate | assumption]).
    exact (Hstd s eq_refl Hd).
  - assert (decodeImage P (blob_of_file f) <> None) as Hd
      by (destruct Hroute; [discriminate | assumption]).
    exact (Hstd (warned e s) eq_refl Hd).
Qed.

Lemma conversion_leaks_no_url_unless_the_load_fails_witness :
  let s' := snd (alone (process_file Demo.platform Demo.photo) initial_state) in
  1%N ∈ objectUrls s'
  \/ blob_store initial_state !! 1%N =
     Some {| blob_type := "image/jpeg"; blob_bytes := [1%N] |}.
Proof.
  apply (conversion_leaks_no_url_unless_the_load_fails Demo.platform Demo.photo
           initial_state (or_introl eq_refl) 1%N
           {| blob_type := "image/jpeg"; blob_bytes := [1%N] |}).
  vm_compute. reflexivity.
Defined.

(** X11.  A HEIC file whose JPEG was decoded but whose thumbnail cannot
    be made -- the JPEG does not load as an image, or [toDataURL] throws --
    is reported as failed, with the reason of the thumbnail: the loop body
    appends the failure line, no row appears, no handle is registered, and
    the URL of the thumbnail is revoked.  The converted JPEG cannot be
    downloaded.  When the value thrown is [undefined] or [null], the
    [catch] block throws instead of appending the failure line. *)
Theorem heic_file_without_thumbnail_is_reported_as_failed
    (P : Platform) (f : File) (jpeg : Blob) (e : JsValue) (s : State) :
  isHeic P f = Ok true ->
  heicTo P f "image/jpeg" (9 # 10) = Ok jpeg ->
  match decodeImage P jpeg with
  | Some img => toDataURL P (tempCanvas P img 240) "image/jpeg" (7 # 10)
  | None => Throw (new_Error "Failed to load image")
  end = Throw e ->
  let r := alone (process_file P f) s in
  match error_text e with
  | Ok reason =>
      fst r = Ok tt
      /\ output (snd r) =
         output s ++
         [OutputLog ("(HEIC) Converting " +:+ name f +:+ "...");
          OutputLog ("Error converting " +:+ name f +:+ ": " +:+ reason)]
  | Throw raised =>
      fst r = Throw raised
      /\ output (snd r) =
         output s ++ [OutputLog ("(HEIC) Converting " +:+ name f +:+ "...")]
  end
  /\ objectUrls (snd r) = objectUrls s
  /\ revocations (snd r) = revocations s ++ [next_url s]
  /\ (forall v, blob_store (snd r) !! v =
                if decide (v = next_url s) then None else blob_store s !! v).
Proof.
  intros Hc Hj Ht r. subst r.
  rewrite process_file_eq, convert_file_eq, Hc, alone_convertHeicFileToJpeg, Hj.
  cbv zeta. rewrite Ht.
  destruct (error_text e) as [reason|raised]; cbn [fst snd];
    (split; [split; [reflexivity|] | split; [reflexivity|split; [reflexivity|]]]).
  - unfold reported, caught, logged, transient, revoked, issued. simpl.
    now rewrite <- app_assoc.
  - intros v. unfold reported, caught, logged.
    cbn [blob_store set_output set_console].
    apply (store_after_transient jpeg (set_output _ s) v).
  - reflexivity.
  - intros v. unfold caught.
    cbn [blob_store set_output set_console].
    apply (store_after_transient jpeg (logged _ s) v).
Qed.

Lemma heic_file_without_thumbnail_is_reported_as_failed_witness :
  let r := alone (process_file Faulty.platform Demo.photo) initial_state in
  output (snd r) =
    [OutputLog "(HEIC) Converting photo.HEIC...";
     OutputLog "Error converting photo.HEIC: Failed to load image"]
  /\ objectUrls (snd r) = []
  /\ revocations (snd r) = [0%N].
Proof.
  destruct (heic_file_without_thumbnail_is_reported_as_failed Faulty.platform
              Demo.photo {| blob_type := "image/jpeg"; blob_bytes := [] |}
              (new_Error "Failed to load image") initial_state
              eq_refl eq_refl eq_refl) as ([_ H2] & H3 & H4 & _).
  split; [exact H2|]. split; [exact H3 | exact H4].
Defined.

(** X12.  A standard image for which [canvas.toBlob] gives [null] is
    reported as failed with the reason "Failed to create JPEG blob": no
    row appears and no handle is registered; the URL of the source was
    revoked when the image loaded, and the shared canvas keeps the
    image. *)
Theorem standard_file_that_cannot_be_encoded_is_reported_as_failed
    (P : Platform) (f : File) (img : Image) (d : string) (s : State) :
  isHeic P f = Ok false ->
  decodeImage P (blob_of_file f) = Some img ->
  let c := draw_on_canvas img (canvas s) in
  toDataURL P (thumbCanvas P c 240) "image/jpeg" (7 # 10) = Ok d ->
  toBlob P c "image/jpeg" (9 # 10) = None ->
  let r := alone (process_file P f) s in
  fst r = Ok tt
  /\ output (snd r) =
     output s ++
     [OutputLog ("(Standard image) Reading " +:+ name f +:+ "...");
      OutputLog ("Error converting " +:+ name f +:+ ": Failed to create JPEG blob")]
  /\ objectUrls (snd r) = objectUrls s
  /\ revocations (snd r) = revocations s ++ [next_url s]
  /\ blob_store (snd r) !! next_url s = None
  /\ canvas (snd r) = c.
Proof.
  intros Hc Hd c Ht Hb r. subst r.
  rewrite process_file_eq, convert_file_eq, Hc, alone_convertImageFileToJpeg, Hd.
  cbv zeta.
  change (canvas (set_canvas (draw_on_canvas img) _)) with c.
  rewrite Ht, Hb.
  assert (forall t : Result (option string),
    (if ((width c =? 0) || (height c =? 0))%N then Ok None else Ok (Some d)) = t ->
    exists o, t = Ok o) as Hthumb.
  { intros t <-. destruct (_ || _)%bool; eauto. }
  destruct (Hthumb _ eq_refl) as [o ->].
  change (error_text (new_Error "Failed to create JPEG blob"))
    with (Ok "Failed to create JPEG blob" : Result string).
  cbn [fst snd].
  split; [reflexivity|]. split; [|split; [reflexivity|split; [reflexivity|split]]].
  - unfold reported, caught, logged, transient, revoked, issued. simpl.
    now rewrite <- app_assoc.
  - unfold reported, caught, logged.
    cbn [blob_store set_output set_console set_canvas].
    rewrite store_after_transient. cbn [next_url set_output].
    now rewrite decide_True.
  - reflexivity.
Qed.

Lemma standard_file_that_cannot_be_encoded_is_reported_as_failed_witness :
  let r := alone (process_file Faulty.platform Demo.logo) initial_state in
  output (snd r) =
    [OutputLog "(Standard image) Reading logo.png...";
     OutputLog "Error converting logo.png: Failed to create JPEG blob"]
  /\ objectUrls (snd r) = []
  /\ revocations (snd r) = [0%N].
Proof.
  destruct (standard_file_that_cannot_be_encoded_is_reported_as_failed
              Faulty.platform Demo.logo
              {| naturalWidth := 4032; naturalHeight := 3024;
                 image_source := blob_of_file Demo.logo |}
              "data:image/jpeg;240x180" initial_state
              eq_refl eq_refl) as (_ & H2 & H3 & H4 & _).
  - vm_compute. reflexivity.
  - reflexivity.
  - split; [exact H2|]. split; [exact H3 | exact H4].
Defined.

(** X13.  A standard image that loads with a natural width or height of
    0 gets no thumbnail: [createThumbnailDataUrl] returns [null] for the
    canvas without calling [toDataURL].  The canvas has no pixels, and
    where [canvas.toBlob] gives [null] for it, as HTML says, the file is
    reported as failed with the reason "Failed to create JPEG blob": no
    row appears and no handle is registered. *)
Theorem image_without_size_is_reported_as_failed
    (P : Platform) (f : File) (img : Image) (s : State) :
  isHeic P f = Ok false ->
  decodeImage P (blob_of_file f) = Some img ->
  naturalWidth img = 0%N \/ naturalHeight img = 0%N ->
  let c := draw_on_canvas img (canvas s) in
  toBlob P c "image/jpeg" (9 # 10) = None ->
  let r := alone (process_file P f) s in
  (width c = 0%N \/ height c = 0%N)
  /\ (forall s0, createThumbnailDataUrl P c 240 s0 = Finished (Ok None) s0)
  /\ fst r = Ok tt
  /\ output (snd r) =
     output s ++
     [OutputLog ("(Standard image) Reading " +:+ name f +:+ "...");
      OutputLog ("Error converting " +:+ name f +:+ ": Failed to create JPEG blob")]
  /\ objectUrls (snd r) = objectUrls s
  /\ revocations (snd r) = revocations s ++ [next_url s]
  /\ blob_store (snd r) !! next_url s = None.
Proof.
  intros Hc Hd Hz c Hb r. subst r.
  assert (((width c =? 0) || (height c =? 0))%N = true) as Hguard.
  { subst c. unfold draw_on_canvas. cbn [width height].
    destruct Hz as [-> | ->]; [reflexivity|].
    apply orb_true_r. }
  split.
  { apply orb_true_iff in Hguard. rewrite !N.eqb_eq in Hguard. exact Hguard. }
  split.
  { intros s0. unfold createThumbnailDataUrl. now rewrite Hguard. }
  rewrite process_file_eq, convert_file_eq, Hc, alone_convertImageFileToJpeg, Hd.
  cbv zeta.
  change (canvas (set_canvas (draw_on_canvas img) _)) with c.
  rewrite Hguard, Hb.
  change (error_text (new_Error "Failed to create JPEG blob"))
    with (Ok "Failed to create JPEG blob" : Result string).
  cbn [fst snd].
  split; [reflexivity|]. split; [|split; [reflexivity|split; [reflexivity|]]].
  - unfold reported, caught, logged, transient, revoked, issued. simpl.
    now rewrite <- app_assoc.
  - unfold reported, caught, logged.
    cbn [blob_store set_output set_console set_canvas].
    rewrite store_after_transient. cbn [next_url set_output].
    now rewrite decide_True.
Qed.

Lemma image_without_size_is_reported_as_failed_witness :
  let r := alone (process_file Faulty.sizeless Demo.logo) initial_state in
  fst r = Ok tt
  /\ output (snd r) =
     [OutputLog "(Standard image) Reading logo.png...";
      OutputLog "Error converting logo.png: Failed to create JPEG blob"]
  /\ objectUrls (snd r) = [].
Proof.
  destruct (image_without_size_is_reported_as_failed Faulty.sizeless
              Demo.logo
              {| naturalWidth := 0; naturalHeight := 600;
                 image_source := blob_of_file Demo.logo |}
              initial_state eq_refl eq_refl (or_introl eq_refl) eq_refl)
    as (_ & _ & H1 & H2 & H3 & _).
  split; [exact H1|]. split; [exact H2 | exact H3].
Defined.

(** ** The links of a finished batch *)

Lemma safe_complete {A} (Q : Result A -> State -> Prop) (s0 : State) (x : Step A) :
  safe Q s0 x -> Inv (snd (complete x)).
Proof.
  revert s0. induction x as [r s | s resume IH]; intros s0; simpl.
  - now intros (HI & _).
  - intros (HI & _ & HR). apply (IH s s). apply HR; [assumption|].
    apply guarantee_refl.
Qed.

Section FinishedBatch.
Variable P : Platform.

Lemma links_tracked_log (t : string) (s : State) :
  links_tracked s -> links_tracked (logged t s).
Proof.
  intros H u. unfold logged. cbn [output set_output objectUrls].
  rewrite hrefs_app. cbn. rewrite app_nil_r. apply H.
Qed.

Lemma links_tracked_linked (n : string) (b : Blob) (t : option string) (s : State) :
  links_tracked s -> links_tracked (linked n b t s).
Proof.
  intros H u. unfold linked. cbn [output set_output objectUrls set_objectUrls issued
    set_next_url set_blob_store].
  rewrite hrefs_app, elem_of_app, elem_of_JsSet_add. cbn.
  rewrite list_elem_of_singleton. intros [Hu | ->]; auto.
Qed.

Lemma links_tracked_same (s s' : State) :
  output s' = output s -> objectUrls s' = objectUrls s ->
  links_tracked s -> links_tracked s'.
Proof. intros Ho Ht H u. rewrite Ho, Ht. apply H. Qed.

Lemma links_tracked_process_file (f : File) (s : State) :
  links_tracked s -> links_tracked (snd (alone (process_file P f) s)).
Proof.
  intros H. rewrite process_file_eq.
  destruct (convert_file_outcome P f s) as (s0 & Hr & Ho).
  assert (links_tracked s0) as H0.
  { destruct (routed_tracker P f s s0 Hr) as [Ht Hout].
    now apply (links_tracked_same s). }
  destruct (alone (convert_file P f) s) as [[[]|err] s'];
    try destruct (error_text err);
    destruct Ho as [Ho|Ho]; inversion Ho; subst; cbn [snd]; unfold reported, caught;
    repeat first
      [ apply links_tracked_log
      | apply links_tracked_linked
      | assumption
      | eapply links_tracked_same; [reflexivity | reflexivity |] ].
Qed.

Lemma links_tracked_loop (files : list File) (s : State) :
  links_tracked s ->
  links_tracked (snd (alone (for_of files (process_file P)) s)).
Proof.
  revert s. induction files as [|f files IH]; intros s H; [assumption|].
  rewrite alone_for_of.
  pose proof (links_tracked_process_file f s H) as Hf.
  destruct (alone (process_file P f) s) as [[[]|e] s1]; [now apply IH | assumption].
Qed.

End FinishedBatch.

(** X14.  When a batch with a supported file, which nothing interrupts,
    is done, every download link on the page works: its handle is
    tracked, was never revoked and resolves to a blob, which a click on
    the link downloads. *)
Theorem links_of_a_finished_batch_work
    (P : Platform) (events : list Event) (files : list File) (i : nat)
    (thumb : option (string * string)) (label : string) (u : N) (dl : string) :
  let s' := after_batch P files (page (run P events)) in
  List.filter supported files <> [] ->
  output s' !! i = Some (OutputItem thumb label u dl) ->
  u ∈ objectUrls s'
  /\ (u ∉ revocations s')
  /\ exists b, blob_store s' !! u = Some b
       /\ click i s' =
          Finished (Ok tt)
            (set_downloads (fun d => d ++ [(u, Some b)])
               (set_timers (fun t => t ++ [u]) s')).
Proof.
  intros s' Hk Hi.
  pose proof (PageInv_run P events) as [HI _].
  set (s := page (run P events)) in *.
  assert (Inv s') as HI'.
  { subst s'. unfold after_batch, alone.
    apply (safe_complete anything s). now apply safe_processFiles. }
  assert (links_tracked s') as Hl.
  { subst s'. unfold after_batch. rewrite processFiles_eq.
    destruct files as [|f0 files]; [contradiction|].
    destruct (List.filter supported (f0 :: files)) as [|k kept]; [contradiction|].
    cbv zeta.
    match goal with |- context [alone (for_of ?l ?b) ?s0] =>
      assert (links_tracked (snd (alone (for_of l b) s0))) as Hloop
        by (apply links_tracked_loop; intros v Hv; cbn in Hv; inversion Hv);
      destruct (alone (for_of l b) s0) as [[[]|e] s1]
    end; cbn [snd] in *; [|assumption].
    eapply links_tracked_same; [reflexivity | reflexivity | assumption]. }
  assert (u ∈ objectUrls s') as Hu.
  { apply Hl, elem_of_hrefs. exists thumb, label, dl.
    apply list_elem_of_lookup. eauto. }
  split; [assumption|]. split; [now apply (inv_unrevoked s' HI')|].
  destruct (inv_live s' HI' u Hu) as [b Hb]. exists b. split; [assumption|].
  rewrite click_eq, Hi, Hb. reflexivity.
Qed.

Lemma links_of_a_finished_batch_work_witness :
  let s' := after_batch Demo.platform [Demo.photo; Demo.logo]
              (page (run Demo.platform [])) in
  3%N ∈ objectUrls s' /\ (3%N ∉ revocations s').
Proof.
  destruct (links_of_a_finished_batch_work Demo.platform [] [Demo.photo; Demo.logo]
              3 (Some ("data:image/jpeg;240x180", "logo")) "logo.jpg" 3%N "logo.jpg")
    as (H1 & H2 & _).
  - discriminate.
  - vm_compute. reflexivity.
  - split; assumption.
Defined.

(** ** The drop zone and the file input *)

Section DropZone.
Variable P : Platform.

Lemma browse_snoc (events : list DomEvent) (e : DomEvent) :
  browse P (events ++ [e]) = snd (dispatch P (browse P events) e).
Proof. unfold browse. now rewrite fold_left_app. Qed.

Lemma classList_dispatch (d : Document) (e : DomEvent) :
  dropZone_classList d = ["drop-zone"]
  \/ dropZone_classList d = ["drop-zone"; "drag-over"] ->
  dropZone_classList (snd (dispatch P d e)) =
  match e with
  | OnDragEnter | OnDragOver => ["drop-zone"; "drag-over"]
  | OnDragLeave false | OnDragEnd | OnDrop _ => ["drop-zone"]
  | _ => dropZone_classList d
  end.
Proof.
  intros Hd. destruct e as [files| | |[|]| |[files|]|e]; cbn;
    try reflexivity; destruct Hd as [-> | ->]; reflexivity.
Qed.

Lemma classList_browse (events : list DomEvent) :
  dropZone_classList (browse P events) = ["drop-zone"]
  \/ dropZone_classList (browse P events) = ["drop-zone"; "drag-over"].
Proof.
  induction events as [|e events IH] using rev_ind; [now left|].
  rewrite browse_snoc, (classList_dispatch _ e IH).
  destruct e as [files| | |[|]| |dt|e]; auto.
Qed.

End DropZone.

(** X15.  The class list of the drop zone is always [drop-zone], with
    [drag-over] behind it while the zone is highlighted.  The highlight is
    decided by the last drag event: "dragenter" and "dragover" switch it
    on; "drop", "dragend" and a "dragleave" to a target outside the zone
    switch it off; a "dragleave" to a target inside the zone, and every
    other event, leave it as it is. *)
Theorem drop_zone_highlight_follows_the_last_drag_event
    (P : Platform) (events : list DomEvent) (e : DomEvent) :
  let d := browse P events in
  let d' := browse P (events ++ [e]) in
  dropZone_classList d' =
    (if highlighted d' then ["drop-zone"; "drag-over"] else ["drop-zone"])
  /\ highlighted d' =
     match e with
     | OnDragEnter | OnDragOver => true
     | OnDragLeave false | OnDragEnd | OnDrop _ => false
     | OnDragLeave true | OnChange _ | OnPage _ => highlighted d
     end.
Proof.
  intros d d'. split.
  - destruct (classList_browse P (events ++ [e])) as [H|H]; fold d' in H;
      unfold highlighted; rewrite H; reflexivity.
  - subst d'. rewrite browse_snoc. fold d. unfold highlighted.
    rewrite (classList_dispatch P d e (classList_browse P events)).
    destruct e as [files| | |[|]| |dt|e]; reflexivity.
Qed.

Lemma dispatch_page_events (P : Platform) (d : Document) (e : DomEvent) :
  doc_page (snd (dispatch P d e)) = fold_left (step P) (page_events e) (doc_page d).
Proof. destruct e as [files| | |[|]| |[files|]|e]; reflexivity. Qed.

Lemma browse_page_events (P : Platform) (events : list DomEvent) :
  doc_page (browse P events) = run P (flat_map page_events events).
Proof.
  induction events as [|e events IH] using rev_ind; [reflexivity|].
  rewrite browse_snoc, dispatch_page_events, IH, flat_map_app.
  unfold run. rewrite fold_left_app. cbn [flat_map]. now rewrite app_nil_r.
Qed.

(** X16.  The listeners of the file input and of the drop zone do
    nothing to the page but start batches: after any sequence of DOM
    events the page is the page after the batches that the change events
    and the drops with a [dataTransfer] have started, in their order, and
    after the other events of the page.  So the tracked handles are live
    and never revoked however the batches were started.  Every drop is
    cancelled (the browser does not open the dropped file); a drop
    without a [dataTransfer] starts nothing, and a change without files
    only sets the status "No files selected.". *)
Theorem listeners_only_start_batches
    (P : Platform) (events : list DomEvent) :
  let d := browse P events in
  let s := page (doc_page d) in
  doc_page d = run P (flat_map page_events events)
  /\ (forall u, u ∈ objectUrls s ->
        is_Some (blob_store s !! u) /\ (u ∉ revocations s))
  /\ (forall dataTransfer,
        fst (dispatch P d (OnDrop dataTransfer)) = cancelled
        /\ doc_page (snd (dispatch P d (OnDrop dataTransfer))) =
           match dataTransfer with
           | Some files => doc_page (snd (dispatch P d (OnChange files)))
           | None => doc_page d
           end)
  /\ (forall files,
        match files with Some (_ :: _) => False | _ => True end ->
        doc_page (snd (dispatch P d (OnChange files))) =
        {| page := with_status "No files selected." s;
           suspended := suspended (doc_page d) |}).
Proof.
  intros d s. pose proof (browse_page_events P events) as Hd. fold d in Hd.
  split; [exact Hd|]. split; [|split].
  - assert (Inv s) as HI by (subst s; rewrite Hd; apply PageInv_run).
    intros u Hu. split; [now apply (inv_live s HI) | now apply (inv_unrevoked s HI)].
  - intros [files|]; split; reflexivity.
  - intros [[|f l]|] Hf; try contradiction; reflexivity.
Qed.

(** ** Revocations are for ever *)

Lemma keeps_revocations_refl (s : State) : keeps_revocations s s.
Proof. unfold keeps_revocations. reflexivity. Qed.

Lemma keeps_revocations_trans (s1 s2 s3 : State) :
  keeps_revocations s1 s2 -> keeps_revocations s2 s3 -> keeps_revocations s1 s3.
Proof. unfold keeps_revocations. intros H1 H2. now transitivity (revocations s2). Qed.

Lemma keeps_revocations_same (s s' : State) :
  revocations s' = revocations s -> keeps_revocations s s'.
Proof. unfold keeps_revocations. now intros ->. Qed.

Lemma keeps_revocations_revoked (u : N) (s : State) :
  keeps_revocations s (revoked u s).
Proof. unfold keeps_revocations. simpl. now apply prefix_app_r. Qed.

Lemma keeps_revocations_revoked_all (s : State) :
  keeps_revocations s (revoked_all s).
Proof.
  unfold keeps_revocations, revoked_all. cbn [revocations set_objectUrls].
  destruct (revoked_all_fields (objectUrls s) s) as (_ & _ & -> & _).
  now apply prefix_app_r.
Qed.

Section EachRun.
Context {A : Type}.

Lemma each_run_start (s0 s1 : State) (x : Step A) :
  keeps_revocations s0 s1 -> each_run keeps_revocations s1 x ->
  each_run keeps_revocations s0 x.
Proof.
  intros H. destruct x as [r s | s resume]; simpl.
  - now apply keeps_revocations_trans.
  - intros [H1 H2]. split; [now apply (keeps_revocations_trans s0 s1) | assumption].
Qed.

Lemma each_run_finished (s0 s : State) (r : Result A) :
  keeps_revocations s0 s -> each_run keeps_revocations s0 (Finished r s).
Proof. auto. Qed.

Lemma each_run_or_catch (s0 : State) (x : Step A) (handler : JsValue -> M A) :
  each_run keeps_revocations s0 x ->
  (forall e s, each_run keeps_revocations s (handler e s)) ->
  each_run keeps_revocations s0 (or_catch x handler).
Proof.
  intros Hx Hh. revert s0 Hx.
  induction x as [[a|e] s | s resume IH]; intros s0; simpl.
  - auto.
  - intros H. now apply (each_run_start s0 s).
  - intros [H1 H2]. split; [assumption|]. intros s'. apply IH, H2.
Qed.

Lemma each_run_and_finally (s0 : State) (x : Step A) (fin : M unit) :
  each_run keeps_revocations s0 x ->
  (forall s, exists s', fin s = Finished (Ok tt) s' /\ keeps_revocations s s') ->
  each_run keeps_revocations s0 (and_finally x fin).
Proof.
  intros Hx Hf. revert s0 Hx.
  induction x as [r s | s resume IH]; intros s0; simpl.
  - intros H. destruct (Hf s) as (s' & -> & Hs'). simpl.
    now apply (keeps_revocations_trans s0 s).
  - intros [H1 H2]. split; [assumption|]. intros s'. apply IH, H2.
Qed.

Lemma each_run_await (s0 : State) (x : Step A) :
  each_run keeps_revocations s0 x -> each_run keeps_revocations s0 (and_await x).
Proof.
  revert s0. induction x as [r s | s resume IH]; intros s0; simpl.
  - intros H. split; [assumption|]. intros s'. apply keeps_revocations_refl.
  - intros [H1 H2]. split; [assumption|]. intros s'. apply IH, H2.
Qed.

End EachRun.

Lemma each_run_and_then {A B} (s0 : State) (x : Step A) (k : A -> M B) :
  each_run keeps_revocations s0 x ->
  (forall a s, each_run keeps_revocations s (k a s)) ->
  each_run keeps_revocations s0 (and_then x k).
Proof.
  intros Hx Hk. revert s0 Hx.
  induction x as [[a|e] s | s resume IH]; intros s0; simpl.
  - intros H. now apply (each_run_start s0 s).
  - auto.
  - intros [H1 H2]. split; [assumption|]. intros s'. apply IH, H2.
Qed.

Section RunsOfTheScript.
Variable P : Platform.

Lemma each_run_addDownloadLink (n : string) (b : Blob) (t : option string)
    (s : State) :
  each_run keeps_revocations s (addDownloadLink n b t s).
Proof. rewrite addDownloadLink_eq. now apply keeps_revocations_same. Qed.

Lemma each_run_createThumbnailFromBlob (b : Blob) (m : N) (s : State) :
  each_run keeps_revocations s (createThumbnailFromBlob P b m s).
Proof.
  rewrite createThumbnailFromBlob_step. simpl.
  split; [now apply keeps_revocations_same|].
  intros s'. apply keeps_revocations_revoked.
Qed.

Lemma each_run_convertHeicFileToJpeg (f : File) (s : State) :
  each_run keeps_revocations s (convertHeicFileToJpeg P f s).
Proof.
  unfold convertHeicFileToJpeg.
  cbn [bind and_then appendMessage modify await and_await settle each_run].
  split; [now apply keeps_revocations_same|].
  intros s'.
  destruct (heicTo P f "image/jpeg" (9 # 10)) as [jpeg|e]; cbn [and_then].
  - unfold bind at 1. apply each_run_and_then.
    + unfold await. apply each_run_await, each_run_createThumbnailFromBlob.
    + intros d s''. apply each_run_addDownloadLink.
  - apply keeps_revocations_refl.
Qed.

Lemma each_run_convertImageFileToJpeg (f : File) (s : State) :
  each_run keeps_revocations s (convertImageFileToJpeg P f s).
Proof.
  unfold convertImageFileToJpeg.
  cbn [bind and_then appendMessage modify createObjectURL loadImage await
       and_await settle each_run].
  split; [now apply keeps_revocations_same|].
  intros s'.
  match goal with |- context [load_result P ?u ?s2] =>
    destruct (load_result P u s2) as [img|e] end.
  - cbn [bind and_then revokeObjectURL modify gets].
    set (s3 := set_canvas _ _).
    assert (keeps_revocations s' s3) as H3
      by (subst s3; apply (keeps_revocations_revoked _ s')).
    unfold bind at 1.
    destruct (createThumbnailDataUrl_finishes P (canvas s3) 240 s3) as [[t|e] ->];
      cbn [and_then].
    + unfold bind, canvasToJpegBlob, await, settle. cbn [and_await and_then each_run].
      split; [assumption|]. intros s''.
      destruct (toBlob P _ _ _) as [jpeg|].
      * apply each_run_addDownloadLink.
      * apply keeps_revocations_refl.
    + assumption.
  - apply keeps_revocations_refl.
Qed.

Lemma each_run_safeIsHeic (f : File) (s : State) :
  each_run keeps_revocations s (safeIsHeic P f s).
Proof.
  rewrite safeIsHeic_step. simpl. split; [apply keeps_revocations_refl|].
  intros s'. destruct (isHeic P f); simpl;
    [apply keeps_revocations_refl | now apply keeps_revocations_same].
Qed.

Lemma each_run_convert_file (f : File) (s : State) :
  each_run keeps_revocations s (convert_file P f s).
Proof.
  unfold convert_file. unfold bind at 1. apply each_run_and_then.
  - unfold await. apply each_run_await, each_run_safeIsHeic.
  - intros [|] s'; unfold await; apply each_run_await;
      [apply each_run_convertHeicFileToJpeg | apply each_run_convertImageFileToJpeg].
Qed.

Lemma each_run_process_file (f : File) (s : State) :
  each_run keeps_revocations s (process_file P f s).
Proof.
  unfold process_file, try_catch. apply each_run_or_catch.
  - apply each_run_convert_file.
  - intros e s'. unfold bind, modify, settle. cbn [and_then].
    destruct (error_text e); cbn [and_then appendMessage modify each_run];
      now apply keeps_revocations_same.
Qed.

Lemma each_run_for_of (files : list File) (s : State) :
  each_run keeps_revocations s (for_of files (process_file P) s).
Proof.
  revert s. induction files as [|f files IH]; intros s.
  - apply keeps_revocations_refl.
  - cbn [for_of]. unfold bind. apply each_run_and_then.
    + apply each_run_process_file.
    + intros _ s'. apply IH.
Qed.

Lemma each_run_processFiles (files : list File) (s : State) :
  each_run keeps_revocations s (processFiles P files s).
Proof.
  rewrite processFiles_started.
  destruct files as [|f0 files]; [now apply keeps_revocations_same|].
  destruct (List.filter supported (f0 :: files)) as [|k kept];
    [now apply keeps_revocations_same|].
  apply each_run_and_then.
  - apply (each_run_start s (batch_started (length (k :: kept)) s)).
    + unfold batch_started.
      apply (keeps_revocations_trans _ (revoked_all (with_status
               ("Processing " +:+ pretty (length (k :: kept)) +:+ " file(s)...") s))).
      * apply (keeps_revocations_trans _ (with_status
               ("Processing " +:+ pretty (length (k :: kept)) +:+ " file(s)...") s)).
        -- now apply keeps_revocations_same.
        -- apply keeps_revocations_revoked_all.
      * now apply keeps_revocations_same.
    + apply each_run_for_of.
  - intros _ s'. now apply keeps_revocations_same.
Qed.

Lemma each_run_handle (e : Event) (s : State) :
  each_run keeps_revocations s (handle P e s).
Proof.
  destruct e as [files|i|k| |j]; cbn [handle].
  - apply each_run_processFiles.
  - rewrite click_eq. destruct (output s !! i) as [[t l href d|]|];
      now apply keeps_revocations_same.
  - rewrite fire_eq. destruct (timers s !! k) as [u|];
      [|apply keeps_revocations_refl].
    simpl. unfold keeps_revocations. simpl. now apply prefix_app_r.
  - rewrite revokeAll_eq. apply keeps_revocations_revoked_all.
  - apply keeps_revocations_refl.
Qed.

(** The batches that wait keep the revocations in whatever state they
    resume. *)
Lemma suspended_keep_revocations (events : list Event) :
  Forall (fun resume => forall s', each_run keeps_revocations s' (resume s'))
    (suspended (run P events)).
Proof.
  induction events as [|e events IH] using rev_ind; [constructor|].
  rewrite run_snoc. set (pg := run P events) in *.
  assert (forall x : Step unit, each_run keeps_revocations (page pg) x ->
            Forall (fun resume => forall s', each_run keeps_revocations s' (resume s'))
              (suspended (enter x (suspended pg)))) as Henter.
  { intros [r s | s resume]; simpl; [auto|].
    intros [_ H]. apply Forall_app. split; [assumption|]. now constructor. }
  destruct e as [files|i|k| |j];
    try (apply Henter, each_run_handle).
  cbn [step]. unfold resume_batch.
  destruct (suspended pg !! j) as [resume|] eqn:Hj; [|assumption].
  pose proof (Forall_lookup_1 _ _ _ _ IH Hj (page pg)) as Hr.
  destruct (resume (page pg)) as [r s | s resume']; simpl in *.
  - now apply Forall_delete.
  - apply Forall_insert; [assumption|]. apply Hr.
Qed.

Lemma step_keeps_revocations (events : list Event) (e : Event) :
  keeps_revocations (page (run P events)) (page (step P (run P events) e)).
Proof.
  set (pg := run P events).
  assert (forall x : Step unit, each_run keeps_revocations (page pg) x ->
            keeps_revocations (page pg) (page (enter x (suspended pg)))) as Henter.
  { intros [r s | s resume]; simpl; tauto. }
  destruct e as [files|i|k| |j];
    try (apply Henter, each_run_handle).
  cbn [step]. unfold resume_batch.
  destruct (suspended pg !! j) as [resume|] eqn:Hj;
    [|apply keeps_revocations_refl].
  pose proof (Forall_lookup_1 _ _ _ _ (suspended_keep_revocations events) Hj
                (page pg)) as Hr.
  destruct (resume (page pg)) as [r s | s resume']; simpl in *; tauto.
Qed.

Lemma run_keeps_revocations (events later : list Event) :
  keeps_revocations (page (run P events)) (page (run P (events ++ later))).
Proof.
  induction later as [|e later IH] using rev_ind.
  - rewrite app_nil_r. apply keeps_revocations_refl.
  - rewrite app_assoc, run_snoc.
    eapply keeps_revocations_trans; [exact IH|].
    apply step_keeps_revocations.
Qed.

End RunsOfTheScript.

(** X17.  A revocation is for ever: a URL that was revoked in some
    state of the page is revoked in every later state, whatever happens in
    between; it never resolves to a blob again and never is in the tracker
    set again. *)
Theorem revoked_url_never_resolves_again
    (P : Platform) (events later : list Event) (u : N) :
  u ∈ revocations (page (run P events)) ->
  u ∈ revocations (page (run P (events ++ later)))
  /\ blob_store (page (run P (events ++ later))) !! u = None
  /\ (u ∉ objectUrls (page (run P (events ++ later)))).
Proof.
  intros Hu.
  pose proof (run_keeps_revocations P events later) as [l Hl].
  pose proof (PageInv_run P (events ++ later)) as [HI _].
  assert (u ∈ revocations (page (run P (events ++ later)))) as Hu'.
  { rewrite Hl. apply elem_of_app. now left. }
  split; [assumption|]. split; [now apply (inv_revoked_dead _ HI)|].
  intros Ht. now apply (inv_unrevoked _ HI u Ht).
Qed.

Lemma revoked_url_never_resolves_again_witness :
  blob_store
    (page (run Demo.platform
             ((SelectFiles [Demo.logo] :: settles 5)
              ++ (SelectFiles [Demo.photo] :: settles 6)))) !! 0%N = None.
Proof.
  assert (0%N ∈ revocations
            (page (run Demo.platform (SelectFiles [Demo.logo] :: settles 5))))
    as Hu by (vm_compute; left).
  exact (proj1 (proj2 (revoked_url_never_resolves_again Demo.platform
                         (SelectFiles [Demo.logo] :: settles 5)
                         (SelectFiles [Demo.photo] :: settles 6) 0%N Hu))).
Defined.
